(** * clean-claude: the rule-based text cleaning pipeline

    A shallow embedding of [src/utils/cleaningRules.ts],
    [src/hooks/useTextCleaner.ts] and [src/hooks/useTextStats.ts].

    JavaScript strings are sequences of UTF-16 code units; none of the
    regular expressions of the catalogue carries the [u] flag, so they all
    work code unit by code unit.  A string is therefore a [list N] of code
    units, and [length] is JavaScript's [.length]. *)

From Stdlib Require Import String Ascii.
From Stdlib Require Import List NArith ZArith Arith Bool Lia.
Import ListNotations.
Local Open Scope N_scope.

(** ** Code units and strings *)

Definition char := N.
Definition jsstring := list char.

(** ASCII literals of the development; every other code unit is written
    by its number. *)
Definition str (s : string) : jsstring :=
  List.map N_of_ascii (list_ascii_of_string s).

Definition NL : char := 10.
Definition CR : char := 13.
Definition ESC : char := 27.
Definition SP : char := 32.
Definition DQ : char := 34.
Definition BSL : char := 92.
Definition LBRACK : char := 91.
Definition RBRACK : char := 93.
Definition PIPE : char := 124.

Definition inRange (lo hi c : char) : bool := (lo <=? c) && (c <=? hi).

Fixpoint oneOf (cs : list char) (c : char) : bool :=
  match cs with
  | [] => false
  | x :: cs' => (c =? x) || oneOf cs' c
  end.

(** ECMAScript [WhiteSpace] and [LineTerminator]: what [\s] matches and
    what [String.prototype.trim] strips. *)
Definition isWhiteSpace (c : char) : bool :=
  oneOf [9; 10; 11; 12; 13; 32; 160; 5760; 8232; 8233; 8239; 8287; 12288; 65279] c
  || inRange 8192 8202 c.

(** ECMAScript [LineTerminator]: LF, CR, LS, PS.  The dot does not match
    them, and with the [m] flag the anchors see them as line boundaries. *)
Definition isLineTerminator (c : char) : bool := oneOf [10; 13; 8232; 8233] c.

Definition isDot (c : char) : bool := negb (isLineTerminator c).

(** ** Regular expressions

    The fragment of ECMAScript patterns that the catalogue uses. *)

Inductive regex : Type :=
| Eps : regex                               (* empty pattern *)
| Chr : char -> regex                       (* a literal character *)
| Cls : (char -> bool) -> regex             (* a class: [\s], [.], [[...]] *)
| Bol : regex                               (* ^ *)
| Eol : regex                               (* $ *)
| Seq : regex -> regex -> regex
| Alt : regex -> regex -> regex             (* a|b *)
| Star : bool -> regex -> regex             (* r* (greedy) or r*? (lazy) *)
| Group : nat -> regex -> regex.            (* the n-th capturing group *)

Definition Opt (r : regex) : regex := Alt r Eps.          (* r? *)
Definition Plus (r : regex) : regex := Seq r (Star true r). (* r+ *)

Fixpoint Lit (s : jsstring) : regex :=
  match s with
  | [] => Eps
  | c :: s' => Seq (Chr c) (Lit s')
  end.

Fixpoint Seqs (rs : list regex) : regex :=
  match rs with
  | [] => Eps
  | [r] => r
  | r :: rs' => Seq r (Seqs rs')
  end.

Record flags : Type := { fl_global : bool; fl_ignoreCase : bool; fl_multiline : bool }.

Record RegExp : Type := { source : regex; reflags : flags }.

Definition noflags : flags := {| fl_global := false; fl_ignoreCase := false; fl_multiline := false |}.
Definition flags_g : flags := {| fl_global := true; fl_ignoreCase := false; fl_multiline := false |}.
Definition flags_gm : flags := {| fl_global := true; fl_ignoreCase := false; fl_multiline := true |}.
Definition flags_gim : flags := {| fl_global := true; fl_ignoreCase := true; fl_multiline := true |}.

(** [Canonicalize] of the specification, without the [u] flag: a code unit
    is compared through its upper-case form, and a code unit above 127 is
    never identified with an ASCII one.  Only ASCII literals occur in the
    one pattern with the [i] flag, and for them this is the comparison. *)
Definition canonicalize (fl : flags) (c : char) : char :=
  if fl_ignoreCase fl && inRange 97 122 c then c - 32 else c.

(** ** The backtracking matcher

    A match state is a position in the input, kept as the reversed text
    before it and the text after it, and the captures made so far. *)

Record mstate : Type := {
  pre : list char;                     (* what was read, last character first *)
  suf : list char;                     (* what remains *)
  caps : list (nat * jsstring)         (* captures, most recent first *)
}.

Definition cont := mstate -> option mstate.

Definition advance (c : char) (rest : list char) (st : mstate) : mstate :=
  {| pre := c :: pre st; suf := rest; caps := caps st |}.

Definition at_bol (fl : flags) (st : mstate) : bool :=
  match pre st with
  | [] => true
  | c :: _ => fl_multiline fl && isLineTerminator c
  end.

Definition at_eol (fl : flags) (st : mstate) : bool :=
  match suf st with
  | [] => true
  | c :: _ => fl_multiline fl && isLineTerminator c
  end.

(** The text read between two states of the same run. *)
Definition segment (st st' : mstate) : jsstring :=
  rev (firstn (length (pre st') - length (pre st))%nat (pre st')).

Definition set_cap (i : nat) (st st' : mstate) : mstate :=
  {| pre := pre st'; suf := suf st'; caps := (i, segment st st') :: caps st' |}.

Definition orElse (a b : option mstate) : option mstate :=
  match a with
  | Some x => Some x
  | None => b
  end.

Definition progressed (st st' : mstate) : bool :=
  (length (suf st') <? length (suf st))%nat.

(** The iterations of a star.  [body] runs the starred pattern once; an
    iteration that reads nothing is rejected, as the language specification
    asks, so there is at most one iteration per remaining character: the
    counter [n] starts above that number and never runs out. *)
Fixpoint star_loop (body : cont -> mstate -> option mstate) (greedy : bool)
         (k : cont) (n : nat) (st : mstate) {struct n} : option mstate :=
  match n with
  | O => k st
  | S n' =>
      let again :=
        body (fun st' => if progressed st st' then star_loop body greedy k n' st' else None) st in
      if greedy then orElse again (k st) else orElse (k st) again
  end.

(** The matcher in continuation-passing style, as the language
    specification defines it: [rmatch fl r k st] matches [r] at [st] and
    hands the state reached to [k]; when [k] fails it backtracks. *)
Fixpoint rmatch (fl : flags) (r : regex) (k : cont) (st : mstate) {struct r} : option mstate :=
  match r with
  | Eps => k st
  | Chr c =>
      match suf st with
      | x :: rest =>
          if canonicalize fl x =? canonicalize fl c then k (advance x rest st) else None
      | [] => None
      end
  | Cls f =>
      match suf st with
      | x :: rest => if f x then k (advance x rest st) else None
      | [] => None
      end
  | Bol => if at_bol fl st then k st else None
  | Eol => if at_eol fl st then k st else None
  | Seq a b => rmatch fl a (rmatch fl b k) st
  | Alt a b => orElse (rmatch fl a k st) (rmatch fl b k st)
  | Star greedy a => star_loop (rmatch fl a) greedy k (S (length (suf st))) st
  | Group i a => rmatch fl a (fun st' => k (set_cap i st st')) st
  end.

(** One attempt at the current position, with no capture yet. *)
Definition start_state (before after : list char) : mstate :=
  {| pre := before; suf := after; caps := [] |}.

Definition match_here (re : RegExp) (before after : list char) : option mstate :=
  rmatch (reflags re) (source re) Some (start_state before after).

Fixpoint get_cap (i : nat) (cs : list (nat * jsstring)) : option jsstring :=
  match cs with
  | [] => None
  | (j, s) :: cs' => if Nat.eqb i j then Some s else get_cap i cs'
  end.

(** [RegExp.prototype.test] and a truthy [String.prototype.match]: is
    there a match starting at some position? *)
Fixpoint search (re : RegExp) (before after : list char) {struct after} : bool :=
  match match_here re before after with
  | Some _ => true
  | None =>
      match after with
      | [] => false
      | c :: rest => search re (c :: before) rest
      end
  end.

Definition test (re : RegExp) (s : jsstring) : bool := search re [] s.

(** [String.prototype.replace] with a replacer function, which receives the
    matched text and the captures.  Without the [g] flag only the first
    match is replaced; with it the scan resumes where the match ended, one
    character further when the match was empty. *)
Definition replacer := jsstring -> list (nat * jsstring) -> jsstring.

Fixpoint replace_from (re : RegExp) (f : replacer) (fuel : nat)
         (before after : list char) {struct fuel} : jsstring :=
  match fuel with
  | O => after
  | S fuel' =>
      let copy :=
        match after with
        | [] => []
        | c :: rest => c :: replace_from re f fuel' (c :: before) rest
        end in
      match match_here re before after with
      | None => copy
      | Some st' =>
          let start := start_state before after in
          let out := f (segment start st') (caps st') in
          if negb (fl_global (reflags re)) then out ++ suf st'
          else if progressed start st' then out ++ replace_from re f fuel' (pre st') (suf st')
          else out ++ copy
      end
  end.

Definition replace_with (re : RegExp) (f : replacer) (s : jsstring) : jsstring :=
  replace_from re f (S (length s)) [] s.

(** [replace] with a replacement string that has no [$] pattern. *)
Definition replace (re : RegExp) (by_ : jsstring) (s : jsstring) : jsstring :=
  replace_with re (fun _ _ => by_) s.

(** ** String and array methods *)

(** [s.split(sep)] for a one-character separator. *)
Fixpoint split (sep : char) (s : jsstring) : list jsstring :=
  match s with
  | [] => [[]]
  | c :: rest =>
      if c =? sep then [] :: split sep rest
      else match split sep rest with
           | l :: ls => (c :: l) :: ls
           | [] => [[c]]
           end
  end.

(** [lines.join(sep)]. *)
Fixpoint join (sep : char) (ls : list jsstring) : jsstring :=
  match ls with
  | [] => []
  | [l] => l
  | l :: ls' => l ++ sep :: join sep ls'
  end.

Fixpoint dropWhile (f : char -> bool) (s : jsstring) : jsstring :=
  match s with
  | [] => []
  | c :: rest => if f c then dropWhile f rest else s
  end.

(** The text without its longest suffix of characters that satisfy [f]. *)
Fixpoint dropEnd (f : char -> bool) (s : jsstring) : jsstring :=
  match s with
  | [] => []
  | c :: rest =>
      match dropEnd f rest with
      | [] => if f c then [] else [c]
      | kept => c :: kept
      end
  end.

(** [s.trim()]: white space and line terminators go from both ends. *)
Definition trim (s : jsstring) : jsstring :=
  dropEnd isWhiteSpace (dropWhile isWhiteSpace s).

(** ** The platform's JSON object

    [JSON.parse] and [JSON.stringify] belong to the JavaScript runtime, not
    to the repository.  The rules are stated over any implementation of
    them: [JSON_parse] either returns a value or throws, and
    [JSON_stringify2 v] is [JSON.stringify(v, null, 2)]. *)

Inductive exn : Type := TypeError | SyntaxError.

Inductive completion (A : Type) : Type :=
| Normal : A -> completion A
| Throw : exn -> completion A.
Arguments Normal {A} _.
Arguments Throw {A} _.

Definition bind {A B : Type} (c : completion A) (f : A -> completion B) : completion B :=
  match c with
  | Normal a => f a
  | Throw e => Throw e
  end.

Notation "x <- c ;; k" := (bind c (fun x => k))
  (at level 61, c at next level, right associativity).

(** [try { body } catch { handler }]. *)
Definition try_catch {A : Type} (body : completion A) (handler : A) : A :=
  match body with
  | Normal a => a
  | Throw _ => handler
  end.

Record JSON : Type := {
  jsvalue : Type;
  JSON_parse : jsstring -> completion jsvalue;
  JSON_stringify2 : jsvalue -> jsstring
}.

(** *** A reference implementation for a fragment of JSON

    [refJSON] follows ECMA-404 on the texts built from arrays, strings
    without escapes, natural numbers below 10^15, [true], [false] and
    [null]; on them [JSON.stringify] writes a number and a string back as
    they were read.  It rejects every other text, also those a runtime
    accepts (objects, escapes, signs, fractions, exponents): it serves to
    run the rules on concrete inputs of the fragment, and no general
    statement below depends on it. *)

#[local] Set Warnings "-register-all".
Inductive jvalue : Type :=
| JNull : jvalue
| JBool : bool -> jvalue
| JNumber : jsstring -> jvalue          (* the digits of a natural number *)
| JString : jsstring -> jvalue
| JArray : list jvalue -> jvalue.

Definition isJsonSpace : char -> bool := oneOf [9; 10; 13; 32].
Definition isDigit (c : char) : bool := inRange 48 57 c.

Fixpoint skipSpace (s : jsstring) : jsstring :=
  match s with
  | c :: rest => if isJsonSpace c then skipSpace rest else s
  | [] => []
  end.

(** A string character of the fragment: no quote, no backslash, no control
    character and no surrogate, so that it is written back as it is. *)
Definition isPlainStringChar (c : char) : bool :=
  (32 <=? c) && negb (c =? DQ) && negb (c =? BSL) && negb (inRange 55296 57343 c).

Fixpoint readString (s : jsstring) : option (jsstring * jsstring) :=
  match s with
  | [] => None
  | c :: rest =>
      if c =? DQ then Some ([], rest)
      else if isPlainStringChar c then
        match readString rest with
        | Some (body, rest') => Some (c :: body, rest')
        | None => None
        end
      else None
  end.

Fixpoint readDigits (s : jsstring) : jsstring * jsstring :=
  match s with
  | c :: rest =>
      if isDigit c then let (ds, rest') := readDigits rest in (c :: ds, rest') else ([], s)
  | [] => ([], [])
  end.

Fixpoint dropPrefix (p s : jsstring) : option jsstring :=
  match p, s with
  | [], _ => Some s
  | x :: p', y :: s' => if x =? y then dropPrefix p' s' else None
  | _ :: _, [] => None
  end.

(** A natural number below 10^15 without a leading zero, not followed by a
    fraction or an exponent. *)
Definition readNumber (s : jsstring) : option (jsstring * jsstring) :=
  let (ds, rest) := readDigits s in
  let followed := match rest with c :: _ => oneOf [46; 69; 101] c | [] => false end in
  let leadingZero := match ds with 48 :: _ :: _ => true | _ => false end in
  if followed || leadingZero || (15 <? length ds)%nat then None
  else match ds with [] => None | _ => Some (ds, rest) end.

Fixpoint parseItems (value : jsstring -> option (jvalue * jsstring))
         (n : nat) (s : jsstring) {struct n} : option (list jvalue * jsstring) :=
  match n with
  | O => None
  | S n' =>
      match value s with
      | Some (v, s1) =>
          match skipSpace s1 with
          | c :: s2 =>
              if c =? RBRACK then Some ([v], s2)
              else if c =? 44 then
                match parseItems value n' s2 with
                | Some (vs, s3) => Some (v :: vs, s3)
                | None => None
                end
              else None
          | [] => None
          end
      | None => None
      end
  end.

Fixpoint parseValue (fuel : nat) (s : jsstring) {struct fuel} : option (jvalue * jsstring) :=
  match fuel with
  | O => None
  | S fuel' =>
      match skipSpace s with
      | [] => None
      | c :: rest =>
          if c =? DQ then
            match readString rest with
            | Some (body, rest') => Some (JString body, rest')
            | None => None
            end
          else if c =? LBRACK then
            match skipSpace rest with
            | c' :: rest' =>
                if c' =? RBRACK then Some (JArray [], rest')
                else
                  match parseItems (parseValue fuel') fuel' (c' :: rest') with
                  | Some (vs, s') => Some (JArray vs, s')
                  | None => None
                  end
            | [] => None
            end
          else if isDigit c then
            match readNumber (c :: rest) with
            | Some (ds, rest') => Some (JNumber ds, rest')
            | None => None
            end
          else
            match dropPrefix (str "null") (c :: rest) with
            | Some rest' => Some (JNull, rest')
            | None =>
                match dropPrefix (str "true") (c :: rest) with
                | Some rest' => Some (JBool true, rest')
                | None =>
                    match dropPrefix (str "false") (c :: rest) with
                    | Some rest' => Some (JBool false, rest')
                    | None => None
                    end
                end
            end
      end
  end.

Definition refParse (s : jsstring) : completion jvalue :=
  match parseValue (S (length s)) s with
  | Some (v, rest) =>
      match skipSpace rest with
      | [] => Normal v
      | _ :: _ => Throw SyntaxError
      end
  | None => Throw SyntaxError
  end.

(** [JSON.stringify(v, null, 2)] on these values. *)
Fixpoint render (indent : nat) (v : jvalue) {struct v} : jsstring :=
  match v with
  | JNull => str "null"
  | JBool true => str "true"
  | JBool false => str "false"
  | JNumber ds => ds
  | JString s => DQ :: s ++ [DQ]
  | JArray [] => str "[]"
  | JArray (x :: xs) =>
      let pad := repeat SP (indent + 2) in
      LBRACK :: NL :: pad ++ render (indent + 2) x
        ++ (fix more (ys : list jvalue) : jsstring :=
              match ys with
              | [] => []
              | y :: ys' => 44 :: NL :: pad ++ render (indent + 2) y ++ more ys'
              end) xs
        ++ NL :: repeat SP indent ++ [RBRACK]
  end.

Definition refJSON : JSON :=
  {| jsvalue := jvalue; JSON_parse := refParse; JSON_stringify2 := render 0 |}.

(** ** The rule catalogue: [cleaningRules] *)

Record CleaningRule : Type := {
  name : string;
  description : string;
  apply : jsstring -> jsstring
}.

Definition ws : regex := Cls isWhiteSpace.   (* \s *)
Definition dot : regex := Cls isDot.         (* . *)

(** *** Remove box drawing *)

(** The class of the filter: the eighteen characters
    U+2500 U+2502 U+250C U+2510 U+2514 U+2518 U+251C U+2524 U+252C U+2534
    U+253C U+256D U+256E U+256F U+2570 U+2571 U+2572 U+2573. *)
Definition boxChars : list char :=
  [9472; 9474; 9484; 9488; 9492; 9496; 9500; 9508; 9516; 9524; 9532;
   9581; 9582; 9583; 9584; 9585; 9586; 9587].

(** Leading frame characters: U+2502 U+251C U+2570. *)
Definition leadChars : list char := [9474; 9500; 9584].

(** Trailing frame characters: U+2502 U+2524 U+256E U+256F. *)
Definition trailChars : list char := [9474; 9508; 9582; 9583].

Definition isBoxChar : char -> bool := oneOf boxChars.

(** [/^[...]+$/] *)
Definition boxOnlyRe : RegExp :=
  {| source := Seqs [Bol; Plus (Cls isBoxChar); Eol]; reflags := noflags |}.

(** [/^[...]\s*/] *)
Definition boxLeadRe : RegExp :=
  {| source := Seqs [Bol; Cls (oneOf leadChars); Star true ws]; reflags := noflags |}.

(** [/\s*[...]$/] *)
Definition boxTrailRe : RegExp :=
  {| source := Seqs [Star true ws; Cls (oneOf trailChars); Eol]; reflags := noflags |}.

Definition removeBoxDrawing (text : jsstring) : jsstring :=
  join NL
    (map (fun line => replace boxTrailRe [] (replace boxLeadRe [] line))
       (filter (fun line => negb (test boxOnlyRe line))
          (split NL text))).

(** *** Clean JSON arrays *)

(** The pattern of the rule, flags [gm], written here with Q for the
    double quote and a blank before a closing parenthesis:
    [/^(\s*template_suffixes\s* )?(\[?Q?\[.*?\]Q?\]? )$/gm] *)
Definition jsonArrayRe : RegExp :=
  {| source :=
       Seqs [Bol;
             Opt (Group 1 (Seqs [Star true ws; Lit (str "template_suffixes"); Star true ws]));
             Group 2 (Seqs [Opt (Chr LBRACK); Opt (Chr DQ); Chr LBRACK;
                            Star false dot;
                            Chr RBRACK; Opt (Chr DQ); Opt (Chr RBRACK)]);
             Eol];
     reflags := flags_gm |}.

(** With Q for the double quote: [/^Q/], [/Q$/], [/\\Q/g], [/QQ/g],
    [/Q\[/g], [/\]Q/g] *)
Definition leadQuoteRe : RegExp := {| source := Seq Bol (Chr DQ); reflags := noflags |}.
Definition trailQuoteRe : RegExp := {| source := Seq (Chr DQ) Eol; reflags := noflags |}.
Definition escQuoteRe : RegExp := {| source := Lit [BSL; DQ]; reflags := flags_g |}.
Definition dblQuoteRe : RegExp := {| source := Lit [DQ; DQ]; reflags := flags_g |}.
Definition quoteOpenRe : RegExp := {| source := Lit [DQ; LBRACK]; reflags := flags_g |}.
Definition closeQuoteRe : RegExp := {| source := Lit [RBRACK; DQ]; reflags := flags_g |}.

(** A method call on a capture that did not take part in the match
    ([undefined]) throws a [TypeError]. *)
Definition defined (c : option jsstring) : completion jsstring :=
  match c with
  | Some s => Normal s
  | None => Throw TypeError
  end.

(** The [try] block of the replacer. *)
Definition jsonTry (J : JSON) (prefix jsonContent : option jsstring) : completion jsstring :=
  content <- defined jsonContent ;;
  let cleanJson := replace trailQuoteRe [] (replace leadQuoteRe [] content) in
  let cleanJson := replace escQuoteRe [DQ] cleanJson in
  let cleanJson := replace dblQuoteRe [DQ] cleanJson in
  parsed <- JSON_parse J cleanJson ;;
  let formatted := JSON_stringify2 J parsed in
  Normal (match prefix with
          | Some ((_ :: _) as p) => trim p ++ str ": " ++ formatted
          | _ => formatted
          end).

(** The [catch] block of the replacer. *)
Definition jsonFallback (mt : jsstring) : jsstring :=
  replace closeQuoteRe [RBRACK]
    (replace quoteOpenRe [LBRACK]
       (replace dblQuoteRe [DQ]
          (replace escQuoteRe [DQ] mt))).

Definition jsonReplacer (J : JSON) : replacer :=
  fun mt cs => try_catch (jsonTry J (get_cap 1 cs) (get_cap 2 cs)) (jsonFallback mt).

Definition cleanJsonArrays (J : JSON) (text : jsstring) : jsstring :=
  replace_with jsonArrayRe (jsonReplacer J) text.

(** *** Remove pipe symbols *)

(** [/^\s*\|\s*/] and [/\s*\|\s*$/] *)
Definition pipeLeadRe : RegExp :=
  {| source := Seqs [Bol; Star true ws; Chr PIPE; Star true ws]; reflags := noflags |}.
Definition pipeTrailRe : RegExp :=
  {| source := Seqs [Star true ws; Chr PIPE; Star true ws; Eol]; reflags := noflags |}.

Definition removePipes (text : jsstring) : jsstring :=
  join NL
    (map (fun line => replace pipeTrailRe [] (replace pipeLeadRe [] line))
       (split NL text)).

(** *** Fix indentation *)

(** [/\s+/g] *)
Definition wsRunRe : RegExp := {| source := Plus ws; reflags := flags_g |}.

Definition fixLine (line : jsstring) : jsstring := trim (replace wsRunRe [SP] line).

Definition fixIndentation (text : jsstring) : jsstring :=
  join NL (map fixLine (split NL text)).

(** *** Remove terminal artifacts *)

Definition isSgrParam (c : char) : bool := inRange 48 57 c || (c =? 59).

(** [/\x1b\[[0-9;]*m/g] *)
Definition ansiRe : RegExp :=
  {| source := Seqs [Chr ESC; Chr LBRACK; Star true (Cls isSgrParam); Chr 109];
     reflags := flags_g |}.

(** [/^[$>]\s*/gm] *)
Definition promptRe : RegExp :=
  {| source := Seqs [Bol; Cls (oneOf [36; 62]); Star true ws]; reflags := flags_gm |}.

(** [/^(bash|sh|cmd|powershell):\s*/gim] *)
Definition shellRe : RegExp :=
  {| source :=
       Seqs [Bol;
             Group 1 (Alt (Lit (str "bash"))
                     (Alt (Lit (str "sh"))
                     (Alt (Lit (str "cmd")) (Lit (str "powershell")))));
             Chr 58; Star true ws];
     reflags := flags_gim |}.

Definition removeArtifacts (text : jsstring) : jsstring :=
  let text := replace ansiRe [] text in
  let text := replace promptRe [] text in
  let text := replace shellRe [] text in
  text.

(** *** Clean extra blank lines *)

(** [/\n\s*\n\s*\n/g] *)
Definition blankRunRe : RegExp :=
  {| source := Seqs [Chr NL; Star true ws; Chr NL; Star true ws; Chr NL];
     reflags := flags_g |}.

Definition collapseBlankLines (text : jsstring) : jsstring :=
  replace blankRunRe [NL; NL] text.

(** *** The catalogue, in its order *)

Definition cleaningRules (J : JSON) : list CleaningRule :=
  [ {| name := "Remove box drawing";
       description := "Removes terminal box drawing characters";
       apply := removeBoxDrawing |};
    {| name := "Clean JSON arrays";
       description := "Formats JSON arrays with escaped quotes";
       apply := cleanJsonArrays J |};
    {| name := "Remove pipe symbols";
       description := "Removes | symbols from line starts and ends";
       apply := removePipes |};
    {| name := "Fix indentation";
       description := "Normalizes indentation and removes excessive spaces";
       apply := fixIndentation |};
    {| name := "Remove terminal artifacts";
       description := "Cleans common terminal formatting";
       apply := removeArtifacts |};
    {| name := "Clean extra blank lines";
       description := "Reduces multiple blank lines to single blank lines";
       apply := collapseBlankLines |};
    {| name := "Trim whitespace";
       description := "Removes leading/trailing whitespace";
       apply := trim |} ].

(** ** The pipeline: [useTextCleaner] *)

(** The loop [for (const rule of cleaningRules) cleaned = rule.apply(cleaned)]. *)
Definition applyRules (rules : list CleaningRule) (input : jsstring) : jsstring :=
  fold_left (fun cleaned rule => apply rule cleaned) rules input.

(** What a caller can pass for [input]: the tests also pass [null] and
    [undefined]. *)
Inductive jsarg : Type :=
| Undefined : jsarg
| Null : jsarg
| Str : jsstring -> jsarg.

(** [useTextCleaner]: [if (!input) return ''], then the loop. *)
Definition useTextCleaner (J : JSON) (input : jsarg) : jsstring :=
  match input with
  | Undefined | Null | Str [] => []
  | Str s => applyRules (cleaningRules J) s
  end.

Definition clean (J : JSON) (s : jsstring) : jsstring := useTextCleaner J (Str s).

(** ** The statistics: [useTextStats] *)

Record TextStats : Type := {
  lines : Z;
  characters : Z;
  cleaned : Z
}.

Definition useTextStats (original cleaned_ : jsstring) : TextStats :=
  {| lines := Z.of_nat (length (split NL original));
     characters := Z.of_nat (length original);
     cleaned := Z.of_nat (length original) - Z.of_nat (length cleaned_) |}.

(** ** The helpers of the rule tests *)

(** [getRule]: [cleaningRules.find(r => r.name === name)]. *)
Definition getRule (J : JSON) (n : string) : option CleaningRule :=
  find (fun r => String.eqb (name r) n) (cleaningRules J).

(** The catalogue as the order test rearranges it:
    [[cleaningRules[2], cleaningRules[0], ...cleaningRules.slice(3), cleaningRules[1]]],
    the pipe rule, the box rule, the rules from the fourth on, and the
    JSON rule last. *)
Definition reorderedRules (J : JSON) : list CleaningRule :=
  match cleaningRules J with
  | r0 :: r1 :: r2 :: others => [r2; r0] ++ others ++ [r1]
  | _ => []
  end.

(** ** The single-file prototype

    The catalogue and the hook of the first version of the application,
    kept beside the hook tests: the five rules that came before the box
    and JSON rules were added, with the same bodies. *)

Definition legacyRules : list CleaningRule :=
  [ {| name := "Remove pipe symbols";
       description := "Removes | symbols from line starts and ends";
       apply := removePipes |};
    {| name := "Fix indentation";
       description := "Normalizes indentation and removes excessive spaces";
       apply := fixIndentation |};
    {| name := "Remove terminal artifacts";
       description := "Cleans common terminal formatting";
       apply := removeArtifacts |};
    {| name := "Clean extra blank lines";
       description := "Reduces multiple blank lines to single blank lines";
       apply := collapseBlankLines |};
    {| name := "Trim whitespace";
       description := "Removes leading/trailing whitespace";
       apply := trim |} ].

Definition legacyTextCleaner (input : jsarg) : jsstring :=
  match input with
  | Undefined | Null | Str [] => []
  | Str s => applyRules legacyRules s
  end.

(** ** The application: [App]

    What the component derives from its state on every render: the
    cleaned text shown in the output panel and the statistics shown in the
    header. *)

Record AppState : Type := {
  inputText : jsstring;
  copied : bool
}.

Definition cleanedText (J : JSON) (st : AppState) : jsstring :=
  useTextCleaner J (Str (inputText st)).

Definition stats (J : JSON) (st : AppState) : TextStats :=
  useTextStats (inputText st) (cleanedText J st).

(** [handleClear]. *)
Definition handleClear (st : AppState) : AppState :=
  {| inputText := []; copied := copied st |}.

(** ** What a match is

    The declarative reading of a pattern: [Matches fl r st st'] says that
    [r] can read the text between the states [st] and [st'].  The matcher
    is sound and complete for it; which of the possible matches it returns
    is the business of backtracking. *)

Inductive Matches (fl : flags) : regex -> mstate -> mstate -> Prop :=
| MEps : forall st, Matches fl Eps st st
| MChr : forall c x rest st,
    suf st = x :: rest -> canonicalize fl x = canonicalize fl c ->
    Matches fl (Chr c) st (advance x rest st)
| MCls : forall f x rest st,
    suf st = x :: rest -> f x = true ->
    Matches fl (Cls f) st (advance x rest st)
| MBol : forall st, at_bol fl st = true -> Matches fl Bol st st
| MEol : forall st, at_eol fl st = true -> Matches fl Eol st st
| MSeq : forall a b st1 st2 st3,
    Matches fl a st1 st2 -> Matches fl b st2 st3 -> Matches fl (Seq a b) st1 st3
| MAltL : forall a b st st', Matches fl a st st' -> Matches fl (Alt a b) st st'
| MAltR : forall a b st st', Matches fl b st st' -> Matches fl (Alt a b) st st'
| MStar0 : forall g a st, Matches fl (Star g a) st st
| MStarS : forall g a st1 st2 st3,
    Matches fl a st1 st2 -> progressed st1 st2 = true ->
    Matches fl (Star g a) st2 st3 -> Matches fl (Star g a) st1 st3
| MGroup : forall i a st st',
    Matches fl a st st' -> Matches fl (Group i a) st (set_cap i st st').

(** [st'] is [st] after reading [w]. *)
Definition Reads (st : mstate) (w : jsstring) (st' : mstate) : Prop :=
  suf st = w ++ suf st' /\ pre st' = rev w ++ pre st.

(** Every character a pattern can read satisfies [X]. *)
Inductive AtomsIn (fl : flags) (X : char -> Prop) : regex -> Prop :=
| AI_Eps : AtomsIn fl X Eps
| AI_Chr : forall c,
    (forall x, canonicalize fl x = canonicalize fl c -> X x) -> AtomsIn fl X (Chr c)
| AI_Cls : forall f, (forall x, f x = true -> X x) -> AtomsIn fl X (Cls f)
| AI_Bol : AtomsIn fl X Bol
| AI_Eol : AtomsIn fl X Eol
| AI_Seq : forall a b, AtomsIn fl X a -> AtomsIn fl X b -> AtomsIn fl X (Seq a b)
| AI_Alt : forall a b, AtomsIn fl X a -> AtomsIn fl X b -> AtomsIn fl X (Alt a b)
| AI_Star : forall g a, AtomsIn fl X a -> AtomsIn fl X (Star g a)
| AI_Group : forall i a, AtomsIn fl X a -> AtomsIn fl X (Group i a).

(** Every text a pattern can read has a character that satisfies [P]. *)
Inductive Needs (fl : flags) (P : char -> Prop) : regex -> Prop :=
| Nd_Chr : forall c,
    (forall x, canonicalize fl x = canonicalize fl c -> P x) -> Needs fl P (Chr c)
| Nd_Cls : forall f, (forall x, f x = true -> P x) -> Needs fl P (Cls f)
| Nd_SeqL : forall a b, Needs fl P a -> Needs fl P (Seq a b)
| Nd_SeqR : forall a b, Needs fl P b -> Needs fl P (Seq a b)
| Nd_Alt : forall a b, Needs fl P a -> Needs fl P b -> Needs fl P (Alt a b)
| Nd_Group : forall i a, Needs fl P a -> Needs fl P (Group i a).

(** Patterns that begin with [^], and patterns that end with [$]. *)
Inductive StartsBol : regex -> Prop :=
| SB_Bol : StartsBol Bol
| SB_Seq : forall a b, StartsBol a -> StartsBol (Seq a b).

Inductive EndsEol : regex -> Prop :=
| EE_Eol : EndsEol Eol
| EE_Seq : forall a b, EndsEol b -> EndsEol (Seq a b).

(** * Notions used in the statements and in the proofs *)

(** ** Substrings *)

(** [u] occurs in [s] as a contiguous substring. *)
Definition infix (u s : jsstring) : Prop := exists a b, s = a ++ u ++ b.

(** [u] is what [s] begins with. *)
Definition prefixOf (u s : jsstring) : Prop := exists b, s = u ++ b.

(** How often [c] occurs in [s]. *)
Fixpoint count (c : char) (s : jsstring) : nat :=
  match s with
  | [] => O
  | x :: rest => if x =? c then S (count c rest) else count c rest
  end.

(** ** Classes of characters *)

(** The prompt markers [$] and [>]. *)
Definition isPromptChar : char -> bool := oneOf [36; 62].

(** The characters that no rule strips from the edge of a line: neither
    white space, nor one of the eighteen box characters, nor a pipe, nor a
    prompt marker. *)
Definition plainChar (c : char) : bool :=
  negb (isWhiteSpace c || isBoxChar c || (c =? PIPE) || isPromptChar c).

(** The other characters, and the white ones. *)
Definition Target (c : char) : Prop := plainChar c = false.

Definition White (c : char) : Prop := isWhiteSpace c = true.

(** No escape character, no opening bracket, no colon: nothing the ANSI,
    JSON-array and shell-label patterns could hold on to. *)
Definition unmarked (c : char) : Prop := c <> ESC /\ c <> LBRACK /\ c <> 58.

(** A quiet character: none of the characters that the box, pipe,
    artifact and JSON-array patterns need in order to match. *)
Definition quiet (c : char) : Prop :=
  isBoxChar c = false /\ c <> PIPE /\ c <> ESC /\ isPromptChar c = false
  /\ c <> 58 /\ c <> LBRACK.

(** [quiet] as a test. *)
Definition quietb (c : char) : bool :=
  negb (isBoxChar c) && negb (c =? PIPE) && negb (c =? ESC) && negb (isPromptChar c)
  && negb (c =? 58) && negb (c =? LBRACK).

(** A solid substring: no white space inside, and a plain character at
    each end. *)
Definition solid (u : jsstring) : bool :=
  forallb (fun x => negb (isWhiteSpace x)) u
  && match u with c :: _ => plainChar c | [] => false end
  && match rev u with d :: _ => plainChar d | [] => false end.

(** A white character that does not end a line: a space or a tab, say. *)
Definition isBlank (c : char) : bool := isWhiteSpace c && negb (isLineTerminator c).

(** The box-drawing block of Unicode, U+2500 to U+257F. *)
Definition inBoxBlock (c : char) : bool := inRange 9472 9599 c.

(** ** Reading the matcher *)

(** From [oneOf cs x = true] to the cases [x = c]. *)
Ltac oneOf_cases H :=
  simpl in H;
  repeat (apply orb_true_iff in H; destruct H as [H | H]);
  try discriminate H;
  apply N.eqb_eq in H; subst.

(** Patterns without a capturing group. *)
Inductive GroupFree : regex -> Prop :=
| GF_Eps : GroupFree Eps
| GF_Chr : forall c, GroupFree (Chr c)
| GF_Cls : forall f, GroupFree (Cls f)
| GF_Bol : GroupFree Bol
| GF_Eol : GroupFree Eol
| GF_Seq : forall a b, GroupFree a -> GroupFree b -> GroupFree (Seq a b)
| GF_Alt : forall a b, GroupFree a -> GroupFree b -> GroupFree (Alt a b)
| GF_Star : forall g a, GroupFree a -> GroupFree (Star g a).

(** [rest] does not go on with a character of the class [f]. *)
Definition stops (f : char -> bool) (rest : list char) : Prop :=
  match rest with
  | [] => True
  | x :: _ => f x = false
  end.

(** The longest prefix of characters that satisfy [f]. *)
Fixpoint takeWhile (f : char -> bool) (s : jsstring) : jsstring :=
  match s with
  | [] => []
  | c :: rest => if f c then c :: takeWhile f rest else []
  end.

(** What a greedy star over a class does on a run [w] of the class: it
    offers the continuation [k] the whole run first, then shorter and
    shorter prefixes of it.  [p] is the text before the run, [rest] the
    text after it. *)
Fixpoint greedy_run (k : cont) (p : list char) (cs : list (nat * jsstring))
         (w rest : list char) : option mstate :=
  match w with
  | [] => k {| pre := p; suf := rest; caps := cs |}
  | x :: w' =>
      orElse (greedy_run k (x :: p) cs w' rest)
             (k {| pre := p; suf := x :: w' ++ rest; caps := cs |})
  end.

(** The part of the blank-line pattern after its first [\s*]. *)
Definition blankMiddle : regex := Seq (Chr NL) (Seq (Star true ws) (Chr NL)).

(** ** What the white-space rules compute *)

(** What [replace(/\s+/g, ' ')] computes: every run of white space becomes
    one space.  [inRun] says that the previous character was white. *)
Fixpoint squash (inRun : bool) (s : jsstring) : jsstring :=
  match s with
  | [] => []
  | x :: rest =>
      if isWhiteSpace x then (if inRun then squash true rest else SP :: squash true rest)
      else x :: squash false rest
  end.

(** A neat line: every white character is a space, it follows and
    precedes a character that is not white, and the line neither begins nor
    ends with one.  [prevWs] says that the previous character was white,
    or that the line begins here. *)
Fixpoint neatFrom (prevWs : bool) (l : jsstring) : bool :=
  match l with
  | [] => negb prevWs
  | x :: t =>
      if isWhiteSpace x then (x =? SP) && negb prevWs && neatFrom true t
      else neatFrom false t
  end.

Definition neat (l : jsstring) : bool :=
  match l with
  | [] => true
  | _ :: _ => neatFrom true l
  end.

(** The same without the condition on the end of the line. *)
Fixpoint okFrom (prevWs : bool) (l : jsstring) : bool :=
  match l with
  | [] => true
  | x :: t =>
      if isWhiteSpace x then (x =? SP) && negb prevWs && okFrom true t
      else okFrom false t
  end.

(** The text goes on with a character that is not white. *)
Definition nextPlain (t : jsstring) : bool :=
  match t with
  | [] => false
  | y :: _ => negb (isWhiteSpace y)
  end.

(** A tidy text: every white character is a newline or a space, and a
    space stands between two characters that are not white. *)
Fixpoint tidy (prevWs : bool) (s : jsstring) : bool :=
  match s with
  | [] => true
  | x :: t =>
      if x =? NL then tidy true t
      else if isWhiteSpace x then (x =? SP) && negb prevWs && nextPlain t && tidy true t
      else tidy false t
  end.

(** Runs of three newlines or more shortened to two; [k] counts the
    newlines just written. *)
Fixpoint squeeze (k : nat) (s : jsstring) : jsstring :=
  match s with
  | [] => []
  | x :: t =>
      if x =? NL then (if (k <? 2)%nat then NL :: squeeze (S k) t else squeeze k t)
      else x :: squeeze O t
  end.

(** No run of more than two newlines; [k] counts the newlines just read. *)
Fixpoint short (k : nat) (s : jsstring) : bool :=
  match s with
  | [] => true
  | x :: t => if x =? NL then (k <? 2)%nat && short (S k) t else short O t
  end.

(** ** The rules on one line *)

(** What the box rule does to a line it keeps, and which lines it keeps. *)
Definition stripFrame (line : jsstring) : jsstring :=
  replace boxTrailRe [] (replace boxLeadRe [] line).

Definition keepLine (line : jsstring) : bool := negb (test boxOnlyRe line).

(** What the pipe rule does to one line. *)
Definition stripPipes (line : jsstring) : jsstring :=
  replace pipeTrailRe [] (replace pipeLeadRe [] line).

(** White space around at most one pipe. *)
Definition pipeMargin (w : jsstring) : Prop :=
  w = [] \/ exists wa wb, w = wa ++ PIPE :: wb /\ Forall White wa /\ Forall White wb.

(** ** The JSON-array pattern, piece by piece *)

(** The one label of the pattern. *)
Definition tsuf : jsstring := str "template_suffixes".

(** The two groups of the pattern. *)
Definition jsonPrefix : regex :=
  Seq (Star true ws) (Seq (Lit tsuf) (Star true ws)).

Definition jsonBody : regex :=
  Seqs [Opt (Chr LBRACK); Opt (Chr DQ); Chr LBRACK; Star false dot;
        Chr RBRACK; Opt (Chr DQ); Opt (Chr RBRACK)].

(** A quoted array: a double quote, a bracket, [body], a bracket, a double
    quote. *)
Definition quoted (body : jsstring) : jsstring :=
  DQ :: LBRACK :: body ++ [RBRACK; DQ].

(** With [labelled] the line is [template_suffixes], the blanks [sp], and
    the quoted array; without it, the quoted array alone. *)
Definition labelOf (sp : jsstring) (labelled : bool) : jsstring :=
  if labelled then tsuf ++ sp else [].

Definition lineOf (sp body : jsstring) (labelled : bool) : jsstring :=
  labelOf sp labelled ++ quoted body.

(** An escaped quote and a doubled quote written back as one quote. *)
Definition unescape (s : jsstring) : jsstring :=
  replace dblQuoteRe [DQ] (replace escQuoteRe [DQ] s).

(** ** Inputs of the examples *)

(** C1: a box top, a framed line holding a green prompt and the word, a
    box bottom. *)
Definition c1_input : jsstring :=
  [9484; 9472; 9472; 9472; 9472; 9488; NL;
   9474; SP; ESC] ++ str "[32m$ test" ++ [ESC] ++ str "[0m " ++ [9474; NL;
   9492; 9472; 9472; 9472; 9472; 9496].

(** C2: two frame characters before a word; each run of the pipeline
    strips one of them. *)
Definition c2_input : jsstring := [9474; 9474; SP; 65].

(** C2: a quiet text with runs of white space and of blank lines. *)
Definition c2_quiet_input : jsstring :=
  str "  hello   world " ++ [9; NL; NL; CR; NL; NL] ++ str " bye" ++ [NL].

(** C3: the label [Options] before the quoted array [1]. *)
Definition c3_other_line : jsstring := str "Options " ++ quoted (str "1").

(** C3: two strings with escaped quotes. *)
Definition c3_body : jsstring :=
  [BSL; DQ] ++ str ".html" ++ [BSL; DQ] ++ str ", " ++ [BSL; DQ] ++ str ".js" ++ [BSL; DQ].

(** C4: a line of double-line box characters, U+2550. *)
Definition c4_double_line : jsstring := [9552; 9552; 9552].

(** C5: a frame around a shell pipeline with an amount, an accented
    letter written with a combining mark (U+0301) and an astral code point
    (U+1F44B as the surrogate pair D83D DC4B). *)
Definition c5_input : jsstring :=
  [9474] ++ str "  a|b$5  e" ++ [769; 55357; 56395] ++ str "  " ++ [9474].

Definition c5_sub : jsstring := str "a|b$5".

(** C6: escaped quotes, doubled quotes and a bare word, which does not
    parse. *)
Definition c6_body : jsstring :=
  [BSL; DQ] ++ str "a" ++ [BSL; DQ] ++ str ", " ++ [DQ; DQ] ++ str "b" ++ [DQ; DQ] ++ str ", c".

(** * Notions used in the further properties *)

(** ** Order and content *)

(** [u] is [s] with some characters left out. *)
Inductive subseq : jsstring -> jsstring -> Prop :=
| sub_nil : subseq [] []
| sub_skip : forall x u s, subseq u s -> subseq u (x :: s)
| sub_keep : forall x u s, subseq u s -> subseq (x :: u) (x :: s).

(** The characters of a text that are not white, in their order. *)
Definition ink (s : jsstring) : jsstring := filter (fun c => negb (isWhiteSpace c)) s.

(** ** White space of the plain kind *)

(** A character that, when it is white, is a space or a newline. *)
Definition plainWhite (c : char) : Prop := isWhiteSpace c = true -> c = SP \/ c = NL.

(** ** Runs of blank lines *)

(** A run of white space cut after its last newline: the part up to that
    newline and the part after it. *)
Fixpoint cutLastNL (w : jsstring) : option (jsstring * jsstring) :=
  match w with
  | [] => None
  | x :: t =>
      match cutLastNL t with
      | Some (a, b) => Some (x :: a, b)
      | None => if x =? NL then Some ([x], t) else None
      end
  end.

(** What the blank-line pattern reads after its first newline, out of the
    run [w] of white space that follows it: with two newlines or more in
    [w], everything up to the last of them. *)
Definition blankEnd (w : jsstring) : option (jsstring * jsstring) :=
  if (2 <=? count NL w)%nat then cutLastNL w else None.

(** The scan of the blank-line rule, without the pattern. *)
Fixpoint collapseFrom (fuel : nat) (s : jsstring) : jsstring :=
  match fuel with
  | O => s
  | S fuel' =>
      match s with
      | [] => []
      | x :: rest =>
          if x =? NL then
            match blankEnd (takeWhile isWhiteSpace rest) with
            | Some (_, b) =>
                NL :: NL :: collapseFrom fuel' (b ++ dropWhile isWhiteSpace rest)
            | None => x :: collapseFrom fuel' rest
            end
          else x :: collapseFrom fuel' rest
      end
  end.

(** A calm text: no run of white space holds more than two newlines.  [k]
    counts the newlines of the run that is being read. *)
Fixpoint calm (k : nat) (s : jsstring) : bool :=
  match s with
  | [] => true
  | x :: t =>
      if x =? NL then (k <? 2)%nat && calm (S k) t
      else if isWhiteSpace x then calm k t
      else calm O t
  end.

(** ** The box rule on one line, without patterns *)

(** A line that is not empty and holds box characters only. *)
Definition allBox (line : jsstring) : bool :=
  match line with
  | [] => false
  | _ :: _ => forallb isBoxChar line
  end.

(** Without its leading frame character and the white space after it. *)
Definition cutLead (line : jsstring) : jsstring :=
  match line with
  | c :: t => if oneOf leadChars c then dropWhile isWhiteSpace t else line
  | [] => []
  end.

(** Without its trailing frame character and the white space before it. *)
Definition cutTrail (line : jsstring) : jsstring :=
  if oneOf trailChars (last line 0)
  then dropEnd isWhiteSpace (removelast line)
  else line.

(** The text up to the first position where [ends] holds of the rest. *)
Fixpoint cutAt (ends : jsstring -> bool) (l : jsstring) : jsstring :=
  match l with
  | [] => []
  | c :: t => if ends l then [] else c :: cutAt ends t
  end.

(** White space and then one trailing frame character, up to the end. *)
Definition frameEnd (a : jsstring) : bool :=
  match dropWhile isWhiteSpace a with
  | [x] => oneOf trailChars x
  | _ => false
  end.

(** ** The pipe rule on one line, without patterns *)

(** Without the pipe that only white space precedes, and the white space
    around it. *)
Definition cutLeadPipe (line : jsstring) : jsstring :=
  match dropWhile isWhiteSpace line with
  | x :: t => if x =? PIPE then dropWhile isWhiteSpace t else line
  | [] => line
  end.

(** Without the pipe that only white space follows, and the white space
    around it. *)
Definition cutTrailPipe (line : jsstring) : jsstring :=
  if last (dropEnd isWhiteSpace line) 0 =? PIPE
  then dropEnd isWhiteSpace (removelast (dropEnd isWhiteSpace line))
  else line.

(** White space, a pipe, and white space up to the end. *)
Definition pipeEnd (a : jsstring) : bool :=
  match dropWhile isWhiteSpace a with
  | x :: r => (x =? PIPE) && forallb isWhiteSpace r
  | [] => false
  end.

(** ** SGR sequences *)

(** An SGR sequence: the escape character, an opening bracket, the
    parameters, and [m]. *)
Definition sgr (params : jsstring) : jsstring := ESC :: LBRACK :: params ++ [109].

(** What follows the SGR sequence that a text begins with, if it begins
    with one. *)
Definition sgrEnd (s : jsstring) : option jsstring :=
  match s with
  | x :: y :: r =>
      if (x =? ESC) && (y =? LBRACK)
      then match dropWhile isSgrParam r with
           | z :: r' => if z =? 109 then Some r' else None
           | [] => None
           end
      else None
  | _ => None
  end.

(** The scan of the first replacement of the artifact rule, without the
    pattern. *)
Fixpoint stripSgr (fuel : nat) (s : jsstring) : jsstring :=
  match fuel with
  | O => s
  | S fuel' =>
      match sgrEnd s with
      | Some r' => stripSgr fuel' r'
      | None =>
          match s with
          | [] => []
          | c :: t => c :: stripSgr fuel' t
          end
      end
  end.

(** ** Framed texts *)

(** A line of content: not empty, neat, and quiet. *)
Definition contentLine (l : jsstring) : Prop :=
  l <> [] /\ neat l = true /\ Forall quiet l.

(** The lines [ls] in a box: a top border, each line between two vertical
    bars with a space on either side, a bottom border. *)
Definition boxed (top bottom : jsstring) (ls : list jsstring) : jsstring :=
  join NL ([top] ++ map (fun l => [9474; SP] ++ l ++ [SP; 9474]) ls ++ [bottom]).

(** The lines [ls] between pipes, as the rows of a table are. *)
Definition piped (ls : list jsstring) : jsstring :=
  join NL (map (fun l => [PIPE; SP] ++ l ++ [SP; PIPE]) ls).

(** ** Lines behind a prompt, and coloured lines *)

(** The lines [ls], each behind a dollar prompt and a space. *)
Definition prompted (ls : list jsstring) : jsstring :=
  join NL (map (fun l => [36; SP] ++ l) ls).

(** The start of the text, or the position after a line terminator. *)
Definition atLineStart (before : list char) : bool :=
  match before with
  | [] => true
  | c :: _ => isLineTerminator c
  end.

(** ** Shell labels *)

(** The four labels of the shell pattern. *)
Definition shellNames : list jsstring :=
  [str "bash"; str "sh"; str "cmd"; str "powershell"].

(** [w] is [name] up to the case of its letters: the two are equal
    character by character under the [i] flag. *)
Definition sameCase (w name : jsstring) : Prop :=
  map (canonicalize flags_gim) w = map (canonicalize flags_gim) name.

(** ** Inputs of the further examples *)

Definition x_bracket_free : jsstring := [9474] ++ str " $ ls  -l | wc " ++ [9474; NL; NL; NL; NL] ++ str "done".

Definition x_plain : jsstring := str "  | total   42 |" ++ [NL; NL; NL; NL] ++ str "$ done ".

Definition x_white : jsstring := [SP; 9; NL; CR; 160; NL; SP].

(** * Properties of the matcher *)

Lemma orElse_Some : forall a b r, orElse a b = Some r -> a = Some r \/ (a = None /\ b = Some r).
Proof. intros [x|] b r H; simpl in H; auto. Qed.

Lemma star_loop_sound :
  forall fl a (body : cont -> mstate -> option mstate) g k,
    (forall k0 st res, body k0 st = Some res ->
       exists st', Matches fl a st st' /\ k0 st' = Some res) ->
    forall n st res, star_loop body g k n st = Some res ->
      exists st', Matches fl (Star g a) st st' /\ k st' = Some res.
Proof.
  intros fl a body g k Hbody n.
  induction n as [|n IH]; intros st res H; simpl in H.
  - exists st; split; [constructor | exact H].
  - assert (Hagain :
      body (fun st' => if progressed st st' then star_loop body g k n st' else None) st = Some res ->
      exists st', Matches fl (Star g a) st st' /\ k st' = Some res).
    { intros Hb. apply Hbody in Hb. destruct Hb as [st1 [Hm Hk]].
      destruct (progressed st st1) eqn:Hp; [|discriminate].
      apply IH in Hk. destruct Hk as [st2 [Hm2 Hk2]].
      exists st2; split; [eapply MStarS; eauto | exact Hk2]. }
    assert (Hstop : k st = Some res ->
      exists st', Matches fl (Star g a) st st' /\ k st' = Some res).
    { intros Hk. exists st; split; [constructor | exact Hk]. }
    destruct g; apply orElse_Some in H; destruct H as [H | [_ H]]; auto.
Qed.

(** Soundness: a result of the matcher comes from a match of the pattern
    followed by a success of the continuation. *)
Lemma rmatch_sound :
  forall fl r k st res, rmatch fl r k st = Some res ->
    exists st', Matches fl r st st' /\ k st' = Some res.
Proof.
  intros fl r.
  induction r as [| c | f | | | a IHa b IHb | a IHa b IHb | g a IHa | i a IHa];
    intros k st res H.
  - exists st; split; [constructor | exact H].
  - simpl in H. destruct (suf st) as [|x rest] eqn:Hs; [discriminate|].
    destruct (canonicalize fl x =? canonicalize fl c) eqn:Hc; [|discriminate].
    apply N.eqb_eq in Hc.
    exists (advance x rest st); split; [constructor; assumption | exact H].
  - simpl in H. destruct (suf st) as [|x rest] eqn:Hs; [discriminate|].
    destruct (f x) eqn:Hc; [|discriminate].
    exists (advance x rest st); split; [constructor; assumption | exact H].
  - simpl in H. destruct (at_bol fl st) eqn:Hb; [|discriminate].
    exists st; split; [constructor; assumption | exact H].
  - simpl in H. destruct (at_eol fl st) eqn:Hb; [|discriminate].
    exists st; split; [constructor; assumption | exact H].
  - simpl in H. apply IHa in H. destruct H as [st1 [H1 H]].
    apply IHb in H. destruct H as [st2 [H2 H]].
    exists st2; split; [econstructor; eauto | exact H].
  - simpl in H. apply orElse_Some in H. destruct H as [H | [_ H]].
    + apply IHa in H. destruct H as [st1 [H1 H]].
      exists st1; split; [apply MAltL; assumption | exact H].
    + apply IHb in H. destruct H as [st1 [H1 H]].
      exists st1; split; [apply MAltR; assumption | exact H].
  - change (rmatch fl (Star g a) k st)
      with (star_loop (rmatch fl a) g k (S (length (suf st))) st) in H.
    eapply star_loop_sound; [|exact H]. intros k0 st0 res0 H0. apply IHa; exact H0.
  - simpl in H. apply IHa in H. destruct H as [st1 [H1 H]].
    exists (set_cap i st st1); split; [constructor; assumption | exact H].
Qed.

Lemma star_loop_ext :
  forall (body : cont -> mstate -> option mstate) g,
    (forall k1 k2 st, (forall x, k1 x = k2 x) -> body k1 st = body k2 st) ->
    forall n k1 k2 st, (forall x, k1 x = k2 x) ->
      star_loop body g k1 n st = star_loop body g k2 n st.
Proof.
  intros body g Hbody n.
  induction n as [|n IH]; intros k1 k2 st Hk; simpl.
  - apply Hk.
  - rewrite (Hk st).
    rewrite (Hbody
      (fun st' => if progressed st st' then star_loop body g k1 n st' else None)
      (fun st' => if progressed st st' then star_loop body g k2 n st' else None)).
    + reflexivity.
    + intros x. destruct (progressed st x); [apply IH; exact Hk | reflexivity].
Qed.

(** The matcher only looks at what its continuation returns. *)
Lemma rmatch_ext :
  forall fl r k1 k2 st, (forall x, k1 x = k2 x) -> rmatch fl r k1 st = rmatch fl r k2 st.
Proof.
  intros fl r.
  induction r as [| c | f | | | a IHa b IHb | a IHa b IHb | g a IHa | i a IHa];
    intros k1 k2 st Hk.
  - apply Hk.
  - simpl. destruct (suf st); [reflexivity|].
    destruct (_ =? _); [apply Hk | reflexivity].
  - simpl. destruct (suf st); [reflexivity|].
    destruct (f c); [apply Hk | reflexivity].
  - simpl. rewrite Hk. reflexivity.
  - simpl. rewrite Hk. reflexivity.
  - simpl. apply IHa. intros x. apply IHb. exact Hk.
  - simpl. rewrite (IHa k1 k2 st Hk), (IHb k1 k2 st Hk). reflexivity.
  - change (star_loop (rmatch fl a) g k1 (S (length (suf st))) st
            = star_loop (rmatch fl a) g k2 (S (length (suf st))) st).
    apply star_loop_ext; [|exact Hk]. intros; apply IHa; assumption.
  - simpl. apply IHa. intros x. apply Hk.
Qed.

(** The counter of a star does not matter once it exceeds the number of
    characters that remain: it never runs out. *)
Lemma star_loop_fuel :
  forall (body : cont -> mstate -> option mstate) g k,
    (forall k1 k2 st, (forall x, k1 x = k2 x) -> body k1 st = body k2 st) ->
    forall n m st, (length (suf st) < n)%nat -> (length (suf st) < m)%nat ->
      star_loop body g k n st = star_loop body g k m st.
Proof.
  intros body g k Hbody n.
  induction n as [|n IH]; intros m st Hn Hm; [lia|].
  destruct m as [|m]; [lia|]. simpl.
  rewrite (Hbody
    (fun st' => if progressed st st' then star_loop body g k n st' else None)
    (fun st' => if progressed st st' then star_loop body g k m st' else None)).
  - reflexivity.
  - intros x. destruct (progressed st x) eqn:Hp; [|reflexivity].
    unfold progressed in Hp. apply Nat.ltb_lt in Hp. apply IH; lia.
Qed.

Lemma rmatch_star_unfold :
  forall fl g a k st,
    rmatch fl (Star g a) k st =
    let again :=
      rmatch fl a (fun st' => if progressed st st' then rmatch fl (Star g a) k st' else None) st in
    if g then orElse again (k st) else orElse (k st) again.
Proof.
  intros fl g a k st.
  change (rmatch fl (Star g a) k st)
    with (star_loop (rmatch fl a) g k (S (length (suf st))) st).
  cbn [star_loop]. cbv zeta.
  rewrite (rmatch_ext fl a
    (fun st' => if progressed st st' then star_loop (rmatch fl a) g k (length (suf st)) st' else None)
    (fun st' => if progressed st st' then rmatch fl (Star g a) k st' else None)).
  - reflexivity.
  - intros x. destruct (progressed st x) eqn:Hp; [|reflexivity].
    change (rmatch fl (Star g a) k x)
      with (star_loop (rmatch fl a) g k (S (length (suf x))) x).
    unfold progressed in Hp. apply Nat.ltb_lt in Hp.
    apply star_loop_fuel; [intros; apply rmatch_ext; assumption | lia | lia].
Qed.

Lemma orElse_not_None_l : forall a b, a <> None -> orElse a b <> None.
Proof. intros [x|] b H; simpl; [discriminate | congruence]. Qed.

Lemma orElse_not_None_r : forall a b, b <> None -> orElse a b <> None.
Proof. intros [x|] b H; simpl; [discriminate | exact H]. Qed.

(** Completeness: when the pattern has a match after which the
    continuation succeeds, the matcher succeeds. *)
Lemma rmatch_complete :
  forall fl r st st', Matches fl r st st' ->
    forall k, k st' <> None -> rmatch fl r k st <> None.
Proof.
  intros fl r st st' H.
  induction H as [st | c x rest st Hs Hc | f x rest st Hs Hc | st Hb | st Hb
                  | a b st1 st2 st3 H1 IH1 H2 IH2 | a b st st' H1 IH1 | a b st st' H1 IH1
                  | g a st | g a st1 st2 st3 H1 IH1 Hp H2 IH2 | i a st st' H1 IH1];
    intros k Hk.
  - exact Hk.
  - simpl. rewrite Hs, Hc, N.eqb_refl. exact Hk.
  - simpl. rewrite Hs, Hc. exact Hk.
  - simpl. rewrite Hb. exact Hk.
  - simpl. rewrite Hb. exact Hk.
  - simpl. apply IH1. apply IH2. exact Hk.
  - simpl. apply orElse_not_None_l. apply IH1. exact Hk.
  - simpl. apply orElse_not_None_r. apply IH1. exact Hk.
  - rewrite rmatch_star_unfold. cbv zeta.
    destruct g; [apply orElse_not_None_r | apply orElse_not_None_l]; exact Hk.
  - rewrite rmatch_star_unfold. cbv zeta.
    assert (Hagain :
      rmatch fl a (fun st' => if progressed st1 st' then rmatch fl (Star g a) k st' else None) st1
      <> None).
    { apply IH1. rewrite Hp. apply IH2. exact Hk. }
    destruct g; [apply orElse_not_None_l | apply orElse_not_None_r]; exact Hagain.
  - simpl. apply IH1. exact Hk.
Qed.

Lemma Reads_nil : forall st, Reads st [] st.
Proof. intros st; split; reflexivity. Qed.

Lemma Reads_app :
  forall st1 st2 st3 w1 w2, Reads st1 w1 st2 -> Reads st2 w2 st3 -> Reads st1 (w1 ++ w2) st3.
Proof.
  intros st1 st2 st3 w1 w2 [Ha Hb] [Hc Hd]. split.
  - rewrite Ha, Hc, app_assoc. reflexivity.
  - rewrite Hd, Hb, rev_app_distr, app_assoc. reflexivity.
Qed.

Lemma Reads_segment : forall st w st', Reads st w st' -> segment st st' = w.
Proof.
  intros st w st' [_ Hp]. unfold segment. rewrite Hp.
  rewrite length_app, length_rev.
  replace (length w + length (pre st) - length (pre st))%nat with (length w + 0)%nat by lia.
  rewrite <- (length_rev w) at 1. rewrite firstn_app_2. simpl. rewrite app_nil_r.
  apply rev_involutive.
Qed.

Lemma Reads_progressed :
  forall st w st', Reads st w st' -> progressed st st' = true -> w <> [].
Proof.
  intros st w st' [Hs _] Hp Hw. subst w. simpl in Hs.
  unfold progressed in Hp. rewrite Hs in Hp. apply Nat.ltb_lt in Hp. lia.
Qed.

(** The text a match reads, and what [AtomsIn] and [Needs] say about it. *)
Lemma Matches_word :
  forall fl r st st', Matches fl r st st' ->
    exists w, Reads st w st'
      /\ (forall X, AtomsIn fl X r -> Forall X w)
      /\ (forall P, Needs fl P r -> Exists P w).
Proof.
  intros fl r st st' H.
  induction H as [st | c x rest st Hs Hc | f x rest st Hs Hc | st Hb | st Hb
                  | a b st1 st2 st3 H1 IH1 H2 IH2 | a b st st' H1 IH1 | a b st st' H1 IH1
                  | g a st | g a st1 st2 st3 H1 IH1 Hp H2 IH2 | i a st st' H1 IH1].
  - exists []. split; [apply Reads_nil|]. split; intros ? HX; [constructor | inversion HX].
  - exists [x]. split; [split; simpl; [exact Hs | reflexivity]|].
    split; intros ? HX; inversion HX; subst; repeat constructor; auto.
  - exists [x]. split; [split; simpl; [exact Hs | reflexivity]|].
    split; intros ? HX; inversion HX; subst; repeat constructor; auto.
  - exists []. split; [apply Reads_nil|]. split; intros ? HX; [constructor | inversion HX].
  - exists []. split; [apply Reads_nil|]. split; intros ? HX; [constructor | inversion HX].
  - destruct IH1 as [w1 [R1 [A1 N1]]]. destruct IH2 as [w2 [R2 [A2 N2]]].
    exists (w1 ++ w2). split; [eapply Reads_app; eauto|].
    split; intros ? HX; inversion HX; subst.
    + apply Forall_app; split; auto.
    + apply Exists_app; left; auto.
    + apply Exists_app; right; auto.
  - destruct IH1 as [w1 [R1 [A1 N1]]]. exists w1. split; [exact R1|].
    split; intros ? HX; inversion HX; subst; auto.
  - destruct IH1 as [w1 [R1 [A1 N1]]]. exists w1. split; [exact R1|].
    split; intros ? HX; inversion HX; subst; auto.
  - exists []. split; [apply Reads_nil|]. split; intros ? HX; [constructor | inversion HX].
  - destruct IH1 as [w1 [R1 [A1 N1]]]. destruct IH2 as [w2 [R2 [A2 N2]]].
    exists (w1 ++ w2). split; [eapply Reads_app; eauto|].
    split; intros ? HX; [|inversion HX].
    apply Forall_app; split; [inversion HX; subst; auto | auto].
  - destruct IH1 as [w1 [R1 [A1 N1]]]. exists w1. split; [exact R1|].
    split; intros ? HX; inversion HX; subst; auto.
Qed.

(** ** What [replace] does to a text *)

Lemma match_here_word :
  forall re before after st', match_here re before after = Some st' ->
    exists w, after = w ++ suf st' /\ pre st' = rev w ++ before
      /\ segment (start_state before after) st' = w
      /\ Matches (reflags re) (source re) (start_state before after) st'
      /\ (forall X, AtomsIn (reflags re) X (source re) -> Forall X w)
      /\ (forall P, Needs (reflags re) P (source re) -> Exists P w).
Proof.
  intros re before after st' H. unfold match_here in H.
  apply rmatch_sound in H. destruct H as [st1 [Hm Hk]]. inversion Hk; subst st1.
  destruct (Matches_word _ _ _ _ Hm) as [w [HR [HA HN]]].
  exists w. pose proof (Reads_segment _ _ _ HR) as Hseg. destruct HR as [Hs Hp]. simpl in Hs, Hp.
  repeat split; auto.
Qed.

(** A pattern that needs a character the text does not have finds nothing. *)
Lemma match_here_needs :
  forall re P before after,
    Needs (reflags re) P (source re) -> ~ Exists P after ->
    match_here re before after = None.
Proof.
  intros re P before after HN Hno.
  destruct (match_here re before after) as [st'|] eqn:H; [|reflexivity].
  destruct (match_here_word _ _ _ _ H) as [w [Ha [_ [_ [_ [_ HE]]]]]].
  exfalso. apply Hno. rewrite Ha. apply Exists_app. left. apply HE. exact HN.
Qed.

Lemma not_Exists_tail : forall (P : char -> Prop) c s, ~ Exists P (c :: s) -> ~ Exists P s.
Proof. intros P c s H H'. apply H. right. exact H'. Qed.

Lemma replace_from_needs :
  forall re P f, Needs (reflags re) P (source re) ->
    forall fuel before after, ~ Exists P after ->
      replace_from re f fuel before after = after.
Proof.
  intros re P f HN fuel.
  induction fuel as [|fuel IH]; intros before after Hno; simpl; [reflexivity|].
  rewrite (match_here_needs re P before _ HN Hno).
  destruct after as [|c rest]; [reflexivity|].
  rewrite IH; [reflexivity | eapply not_Exists_tail; eauto].
Qed.

Lemma replace_needs :
  forall re P by_ s, Needs (reflags re) P (source re) -> ~ Exists P s ->
    replace re by_ s = s.
Proof. intros. unfold replace, replace_with. eapply replace_from_needs; eauto. Qed.

Lemma search_needs :
  forall re P, Needs (reflags re) P (source re) ->
    forall after before, ~ Exists P after -> search re before after = false.
Proof.
  intros re P HN after.
  induction after as [|c rest IH]; intros before Hno; simpl;
    rewrite (match_here_needs re P before _ HN Hno); [reflexivity|].
  apply IH. eapply not_Exists_tail; eauto.
Qed.

(** Characters of the result come from the text or from the replacement. *)
Lemma replace_from_Forall :
  forall re f (Q : char -> Prop), (forall mt cs, Forall Q (f mt cs)) ->
    forall fuel before after, Forall Q after ->
      Forall Q (replace_from re f fuel before after).
Proof.
  intros re f Q Hf fuel.
  induction fuel as [|fuel IH]; intros before after HQ; simpl; [exact HQ|].
  assert (Hcopy : Forall Q match after with
                           | [] => []
                           | c :: rest => c :: replace_from re f fuel (c :: before) rest
                           end).
  { destruct after as [|c rest]; [constructor|].
    inversion HQ; subst. constructor; [assumption | apply IH; assumption]. }
  destruct (match_here re before after) as [st'|] eqn:H; [|exact Hcopy].
  destruct (match_here_word _ _ _ _ H) as [w [Ha _]].
  assert (Hsuf : Forall Q (suf st')).
  { rewrite Ha in HQ. apply Forall_app in HQ. tauto. }
  destruct (negb (fl_global (reflags re))).
  - apply Forall_app; split; [apply Hf | exact Hsuf].
  - destruct (progressed _ st'); apply Forall_app; split; auto.
Qed.

Lemma replace_Forall :
  forall re by_ (Q : char -> Prop) s, Forall Q by_ -> Forall Q s -> Forall Q (replace re by_ s).
Proof. intros. unfold replace, replace_with. apply replace_from_Forall; auto. Qed.

(** *** Substrings that survive a replacement *)

Lemma prefixOf_nil : forall s, prefixOf [] s.
Proof. intros s; exists s; reflexivity. Qed.

Lemma prefixOf_cons : forall c u s, prefixOf u s -> prefixOf (c :: u) (c :: s).
Proof. intros c u s [b Hb]. exists b. simpl. rewrite Hb. reflexivity. Qed.

Lemma prefixOf_cons_inv :
  forall c u d s, prefixOf (c :: u) (d :: s) -> c = d /\ prefixOf u s.
Proof. intros c u d s [b Hb]. simpl in Hb. inversion Hb; subst. split; [reflexivity | exists b; reflexivity]. Qed.

Lemma prefixOf_infix : forall u s, prefixOf u s -> infix u s.
Proof. intros u s [b Hb]. exists [], b. exact Hb. Qed.

Lemma infix_nil : forall s, infix [] s.
Proof. intros s. exists [], s. reflexivity. Qed.

Lemma infix_cons : forall u c s, infix u s -> infix u (c :: s).
Proof. intros u c s [a [b H]]. exists (c :: a), b. simpl. rewrite H. reflexivity. Qed.

Lemma infix_app_r : forall u a s, infix u s -> infix u (a ++ s).
Proof. intros u a s H. induction a as [|c a IH]; [exact H | simpl; apply infix_cons; exact IH]. Qed.

Lemma infix_app_l : forall u s b, infix u s -> infix u (s ++ b).
Proof.
  intros u s b [a [c H]]. exists a, (c ++ b). rewrite H. repeat rewrite <- app_assoc. reflexivity.
Qed.

Lemma infix_cons_inv :
  forall u c s, infix u (c :: s) -> prefixOf u (c :: s) \/ infix u s.
Proof.
  intros u c s [a [b H]]. destruct a as [|x a].
  - left. exists b. exact H.
  - right. simpl in H. inversion H; subst. exists a, b. reflexivity.
Qed.

Lemma infix_refl : forall s, infix s s.
Proof. intros s. exists [], []. rewrite app_nil_r. reflexivity. Qed.

Lemma infix_trans : forall u v s, infix u v -> infix v s -> infix u s.
Proof.
  intros u v s [a [b H]] [c [d H']]. exists (c ++ a), (b ++ d).
  rewrite H', H. repeat rewrite <- app_assoc. reflexivity.
Qed.

(** A substring that avoids [X] lies beyond a stretch of [X]. *)
Lemma infix_skip :
  forall (X : char -> Prop) w u t,
    Forall X w -> Forall (fun c => ~ X c) u -> u <> [] ->
    infix u (w ++ t) -> infix u t.
Proof.
  intros X w u t HX Hu Hne. induction w as [|x w IH]; intros H; [exact H|].
  simpl in H. inversion HX; subst. apply infix_cons_inv in H. destruct H as [H | H].
  - destruct u as [|c u]; [congruence|].
    apply prefixOf_cons_inv in H. destruct H as [-> _].
    inversion Hu; subst. contradiction.
  - apply IH; assumption.
Qed.

Section SurvivingSubstrings.

Variable re : RegExp.
Variable f : replacer.
Variable X : char -> Prop.
Hypothesis HX : AtomsIn (reflags re) X (source re).
(** Either the replacement is empty or a match is never empty. *)
Hypothesis Hout :
  (forall mt cs, f mt cs = []) \/ (exists P, Needs (reflags re) P (source re)).

Lemma empty_match_out :
  forall before after st',
    match_here re before after = Some st' -> suf st' = after ->
    f (segment (start_state before after) st') (caps st') = [].
Proof.
  intros before after st' H Hs. destruct Hout as [Hf | [P HP]]; [apply Hf|].
  destruct (match_here_word _ _ _ _ H) as [w [Ha [_ [_ [_ [_ HE]]]]]].
  specialize (HE P HP). exfalso.
  rewrite Hs in Ha. assert (w = []).
  { apply (f_equal (@length char)) in Ha. rewrite length_app in Ha.
    destruct w; [reflexivity | simpl in Ha; lia]. }
  subst w. inversion HE.
Qed.

Lemma replace_from_prefix :
  forall u, Forall (fun c => ~ X c) u ->
    forall fuel before after, prefixOf u after ->
      prefixOf u (replace_from re f fuel before after).
Proof.
  intros u. induction u as [|c u IHu]; intros Hu fuel before after Hpre;
    [apply prefixOf_nil|].
  inversion Hu as [|? ? Hc Hu']; subst.
  destruct after as [|d rest]; [destruct Hpre as [b Hb]; discriminate|].
  apply prefixOf_cons_inv in Hpre. destruct Hpre as [<- Hpre].
  destruct fuel as [|fuel]; simpl; [apply prefixOf_cons; exact Hpre|].
  assert (Hcopy : prefixOf (c :: u) (c :: replace_from re f fuel (c :: before) rest)).
  { apply prefixOf_cons. apply IHu; assumption. }
  destruct (match_here re before (c :: rest)) as [st'|] eqn:H; [|exact Hcopy].
  destruct (match_here_word _ _ _ _ H) as [w [Ha [_ [_ [_ [HA _]]]]]].
  specialize (HA X HX).
  destruct w as [|x w].
  - simpl in Ha. rewrite (empty_match_out _ _ _ H (eq_sym Ha)). simpl.
    destruct (negb (fl_global (reflags re))).
    + rewrite <- Ha. apply prefixOf_cons; exact Hpre.
    + assert (Hp : progressed (start_state before (c :: rest)) st' = false).
      { unfold progressed. rewrite <- Ha. simpl. apply Nat.ltb_irrefl. }
      rewrite Hp. exact Hcopy.
  - simpl in Ha. inversion Ha; subst x. inversion HA; subst. contradiction.
Qed.

Lemma replace_from_infix :
  forall u, Forall (fun c => ~ X c) u ->
    forall fuel before after, infix u after ->
      infix u (replace_from re f fuel before after).
Proof.
  intros u Hu fuel.
  induction fuel as [|fuel IH]; intros before after Hin; simpl; [exact Hin|].
  destruct u as [|c0 u0] eqn:Eu; [apply infix_nil|]. rewrite <- Eu in *.
  assert (Hne : u <> []) by (rewrite Eu; discriminate).
  assert (Hcopy : infix u match after with
                          | [] => []
                          | c :: rest => c :: replace_from re f fuel (c :: before) rest
                          end).
  { destruct after as [|c rest]; [exact Hin|].
    apply infix_cons_inv in Hin. destruct Hin as [Hin | Hin].
    - apply prefixOf_infix. rewrite Eu in Hin, Hu |- *.
      apply prefixOf_cons_inv in Hin. destruct Hin as [<- Hin].
      inversion Hu; subst. apply prefixOf_cons.
      apply replace_from_prefix; assumption.
    - apply infix_cons. apply IH. exact Hin. }
  destruct (match_here re before after) as [st'|] eqn:H; [|exact Hcopy].
  destruct (match_here_word _ _ _ _ H) as [w [Ha [_ [_ [_ [HA _]]]]]].
  specialize (HA X HX).
  destruct w as [|x w].
  - simpl in Ha. rewrite (empty_match_out _ _ _ H (eq_sym Ha)). simpl.
    destruct (negb (fl_global (reflags re))).
    + rewrite <- Ha. exact Hin.
    + assert (Hp : progressed (start_state before after) st' = false).
      { unfold progressed. rewrite <- Ha. simpl. apply Nat.ltb_irrefl. }
      rewrite Hp. exact Hcopy.
  - assert (Hin' : infix u (suf st')).
    { rewrite Ha in Hin. eapply infix_skip; eauto. }
    destruct (negb (fl_global (reflags re))).
    + apply infix_app_r. exact Hin'.
    + assert (Hp : progressed (start_state before after) st' = true).
      { unfold progressed. simpl. rewrite Ha. rewrite length_app. simpl.
        apply Nat.ltb_lt. lia. }
      rewrite Hp. apply infix_app_r. apply IH. exact Hin'.
Qed.

Lemma replace_with_infix :
  forall u s, Forall (fun c => ~ X c) u -> infix u s -> infix u (replace_with re f s).
Proof. intros. unfold replace_with. apply replace_from_infix; assumption. Qed.

End SurvivingSubstrings.

(** ** [split] and [join] *)

Lemma split_not_nil : forall sep s, split sep s <> [].
Proof.
  intros sep s. destruct s as [|c rest]; simpl; [discriminate|].
  destruct (c =? sep); [discriminate|]. destruct (split sep rest); discriminate.
Qed.

Lemma join_cons :
  forall sep l ls, ls <> [] -> join sep (l :: ls) = l ++ sep :: join sep ls.
Proof. intros sep l [|l' ls] H; [congruence | reflexivity]. Qed.

Lemma join_split : forall sep s, join sep (split sep s) = s.
Proof.
  intros sep s. induction s as [|c rest IH]; [reflexivity|].
  simpl. destruct (c =? sep) eqn:Hc.
  - apply N.eqb_eq in Hc. subst c.
    rewrite join_cons by apply split_not_nil. simpl. rewrite IH. reflexivity.
  - pose proof (split_not_nil sep rest) as Hne.
    destruct (split sep rest) as [|l ls]; [congruence|].
    destruct ls as [|l' ls'].
    + simpl in *. rewrite IH. reflexivity.
    + change (c :: (l ++ sep :: join sep (l' :: ls')) = c :: rest).
      change (l ++ sep :: join sep (l' :: ls') = rest) in IH.
      rewrite IH. reflexivity.
Qed.

Lemma split_no_sep : forall sep s, Forall (Forall (fun c => c <> sep)) (split sep s).
Proof.
  intros sep s. induction s as [|c rest IH]; simpl; [repeat constructor|].
  destruct (c =? sep) eqn:Hc.
  - constructor; [constructor | exact IH].
  - apply N.eqb_neq in Hc. destruct (split sep rest) as [|l ls]; [repeat constructor; assumption|].
    inversion IH; subst. constructor; [constructor; assumption | assumption].
Qed.

Lemma split_join :
  forall sep ls, ls <> [] -> Forall (Forall (fun c => c <> sep)) ls ->
    split sep (join sep ls) = ls.
Proof.
  intros sep ls. induction ls as [|l ls IH]; intros Hne HF; [congruence|].
  inversion HF as [|? ? Hl Hls]; subst.
  destruct ls as [|l' ls'].
  - simpl. clear IH HF Hls Hne. induction l as [|c l IHl]; [reflexivity|].
    inversion Hl; subst. simpl. apply N.eqb_neq in H1. rewrite H1.
    rewrite IHl by assumption. reflexivity.
  - rewrite join_cons by discriminate.
    specialize (IH ltac:(discriminate) Hls). clear HF Hne.
    remember (join sep (l' :: ls')) as t eqn:Et. clear Et.
    induction l as [|c l IHl]; simpl.
    + rewrite N.eqb_refl. rewrite IH. reflexivity.
    + inversion Hl; subst. apply N.eqb_neq in H1. rewrite H1.
      rewrite IHl by assumption. reflexivity.
Qed.

Lemma length_split : forall sep s, length (split sep s) = S (count sep s).
Proof.
  intros sep s. induction s as [|c rest IH]; [reflexivity|].
  simpl. destruct (c =? sep); simpl; [rewrite IH; reflexivity|].
  pose proof (split_not_nil sep rest) as Hne.
  destruct (split sep rest) as [|l ls]; [congruence|]. simpl in *. exact IH.
Qed.

Lemma join_Forall :
  forall (Q : char -> Prop) sep ls, Q sep -> Forall (Forall Q) ls -> Forall Q (join sep ls).
Proof.
  intros Q sep ls Hsep HF. induction HF as [|l ls Hl Hls IH]; [constructor|].
  destruct ls as [|l' ls']; [exact Hl|].
  rewrite join_cons by discriminate. apply Forall_app; split; [exact Hl|].
  constructor; assumption.
Qed.

Lemma split_Forall :
  forall (Q : char -> Prop) sep s, Forall Q s -> Forall (Forall Q) (split sep s).
Proof.
  intros Q sep s HQ. induction HQ as [|c rest Hc Hrest IH]; simpl; [repeat constructor|].
  destruct (c =? sep); [constructor; [constructor | exact IH]|].
  destruct (split sep rest) as [|l ls]; [repeat constructor; assumption|].
  inversion IH; subst. constructor; [constructor; assumption | assumption].
Qed.

Lemma In_join_infix : forall sep l ls, In l ls -> infix l (join sep ls).
Proof.
  intros sep l ls. induction ls as [|l0 ls IH]; intros Hin; [destruct Hin|].
  destruct ls as [|l1 ls'].
  - destruct Hin as [-> | []]. apply infix_refl.
  - rewrite join_cons by discriminate. destruct Hin as [-> | Hin].
    + apply infix_app_l. apply infix_refl.
    + apply infix_app_r. apply infix_cons. apply IH. exact Hin.
Qed.

(** A substring without a separator lies in one of the pieces. *)
Lemma prefixOf_split :
  forall sep u s, Forall (fun c => c <> sep) u -> prefixOf u s ->
    exists l ls, split sep s = l :: ls /\ prefixOf u l.
Proof.
  intros sep u. induction u as [|c u IH]; intros s Hu Hpre.
  - pose proof (split_not_nil sep s) as Hne.
    destruct (split sep s) as [|l ls]; [congruence|].
    exists l, ls. split; [reflexivity | apply prefixOf_nil].
  - destruct s as [|d rest]; [destruct Hpre as [b Hb]; discriminate|].
    apply prefixOf_cons_inv in Hpre. destruct Hpre as [<- Hpre].
    inversion Hu; subst. simpl.
    apply N.eqb_neq in H1. rewrite H1.
    destruct (IH rest H2 Hpre) as [l [ls [Hs Hl]]].
    rewrite Hs. exists (c :: l), ls. split; [reflexivity | apply prefixOf_cons; exact Hl].
Qed.

Lemma infix_split :
  forall sep u s, Forall (fun c => c <> sep) u -> infix u s ->
    exists l, In l (split sep s) /\ infix u l.
Proof.
  intros sep u s Hu. induction s as [|c rest IH]; intros Hin.
  - exists []. split; [left; reflexivity | exact Hin].
  - apply infix_cons_inv in Hin. destruct Hin as [Hpre | Hin].
    + destruct (prefixOf_split sep u (c :: rest) Hu Hpre) as [l [ls [Hs Hl]]].
      exists l. rewrite Hs. split; [left; reflexivity | apply prefixOf_infix; exact Hl].
    + destruct (IH Hin) as [l [Hl Hu']]. simpl.
      destruct (c =? sep).
      * exists l. split; [right; exact Hl | exact Hu'].
      * destruct (split sep rest) as [|l0 ls]; [destruct Hl|].
        destruct Hl as [<- | Hl].
        -- exists (c :: l0). split; [left; reflexivity | apply infix_cons; exact Hu'].
        -- exists l. split; [right; exact Hl | exact Hu'].
Qed.

(** ** [trim] *)

Lemma dropWhile_Forall :
  forall (Q : char -> Prop) f s, Forall Q s -> Forall Q (dropWhile f s).
Proof.
  intros Q f s H. induction H as [|c rest Hc Hrest IH]; simpl; [constructor|].
  destruct (f c); [exact IH | constructor; assumption].
Qed.

Lemma dropEnd_spec :
  forall f s, exists w, s = dropEnd f s ++ w /\ Forall (fun c => f c = true) w.
Proof.
  intros f s. induction s as [|c rest [w [Hw HF]]]; simpl.
  - exists []. split; [reflexivity | constructor].
  - destruct (dropEnd f rest) as [|k kept] eqn:E.
    + destruct (f c) eqn:Hc.
      * exists (c :: w). simpl in Hw. subst rest. split; [reflexivity | constructor; assumption].
      * exists w. simpl in Hw. subst rest. split; [reflexivity | assumption].
    + exists w. split; [simpl; f_equal; exact Hw | assumption].
Qed.

Lemma dropEnd_Forall :
  forall (Q : char -> Prop) f s, Forall Q s -> Forall Q (dropEnd f s).
Proof.
  intros Q f s H. destruct (dropEnd_spec f s) as [w [Hw _]].
  rewrite Hw in H. apply Forall_app in H. tauto.
Qed.

Lemma trim_Forall : forall (Q : char -> Prop) s, Forall Q s -> Forall Q (trim s).
Proof.
  intros Q s H. unfold trim. apply dropEnd_Forall. apply dropWhile_Forall. exact H.
Qed.

Lemma dropWhile_spec :
  forall f s, exists w, s = w ++ dropWhile f s /\ Forall (fun c => f c = true) w.
Proof.
  intros f s. induction s as [|c rest [w [Hw HF]]]; simpl.
  - exists []. split; [reflexivity | constructor].
  - destruct (f c) eqn:Hc.
    + exists (c :: w). split; [simpl; rewrite <- Hw; reflexivity | constructor; assumption].
    + exists []. split; [reflexivity | constructor].
Qed.

Lemma infix_rev : forall u s, infix u s -> infix (rev u) (rev s).
Proof.
  intros u s [a [b H]]. exists (rev b), (rev a). rewrite H.
  repeat rewrite rev_app_distr. rewrite app_assoc. reflexivity.
Qed.

Lemma dropWhile_infix :
  forall f u s, Forall (fun c => f c <> true) u -> infix u s -> infix u (dropWhile f s).
Proof.
  intros f u s Hu Hin. destruct u as [|c0 u0] eqn:Eu; [apply infix_nil|]. rewrite <- Eu in *.
  destruct (dropWhile_spec f s) as [w [Hw HF]].
  rewrite Hw in Hin.
  eapply (infix_skip (fun c => f c = true)); eauto. rewrite Eu; discriminate.
Qed.

Lemma infix_skip_end :
  forall (X : char -> Prop) w u a,
    Forall X w -> Forall (fun c => ~ X c) u -> infix u (a ++ w) -> infix u a.
Proof.
  intros X w u a HX Hu H. destruct u as [|c0 u0] eqn:Eu; [apply infix_nil|].
  rewrite <- Eu in *.
  apply infix_rev in H. rewrite rev_app_distr in H.
  apply (infix_skip X) in H.
  - apply infix_rev in H. rewrite !rev_involutive in H. exact H.
  - apply Forall_rev. exact HX.
  - apply Forall_rev. exact Hu.
  - rewrite Eu. simpl. destruct (rev u0); discriminate.
Qed.

Lemma trim_infix :
  forall u s, Forall (fun c => isWhiteSpace c <> true) u -> infix u s -> infix u (trim s).
Proof.
  intros u s Hu Hin. unfold trim.
  apply (dropWhile_infix isWhiteSpace) in Hin; [|exact Hu].
  destruct (dropEnd_spec isWhiteSpace (dropWhile isWhiteSpace s)) as [w [Hw HF]].
  rewrite Hw in Hin.
  apply (infix_skip_end (fun c => isWhiteSpace c = true) w); assumption.
Qed.

(** *** Anchored patterns *)

Lemma Matches_StartsBol :
  forall fl r st st', StartsBol r -> Matches fl r st st' -> at_bol fl st = true.
Proof.
  intros fl r st st' HB. revert st st'.
  induction HB as [|a b Ha IH]; intros st st' H; inversion H; subst; eauto.
Qed.

Lemma Matches_EndsEol :
  forall fl r st st', EndsEol r -> Matches fl r st st' -> at_eol fl st' = true.
Proof.
  intros fl r st st' HE. revert st st'.
  induction HE as [|a b Hb IH]; intros st st' H; inversion H; subst; eauto.
Qed.

Lemma match_here_not_bol :
  forall re c before after,
    StartsBol (source re) -> isLineTerminator c = false ->
    match_here re (c :: before) after = None.
Proof.
  intros re c before after HB Hc.
  destruct (match_here re (c :: before) after) as [st'|] eqn:H; [|reflexivity].
  destruct (match_here_word _ _ _ _ H) as [w [_ [_ [_ [Hm _]]]]].
  apply (Matches_StartsBol _ _ _ _ HB) in Hm. unfold at_bol in Hm. simpl in Hm.
  rewrite Hc, andb_false_r in Hm. discriminate.
Qed.

(** A substring whose first character is not in [X] lies beyond a
    stretch of [X]. *)
Lemma infix_skip_first :
  forall (X : char -> Prop) w c u t,
    Forall X w -> ~ X c -> infix (c :: u) (w ++ t) -> infix (c :: u) t.
Proof.
  intros X w c u t HX Hc. induction w as [|x w IH]; intros H; [exact H|].
  simpl in H. inversion HX; subst. apply infix_cons_inv in H. destruct H as [H | H].
  - apply prefixOf_cons_inv in H. destruct H as [-> _]. contradiction.
  - apply IH; assumption.
Qed.

Section AnchoredSubstrings.

Variable re : RegExp.
Variable f : replacer.
Variable X : char -> Prop.
Hypothesis HB : StartsBol (source re).
Hypothesis HX : AtomsIn (reflags re) X (source re).
Hypothesis Hout :
  (forall mt cs, f mt cs = []) \/ (exists P, Needs (reflags re) P (source re)).

Lemma replace_from_prefix_inside :
  forall u, Forall (fun c => isLineTerminator c = false) u ->
    forall fuel c before after, isLineTerminator c = false -> prefixOf u after ->
      prefixOf u (replace_from re f fuel (c :: before) after).
Proof.
  intros u. induction u as [|d u IHu]; intros Hu fuel c before after Hc Hpre;
    [apply prefixOf_nil|].
  inversion Hu as [|? ? Hd Hu']; subst.
  destruct after as [|d' rest]; [destruct Hpre as [b Hb]; discriminate|].
  apply prefixOf_cons_inv in Hpre. destruct Hpre as [<- Hpre].
  destruct fuel as [|fuel]; simpl; [apply prefixOf_cons; exact Hpre|].
  rewrite (match_here_not_bol re c before (d :: rest) HB Hc).
  apply prefixOf_cons. apply IHu; assumption.
Qed.

Lemma replace_from_prefix_anchored :
  forall c u, ~ X c -> Forall (fun c => isLineTerminator c = false) (c :: u) ->
    forall fuel before after, prefixOf (c :: u) after ->
      prefixOf (c :: u) (replace_from re f fuel before after).
Proof.
  intros c u Hc Hu fuel before after Hpre.
  inversion Hu as [|? ? Hc' Hu']; subst.
  destruct after as [|d rest]; [destruct Hpre as [b Hb]; discriminate|].
  apply prefixOf_cons_inv in Hpre. destruct Hpre as [<- Hpre].
  destruct fuel as [|fuel]; simpl; [apply prefixOf_cons; exact Hpre|].
  assert (Hcopy : prefixOf (c :: u) (c :: replace_from re f fuel (c :: before) rest)).
  { apply prefixOf_cons. apply replace_from_prefix_inside; assumption. }
  destruct (match_here re before (c :: rest)) as [st'|] eqn:H; [|exact Hcopy].
  destruct (match_here_word _ _ _ _ H) as [w [Ha [_ [_ [_ [HA _]]]]]].
  specialize (HA X HX).
  destruct w as [|x w].
  - simpl in Ha. rewrite (empty_match_out re f Hout _ _ _ H (eq_sym Ha)). simpl.
    destruct (negb (fl_global (reflags re))).
    + rewrite <- Ha. apply prefixOf_cons; exact Hpre.
    + assert (Hp : progressed (start_state before (c :: rest)) st' = false).
      { unfold progressed. rewrite <- Ha. simpl. apply Nat.ltb_irrefl. }
      rewrite Hp. exact Hcopy.
  - simpl in Ha. inversion Ha; subst x. inversion HA; subst. contradiction.
Qed.

Lemma replace_from_infix_anchored :
  forall c u, ~ X c -> Forall (fun c => isLineTerminator c = false) (c :: u) ->
    forall fuel before after, infix (c :: u) after ->
      infix (c :: u) (replace_from re f fuel before after).
Proof.
  intros c u Hc Hu fuel.
  induction fuel as [|fuel IH]; intros before after Hin; simpl; [exact Hin|].
  assert (Hcopy : infix (c :: u) match after with
                          | [] => []
                          | d :: rest => d :: replace_from re f fuel (d :: before) rest
                          end).
  { destruct after as [|d rest]; [exact Hin|].
    apply infix_cons_inv in Hin. destruct Hin as [Hin | Hin].
    - apply prefixOf_infix.
      pose proof Hin as Hin'. apply prefixOf_cons_inv in Hin'. destruct Hin' as [<- Hin'].
      inversion Hu; subst. apply prefixOf_cons.
      apply replace_from_prefix_inside; assumption.
    - apply infix_cons. apply IH. exact Hin. }
  destruct (match_here re before after) as [st'|] eqn:H; [|exact Hcopy].
  destruct (match_here_word _ _ _ _ H) as [w [Ha [_ [_ [_ [HA _]]]]]].
  specialize (HA X HX).
  destruct w as [|x w].
  - simpl in Ha. rewrite (empty_match_out re f Hout _ _ _ H (eq_sym Ha)). simpl.
    destruct (negb (fl_global (reflags re))).
    + rewrite <- Ha. exact Hin.
    + assert (Hp : progressed (start_state before after) st' = false).
      { unfold progressed. rewrite <- Ha. simpl. apply Nat.ltb_irrefl. }
      rewrite Hp. exact Hcopy.
  - assert (Hin' : infix (c :: u) (suf st')).
    { rewrite Ha in Hin. eapply infix_skip_first; eauto. }
    destruct (negb (fl_global (reflags re))).
    + apply infix_app_r. exact Hin'.
    + assert (Hp : progressed (start_state before after) st' = true).
      { unfold progressed. simpl. rewrite Ha. rewrite length_app. simpl.
        apply Nat.ltb_lt. lia. }
      rewrite Hp. apply infix_app_r. apply IH. exact Hin'.
Qed.

End AnchoredSubstrings.

(** *** The first match of a pattern without the [g] flag *)

Lemma replace_first_spec :
  forall re f, fl_global (reflags re) = false ->
    forall fuel before after,
      replace_from re f fuel before after = after
      \/ exists a st',
           after = a ++ segment (start_state (rev a ++ before) (skipn (length a) after)) st' ++ suf st'
           /\ match_here re (rev a ++ before) (skipn (length a) after) = Some st'
           /\ replace_from re f fuel before after
              = a ++ f (segment (start_state (rev a ++ before) (skipn (length a) after)) st')
                       (caps st') ++ suf st'.
Proof.
  intros re f Hg fuel.
  induction fuel as [|fuel IH]; intros before after; simpl; [left; reflexivity|].
  rewrite Hg. simpl.
  destruct (match_here re before after) as [st'|] eqn:H.
  - right. exists [], st'. simpl.
    destruct (match_here_word _ _ _ _ H) as [w [Ha [_ [Hseg _]]]].
    rewrite Hseg. auto.
  - destruct after as [|c rest]; [left; reflexivity|].
    destruct (IH (c :: before) rest) as [E | [a [st' [Ha [Hm E]]]]].
    + left. rewrite E. reflexivity.
    + right. exists (c :: a), st'. simpl.
      rewrite <- app_assoc. simpl.
      split; [rewrite <- Ha; reflexivity|]. split; [exact Hm|].
      rewrite E. reflexivity.
Qed.

Lemma search_true_inv :
  forall re after before, search re before after = true ->
    exists a st', match_here re (rev a ++ before) (skipn (length a) after) = Some st'.
Proof.
  intros re after. induction after as [|c rest IH]; intros before H; simpl in H.
  - destruct (match_here re before []) as [st'|] eqn:Hm; [|discriminate].
    exists [], st'. exact Hm.
  - destruct (match_here re before (c :: rest)) as [st'|] eqn:Hm.
    + exists [], st'. exact Hm.
    + destruct (IH _ H) as [a [st' Ha]]. exists (c :: a), st'. simpl.
      rewrite <- app_assoc. exact Ha.
Qed.

Lemma at_bol_noflags : forall st, at_bol noflags st = true -> pre st = [].
Proof. intros st H. unfold at_bol in H. destruct (pre st); [reflexivity | discriminate]. Qed.

Lemma at_eol_noflags : forall st, at_eol noflags st = true -> suf st = [].
Proof. intros st H. unfold at_eol in H. destruct (suf st); [reflexivity | discriminate]. Qed.

Lemma infix_skip_last :
  forall (X : char -> Prop) w c u a,
    Forall X w -> ~ X c -> infix (u ++ [c]) (a ++ w) -> infix (u ++ [c]) a.
Proof.
  intros X w c u a HX Hc H.
  apply infix_rev in H. rewrite !rev_app_distr in H. simpl in H.
  apply (infix_skip_first X) in H; [|apply Forall_rev; exact HX | exact Hc].
  apply infix_rev in H. simpl in H. rewrite !rev_involutive in H. exact H.
Qed.

(** A pattern that ends with [$], without the [g] and [m] flags, replaced
    by nothing: only a tail of the text goes away. *)
Lemma replace_tail_infix :
  forall re (X : char -> Prop) u c s,
    reflags re = noflags -> EndsEol (source re) -> AtomsIn noflags X (source re) ->
    ~ X c -> infix (u ++ [c]) s -> infix (u ++ [c]) (replace re [] s).
Proof.
  intros re X u c s Hfl HE HX Hc Hin. unfold replace, replace_with.
  destruct (replace_first_spec re (fun _ _ => []) ltac:(rewrite Hfl; reflexivity)
              (S (length s)) [] s) as [E | [a [st' [Ha [Hm E]]]]].
  - rewrite E. exact Hin.
  - rewrite E. simpl.
    destruct (match_here_word _ _ _ _ Hm) as [w [_ [_ [Hseg [HM [HA _]]]]]].
    rewrite Hseg in Ha. rewrite Hfl in HM, HA.
    apply (Matches_EndsEol _ _ _ _ HE) in HM. apply at_eol_noflags in HM.
    rewrite HM in Ha |- *. rewrite !app_nil_r in *.
    rewrite Ha in Hin.
    apply (infix_skip_last X w c u a); [apply HA; exact HX | exact Hc | exact Hin].
Qed.

(** ** The patterns of the catalogue *)

Lemma canonicalize_plain :
  forall fl x c, fl_ignoreCase fl = false -> canonicalize fl x = canonicalize fl c -> x = c.
Proof. intros fl x c Hfl H. unfold canonicalize in H. rewrite Hfl in H. exact H. Qed.

Lemma canonicalize_colon :
  forall fl x, canonicalize fl x = canonicalize fl 58 -> x = 58.
Proof.
  intros fl x H. unfold canonicalize in H.
  replace (fl_ignoreCase fl && inRange 97 122 58) with false in H
    by (destruct (fl_ignoreCase fl); reflexivity).
  destruct (fl_ignoreCase fl && inRange 97 122 x) eqn:E; [|exact H].
  apply andb_true_iff in E. destruct E as [_ E]. unfold inRange in E.
  apply andb_true_iff in E. destruct E as [E1 E2].
  apply N.leb_le in E1. apply N.leb_le in E2. lia.
Qed.

Lemma ws_Target : forall x, isWhiteSpace x = true -> Target x.
Proof. intros x H. unfold Target, plainChar. rewrite H. reflexivity. Qed.

Lemma box_Target : forall x, isBoxChar x = true -> Target x.
Proof.
  intros x H. unfold Target, plainChar. rewrite H.
  rewrite orb_true_r. reflexivity.
Qed.

Lemma lead_box : forall x, oneOf leadChars x = true -> isBoxChar x = true.
Proof. intros x H. oneOf_cases H; reflexivity. Qed.

Lemma trail_box : forall x, oneOf trailChars x = true -> isBoxChar x = true.
Proof. intros x H. oneOf_cases H; reflexivity. Qed.

Lemma prompt_Target : forall x, isPromptChar x = true -> Target x.
Proof. intros x H. unfold isPromptChar in H. oneOf_cases H; reflexivity. Qed.

Lemma boxLead_AtomsIn : AtomsIn noflags Target (source boxLeadRe).
Proof.
  repeat constructor; intros x H; [apply box_Target, lead_box | apply ws_Target]; exact H.
Qed.

Lemma boxTrail_AtomsIn : AtomsIn noflags Target (source boxTrailRe).
Proof.
  repeat constructor; intros x H; [apply ws_Target | apply box_Target, trail_box]; exact H.
Qed.

Lemma boxOnly_AtomsIn : AtomsIn noflags (fun c => isBoxChar c = true) (source boxOnlyRe).
Proof. repeat constructor; intros x H; exact H. Qed.

Lemma pipeLead_AtomsIn : AtomsIn noflags Target (source pipeLeadRe).
Proof.
  repeat constructor; intros x H; try (apply ws_Target; exact H).
  apply canonicalize_plain in H; [subst; reflexivity | reflexivity].
Qed.

Lemma pipeTrail_AtomsIn : AtomsIn noflags Target (source pipeTrailRe).
Proof.
  repeat constructor; intros x H; try (apply ws_Target; exact H).
  apply canonicalize_plain in H; [subst; reflexivity | reflexivity].
Qed.

Lemma prompt_AtomsIn : AtomsIn flags_gm Target (source promptRe).
Proof.
  repeat constructor; intros x H; [apply prompt_Target | apply ws_Target]; exact H.
Qed.

Lemma wsRun_AtomsIn : AtomsIn flags_g White (source wsRunRe).
Proof. repeat constructor; intros x H; exact H. Qed.

Lemma blankRun_AtomsIn : AtomsIn flags_g White (source blankRunRe).
Proof.
  repeat constructor; intros x H; try exact H;
    apply canonicalize_plain in H; try reflexivity; subst; reflexivity.
Qed.

Lemma boxLead_Needs : Needs noflags (fun c => isBoxChar c = true) (source boxLeadRe).
Proof. apply Nd_SeqR, Nd_SeqL, Nd_Cls. exact lead_box. Qed.

Lemma boxTrail_Needs : Needs noflags (fun c => isBoxChar c = true) (source boxTrailRe).
Proof. apply Nd_SeqR, Nd_SeqL, Nd_Cls. exact trail_box. Qed.

Lemma boxOnly_Needs : Needs noflags (fun c => isBoxChar c = true) (source boxOnlyRe).
Proof. apply Nd_SeqR, Nd_SeqL, Nd_SeqL, Nd_Cls. auto. Qed.

Lemma pipeLead_Needs : Needs noflags (fun c => c = PIPE) (source pipeLeadRe).
Proof.
  apply Nd_SeqR, Nd_SeqR, Nd_SeqL, Nd_Chr. intros x H.
  apply canonicalize_plain in H; [exact H | reflexivity].
Qed.

Lemma pipeTrail_Needs : Needs noflags (fun c => c = PIPE) (source pipeTrailRe).
Proof.
  apply Nd_SeqR, Nd_SeqL, Nd_Chr. intros x H.
  apply canonicalize_plain in H; [exact H | reflexivity].
Qed.

Lemma wsRun_Needs : Needs flags_g White (source wsRunRe).
Proof. apply Nd_SeqL, Nd_Cls. auto. Qed.

Lemma blankRun_Needs : Needs flags_g White (source blankRunRe).
Proof.
  apply Nd_SeqL, Nd_Chr. intros x H.
  apply canonicalize_plain in H; [subst; reflexivity | reflexivity].
Qed.

Lemma ansi_Needs : Needs flags_g (fun c => c = ESC) (source ansiRe).
Proof.
  apply Nd_SeqL, Nd_Chr. intros x H.
  apply canonicalize_plain in H; [exact H | reflexivity].
Qed.

Lemma prompt_Needs : Needs flags_gm (fun c => isPromptChar c = true) (source promptRe).
Proof. apply Nd_SeqR, Nd_SeqL, Nd_Cls. auto. Qed.

Lemma shell_Needs : Needs flags_gim (fun c => c = 58) (source shellRe).
Proof. apply Nd_SeqR, Nd_SeqR, Nd_SeqL, Nd_Chr. intros x H. apply canonicalize_colon in H. exact H. Qed.

Lemma jsonArray_Needs : Needs flags_gm (fun c => c = LBRACK) (source jsonArrayRe).
Proof.
  apply Nd_SeqR, Nd_SeqR, Nd_SeqL, Nd_Group, Nd_SeqR, Nd_SeqR, Nd_SeqL, Nd_Chr.
  intros x H. apply canonicalize_plain in H; [exact H | reflexivity].
Qed.

(** ** What survives each rule *)

Lemma LT_ws : forall x, isLineTerminator x = true -> isWhiteSpace x = true.
Proof. intros x H. unfold isLineTerminator in H. oneOf_cases H; reflexivity. Qed.

Lemma infix_In : forall u s c, infix u s -> In c u -> In c s.
Proof.
  intros u s c [a [b H]] Hc. rewrite H. apply in_or_app. right.
  apply in_or_app. left. exact Hc.
Qed.

Lemma Forall_not_Exists :
  forall (P Q : char -> Prop) s, (forall c, Q c -> ~ P c) -> Forall Q s -> ~ Exists P s.
Proof.
  intros P Q s HPQ HF HE. induction HE as [c rest Hc | c rest HE IH];
    inversion HF; subst; [eapply HPQ; eauto | auto].
Qed.

(** A box-only line consists of box characters. *)
Lemma boxOnly_test_true :
  forall l, test boxOnlyRe l = true -> Forall (fun c => isBoxChar c = true) l.
Proof.
  intros l H. unfold test in H. apply search_true_inv in H.
  destruct H as [a [st' Hm]].
  destruct (match_here_word _ _ _ _ Hm) as [w [Ha [_ [_ [HM [HA _]]]]]].
  pose proof (Matches_StartsBol noflags (source boxOnlyRe) _ _
                ltac:(repeat constructor) HM) as Hb.
  apply at_bol_noflags in Hb. simpl in Hb. rewrite app_nil_r in Hb.
  assert (a = []) by (destruct a; [reflexivity | simpl in Hb; destruct (rev a); discriminate]).
  subst a. simpl in Ha.
  pose proof (Matches_EndsEol noflags (source boxOnlyRe) _ _
                ltac:(repeat constructor) HM) as He.
  apply at_eol_noflags in He. rewrite He, app_nil_r in Ha. subst l.
  apply HA. exact boxOnly_AtomsIn.
Qed.

Section Survival.

Variables (c d : char) (v v' u : jsstring).
Hypothesis Hfirst : u = c :: v.
Hypothesis Hlast : u = v' ++ [d].
Hypothesis Hc : plainChar c = true.
Hypothesis Hd : plainChar d = true.
Hypothesis Hws : Forall (fun x => isWhiteSpace x = false) u.

Lemma solid_not_Target_c : ~ Target c.
Proof. unfold Target. rewrite Hc. discriminate. Qed.

Lemma solid_not_Target_d : ~ Target d.
Proof. unfold Target. rewrite Hd. discriminate. Qed.

Lemma solid_not_White : Forall (fun x => ~ White x) u.
Proof.
  eapply Forall_impl; [|exact Hws]. intros x Hx. unfold White. rewrite Hx. discriminate.
Qed.

Lemma solid_no_LT : Forall (fun x => isLineTerminator x = false) u.
Proof.
  eapply Forall_impl; [|exact Hws]. intros x Hx.
  destruct (isLineTerminator x) eqn:E; [|reflexivity].
  apply LT_ws in E. congruence.
Qed.

Lemma solid_no_NL : Forall (fun x => x <> NL) u.
Proof.
  eapply Forall_impl; [|exact Hws]. intros x Hx E. subst x. discriminate.
Qed.

Lemma boxLine_infix :
  forall l, infix u l ->
    infix u (replace boxTrailRe [] (replace boxLeadRe [] l)).
Proof.
  intros l Hin. rewrite Hlast.
  apply (replace_tail_infix boxTrailRe Target v' d);
    [reflexivity | repeat constructor | exact boxTrail_AtomsIn | exact solid_not_Target_d |].
  rewrite <- Hlast. rewrite Hfirst.
  apply (replace_from_infix_anchored boxLeadRe (fun _ _ => []) Target);
    [repeat constructor | exact boxLead_AtomsIn | left; reflexivity
    | exact solid_not_Target_c | rewrite <- Hfirst; exact solid_no_LT
    | rewrite <- Hfirst; exact Hin].
Qed.

Lemma removeBoxDrawing_infix :
  forall s, infix u s -> infix u (removeBoxDrawing s).
Proof.
  intros s Hin. unfold removeBoxDrawing.
  destruct (infix_split NL u s solid_no_NL Hin) as [l [Hl Hul]].
  eapply infix_trans; [apply boxLine_infix; exact Hul|].
  apply In_join_infix.
  apply (in_map (fun line => replace boxTrailRe [] (replace boxLeadRe [] line))).
  apply filter_In. split; [exact Hl|].
  destruct (test boxOnlyRe l) eqn:Ht; [|reflexivity].
  apply boxOnly_test_true in Ht.
  assert (Hcl : In c l) by (apply (infix_In u); [exact Hul | rewrite Hfirst; left; reflexivity]).
  rewrite Forall_forall in Ht. specialize (Ht c Hcl).
  unfold plainChar in Hc. rewrite Ht in Hc. rewrite orb_true_r in Hc. discriminate.
Qed.

Lemma pipeLine_infix :
  forall l, infix u l ->
    infix u (replace pipeTrailRe [] (replace pipeLeadRe [] l)).
Proof.
  intros l Hin. rewrite Hlast.
  apply (replace_tail_infix pipeTrailRe Target v' d);
    [reflexivity | repeat constructor | exact pipeTrail_AtomsIn | exact solid_not_Target_d |].
  rewrite <- Hlast. rewrite Hfirst.
  apply (replace_from_infix_anchored pipeLeadRe (fun _ _ => []) Target);
    [repeat constructor | exact pipeLead_AtomsIn | left; reflexivity
    | exact solid_not_Target_c | rewrite <- Hfirst; exact solid_no_LT
    | rewrite <- Hfirst; exact Hin].
Qed.

Lemma removePipes_infix :
  forall s, infix u s -> infix u (removePipes s).
Proof.
  intros s Hin. unfold removePipes.
  destruct (infix_split NL u s solid_no_NL Hin) as [l [Hl Hul]].
  eapply infix_trans; [apply pipeLine_infix; exact Hul|].
  apply In_join_infix.
  apply (in_map (fun line => replace pipeTrailRe [] (replace pipeLeadRe [] line))).
  exact Hl.
Qed.

Lemma fixIndentation_infix :
  forall s, infix u s -> infix u (fixIndentation s).
Proof.
  intros s Hin. unfold fixIndentation.
  destruct (infix_split NL u s solid_no_NL Hin) as [l [Hl Hul]].
  apply infix_trans with (v := fixLine l); [|apply In_join_infix, in_map; exact Hl].
  unfold fixLine. apply trim_infix.
  - eapply Forall_impl; [|exact Hws]. intros x Hx. rewrite Hx. discriminate.
  - apply (replace_with_infix wsRunRe (fun _ _ => [SP]) White);
      [exact wsRun_AtomsIn | right; exists White; exact wsRun_Needs
      | exact solid_not_White | exact Hul].
Qed.

Lemma removeArtifacts_infix :
  forall s, Forall unmarked s -> infix u s -> infix u (removeArtifacts s).
Proof.
  intros s Hs Hin. unfold removeArtifacts.
  rewrite (replace_needs ansiRe (fun x => x = ESC) [] s ansi_Needs).
  2:{ eapply Forall_not_Exists; [|exact Hs]. intros x [Hx _] E. contradiction. }
  rewrite (replace_needs shellRe (fun x => x = 58) [] _ shell_Needs).
  2:{ apply (Forall_not_Exists _ unmarked); [intros x [_ [_ Hx]] E; contradiction|].
      apply replace_Forall; [constructor | exact Hs]. }
  rewrite Hfirst.
  apply (replace_from_infix_anchored promptRe (fun _ _ => []) Target);
    [repeat constructor | exact prompt_AtomsIn | left; reflexivity
    | exact solid_not_Target_c | rewrite <- Hfirst; exact solid_no_LT
    | rewrite <- Hfirst; exact Hin].
Qed.

Lemma collapseBlankLines_infix :
  forall s, infix u s -> infix u (collapseBlankLines s).
Proof.
  intros s Hin. unfold collapseBlankLines.
  apply (replace_with_infix blankRunRe (fun _ _ => [NL; NL]) White);
    [exact blankRun_AtomsIn | right; exists White; exact blankRun_Needs
    | exact solid_not_White | exact Hin].
Qed.

End Survival.

(** *** Characters that never appear *)

Lemma unmarked_NL : unmarked NL.
Proof. repeat split; discriminate. Qed.

Lemma unmarked_SP : unmarked SP.
Proof. repeat split; discriminate. Qed.

Lemma map_Forall2 :
  forall (Q : char -> Prop) (g : jsstring -> jsstring) ls,
    (forall l, Forall Q l -> Forall Q (g l)) ->
    Forall (Forall Q) ls -> Forall (Forall Q) (map g ls).
Proof.
  intros Q g ls Hg H. induction H; simpl; constructor; auto.
Qed.

Lemma filter_Forall2 :
  forall (Q : jsstring -> Prop) p ls, Forall Q ls -> Forall Q (filter p ls).
Proof.
  intros Q p ls H. induction H; simpl; [constructor|].
  destruct (p x); [constructor|]; assumption.
Qed.

Lemma removeBoxDrawing_Forall :
  forall (Q : char -> Prop) s, Q NL -> Forall Q s -> Forall Q (removeBoxDrawing s).
Proof.
  intros Q s HNL H. unfold removeBoxDrawing. apply join_Forall; [exact HNL|].
  apply map_Forall2; [intros l Hl; repeat apply replace_Forall; auto|].
  apply filter_Forall2. apply split_Forall. exact H.
Qed.

Lemma removePipes_Forall :
  forall (Q : char -> Prop) s, Q NL -> Forall Q s -> Forall Q (removePipes s).
Proof.
  intros Q s HNL H. unfold removePipes. apply join_Forall; [exact HNL|].
  apply map_Forall2; [intros l Hl; repeat apply replace_Forall; auto|].
  apply split_Forall. exact H.
Qed.

Lemma fixIndentation_Forall :
  forall (Q : char -> Prop) s, Q NL -> Q SP -> Forall Q s -> Forall Q (fixIndentation s).
Proof.
  intros Q s HNL HSP H. unfold fixIndentation. apply join_Forall; [exact HNL|].
  apply map_Forall2; [|apply split_Forall; exact H].
  intros l Hl. unfold fixLine. apply trim_Forall. apply replace_Forall; auto.
Qed.

Lemma removeArtifacts_Forall :
  forall (Q : char -> Prop) s, Forall Q s -> Forall Q (removeArtifacts s).
Proof. intros Q s H. unfold removeArtifacts. repeat apply replace_Forall; auto. Qed.

Lemma collapseBlankLines_Forall :
  forall (Q : char -> Prop) s, Q NL -> Forall Q s -> Forall Q (collapseBlankLines s).
Proof. intros Q s HNL H. unfold collapseBlankLines. apply replace_Forall; auto. Qed.

Lemma cleanJsonArrays_no_bracket :
  forall J s, ~ Exists (fun c => c = LBRACK) s -> cleanJsonArrays J s = s.
Proof.
  intros J s H. unfold cleanJsonArrays, replace_with.
  apply (replace_from_needs jsonArrayRe _ _ jsonArray_Needs). exact H.
Qed.

Lemma unmarked_no_bracket : forall s, Forall unmarked s -> ~ Exists (fun c => c = LBRACK) s.
Proof.
  intros s H. apply (Forall_not_Exists _ unmarked); [|exact H].
  intros x [_ [Hx _]] E. contradiction.
Qed.

Lemma clean_unfold :
  forall J s, s <> [] ->
    clean J s = trim (collapseBlankLines (removeArtifacts (fixIndentation
                  (removePipes (cleanJsonArrays J (removeBoxDrawing s)))))).
Proof. intros J s H. destruct s; [congruence | reflexivity]. Qed.

Lemma solid_inv :
  forall u, solid u = true ->
    exists c v d v', u = c :: v /\ u = v' ++ [d]
      /\ plainChar c = true /\ plainChar d = true
      /\ Forall (fun x => isWhiteSpace x = false) u.
Proof.
  intros u H. unfold solid in H.
  apply andb_true_iff in H. destruct H as [H Hd].
  apply andb_true_iff in H. destruct H as [Hws Hc].
  destruct u as [|c v]; [discriminate|].
  destruct (rev (c :: v)) as [|d w] eqn:Er; [discriminate|].
  exists c, v, d, (rev w). repeat split; auto.
  - rewrite <- (rev_involutive (c :: v)), Er. reflexivity.
  - rewrite forallb_forall in Hws. apply Forall_forall. intros x Hx.
    specialize (Hws x Hx). destruct (isWhiteSpace x); [discriminate | reflexivity].
Qed.

(** ** Greedy stars over a class

    What [Star true (Cls f)] does on a run [w] of characters of the class
    that ends where the class ends: it offers the continuation the
    longest prefix of the run first, then shorter and shorter ones. *)

Lemma rmatch_Cls_cons :
  forall fl f k p x rest cs,
    rmatch fl (Cls f) k {| pre := p; suf := x :: rest; caps := cs |}
    = if f x then k {| pre := x :: p; suf := rest; caps := cs |} else None.
Proof. reflexivity. Qed.

Lemma rmatch_Cls_nil :
  forall fl f k p cs, rmatch fl (Cls f) k {| pre := p; suf := []; caps := cs |} = None.
Proof. reflexivity. Qed.

Lemma rmatch_Chr_cons :
  forall fl c k p x rest cs,
    rmatch fl (Chr c) k {| pre := p; suf := x :: rest; caps := cs |}
    = if canonicalize fl x =? canonicalize fl c
      then k {| pre := x :: p; suf := rest; caps := cs |} else None.
Proof. reflexivity. Qed.

Lemma rmatch_Chr_nil :
  forall fl c k p cs, rmatch fl (Chr c) k {| pre := p; suf := []; caps := cs |} = None.
Proof. reflexivity. Qed.

Lemma rmatch_Seq :
  forall fl a b k st, rmatch fl (Seq a b) k st = rmatch fl a (rmatch fl b k) st.
Proof. reflexivity. Qed.

Lemma progressed_step :
  forall p cs x s p' cs',
    progressed {| pre := p; suf := x :: s; caps := cs |}
               {| pre := p'; suf := s; caps := cs' |} = true.
Proof. intros. unfold progressed. simpl. apply Nat.ltb_lt. lia. Qed.

Lemma star_cls_greedy :
  forall fl f k w rest p cs,
    Forall (fun x => f x = true) w -> stops f rest ->
    rmatch fl (Star true (Cls f)) k {| pre := p; suf := w ++ rest; caps := cs |}
    = greedy_run k p cs w rest.
Proof.
  intros fl f k w rest. induction w as [|x w IH]; intros p cs Hw Hrest.
  - rewrite rmatch_star_unfold. cbv zeta. rewrite app_nil_l.
    destruct rest as [|y rest].
    + rewrite rmatch_Cls_nil. reflexivity.
    + rewrite rmatch_Cls_cons. simpl in Hrest. rewrite Hrest. reflexivity.
  - inversion Hw as [|? ? Hx Hw']; subst.
    rewrite rmatch_star_unfold. cbv zeta. rewrite <- app_comm_cons.
    rewrite rmatch_Cls_cons, Hx, progressed_step.
    rewrite IH by assumption. reflexivity.
Qed.

(** When the continuation accepts the whole run, that is the match. *)
Lemma greedy_run_all :
  forall k w rest p cs r,
    k {| pre := rev w ++ p; suf := rest; caps := cs |} = Some r ->
    greedy_run k p cs w rest = Some r.
Proof.
  intros k w rest. induction w as [|x w IH]; intros p cs r H; simpl in *; [exact H|].
  rewrite (IH (x :: p) cs r); [reflexivity|].
  rewrite <- app_assoc in H. exact H.
Qed.

Lemma takeWhile_dropWhile : forall f s, s = takeWhile f s ++ dropWhile f s.
Proof.
  intros f s. induction s as [|c rest IH]; simpl; [reflexivity|].
  destruct (f c); simpl; [f_equal; exact IH | reflexivity].
Qed.

Lemma takeWhile_Forall : forall f s, Forall (fun x => f x = true) (takeWhile f s).
Proof.
  intros f s. induction s as [|c rest IH]; simpl; [constructor|].
  destruct (f c) eqn:E; constructor; assumption.
Qed.

Lemma dropWhile_stops : forall f s, stops f (dropWhile f s).
Proof.
  intros f s. induction s as [|c rest IH]; simpl; [exact I|].
  destruct (f c) eqn:E; [exact IH | simpl; exact E].
Qed.

Lemma dropWhile_length : forall f s, (length (dropWhile f s) <= length s)%nat.
Proof.
  intros f s. induction s as [|c rest IH]; simpl; [lia|].
  destruct (f c); simpl; lia.
Qed.

(** *** The white-space runs of the indentation rule *)

Lemma squash_true_dropWhile :
  forall s, squash true s = squash false (dropWhile isWhiteSpace s).
Proof.
  induction s as [|x rest IH]; simpl; [reflexivity|].
  destruct (isWhiteSpace x) eqn:E; [exact IH|]. simpl. rewrite E. reflexivity.
Qed.

Lemma match_here_wsRun :
  forall before after,
    match_here wsRunRe before after =
    match after with
    | x :: rest =>
        if isWhiteSpace x
        then Some {| pre := rev (takeWhile isWhiteSpace rest) ++ x :: before;
                     suf := dropWhile isWhiteSpace rest; caps := [] |}
        else None
    | [] => None
    end.
Proof.
  intros before after. unfold match_here, start_state.
  change (source wsRunRe) with (Seq (Cls isWhiteSpace) (Star true (Cls isWhiteSpace))).
  change (reflags wsRunRe) with flags_g.
  rewrite rmatch_Seq.
  destruct after as [|x rest]; [apply rmatch_Cls_nil|].
  rewrite rmatch_Cls_cons.
  destruct (isWhiteSpace x); [|reflexivity].
  rewrite (takeWhile_dropWhile isWhiteSpace rest) at 1.
  rewrite star_cls_greedy by (try apply takeWhile_Forall; apply dropWhile_stops).
  apply greedy_run_all. reflexivity.
Qed.

Lemma replace_wsRun_from :
  forall fuel before after, (length after < fuel)%nat ->
    replace_from wsRunRe (fun _ _ => [SP]) fuel before after = squash false after.
Proof.
  induction fuel as [|fuel IH]; intros before after Hlen; [lia|].
  simpl. rewrite match_here_wsRun.
  destruct after as [|x rest]; [reflexivity|]. simpl in Hlen. simpl.
  destruct (isWhiteSpace x) eqn:E.
  - unfold progressed. simpl.
    pose proof (dropWhile_length isWhiteSpace rest) as Hd.
    replace (length (dropWhile isWhiteSpace rest) <? S (length rest))%nat with true
      by (symmetry; apply Nat.ltb_lt; lia).
    rewrite IH by lia. rewrite squash_true_dropWhile. reflexivity.
  - rewrite IH by lia. reflexivity.
Qed.

Lemma replace_wsRun : forall l, replace wsRunRe [SP] l = squash false l.
Proof. intros l. unfold replace, replace_with. apply replace_wsRun_from. lia. Qed.

Lemma fixLine_squash : forall l, fixLine l = trim (squash false l).
Proof. intros l. unfold fixLine. rewrite replace_wsRun. reflexivity. Qed.

(** *** Neat lines: the fixed points of the indentation rule *)

Lemma okFrom_squash : forall l b, okFrom b (squash b l) = true.
Proof.
  induction l as [|x t IH]; intros b; simpl; [reflexivity|].
  destruct (isWhiteSpace x) eqn:E.
  - destruct b; [apply IH|]. simpl. rewrite IH. reflexivity.
  - simpl. rewrite E. apply IH.
Qed.

Lemma okFrom_dropWhile :
  forall l b, okFrom b l = true -> okFrom true (dropWhile isWhiteSpace l) = true.
Proof.
  induction l as [|x t IH]; intros b H; simpl in *; [reflexivity|].
  destruct (isWhiteSpace x) eqn:E.
  - apply andb_true_iff in H. destruct H as [_ H]. apply (IH true H).
  - simpl. rewrite E. exact H.
Qed.

Lemma okFrom_dropEnd :
  forall l b, okFrom b l = true ->
    dropEnd isWhiteSpace l = [] \/ neatFrom b (dropEnd isWhiteSpace l) = true.
Proof.
  induction l as [|x t IH]; intros b H; simpl in *; [left; reflexivity|].
  destruct (isWhiteSpace x) eqn:E.
  - apply andb_true_iff in H. destruct H as [H1 H].
    destruct (IH true H) as [Hd | Hd].
    + rewrite Hd. left. reflexivity.
    + destruct (dropEnd isWhiteSpace t) as [|k kept]; [left; reflexivity|].
      right. cbn [neatFrom]. rewrite E, H1. exact Hd.
  - destruct (IH false H) as [Hd | Hd].
    + rewrite Hd. right. simpl. rewrite E. reflexivity.
    + destruct (dropEnd isWhiteSpace t) as [|k kept];
        right; cbn [neatFrom]; rewrite E; [reflexivity | exact Hd].
Qed.

Lemma neat_fixLine : forall l, neat (fixLine l) = true.
Proof.
  intros l. rewrite fixLine_squash. unfold trim.
  pose proof (okFrom_dropWhile _ _ (okFrom_squash l false)) as H.
  destruct (okFrom_dropEnd _ _ H) as [Hd | Hd]; [rewrite Hd; reflexivity|].
  unfold neat. destruct (dropEnd isWhiteSpace _); [reflexivity | exact Hd].
Qed.

Lemma neatFrom_squash : forall l b, neatFrom b l = true -> squash b l = l.
Proof.
  induction l as [|x t IH]; intros b H; simpl in *; [reflexivity|].
  destruct (isWhiteSpace x) eqn:E.
  - apply andb_true_iff in H. destruct H as [H1 H].
    apply andb_true_iff in H1. destruct H1 as [Hx Hb].
    apply N.eqb_eq in Hx. subst x. destruct b; [discriminate|].
    rewrite (IH true H). reflexivity.
  - rewrite (IH false H). reflexivity.
Qed.

Lemma neatFrom_dropEnd : forall l b, neatFrom b l = true -> dropEnd isWhiteSpace l = l.
Proof.
  induction l as [|x t IH]; intros b H; simpl in *; [reflexivity|].
  destruct (isWhiteSpace x) eqn:E.
  - apply andb_true_iff in H. destruct H as [_ H].
    rewrite (IH true H). destruct t; [discriminate | reflexivity].
  - rewrite (IH false H). destruct t; reflexivity.
Qed.

Lemma fixLine_neat : forall l, neat l = true -> fixLine l = l.
Proof.
  intros l H. rewrite fixLine_squash. destruct l as [|x t]; [reflexivity|].
  unfold neat in H. pose proof H as H'. simpl in H'.
  destruct (isWhiteSpace x) eqn:E.
  { rewrite andb_false_r in H'. discriminate. }
  unfold trim. simpl squash. rewrite E. rewrite (neatFrom_squash t false H').
  simpl dropWhile. rewrite E. apply (neatFrom_dropEnd _ true H).
Qed.

Lemma neatFrom_no_NL : forall l b, neatFrom b l = true -> Forall (fun c => c <> NL) l.
Proof.
  induction l as [|x t IH]; intros b H; simpl in *; [constructor|].
  destruct (isWhiteSpace x) eqn:E.
  - apply andb_true_iff in H. destruct H as [H1 H].
    apply andb_true_iff in H1. destruct H1 as [Hx _]. apply N.eqb_eq in Hx. subst x.
    constructor; [discriminate | apply (IH true H)].
  - constructor; [intros ->; discriminate | apply (IH false H)].
Qed.

(** *** Tidy texts: what the indentation rule produces *)

Lemma not_ws_not_NL : forall x, isWhiteSpace x = false -> (x =? NL) = false.
Proof.
  intros x H. destruct (x =? NL) eqn:E; [|reflexivity].
  apply N.eqb_eq in E. subst x. discriminate.
Qed.

Lemma neatFrom_tidy_app :
  forall l b R, neatFrom b l = true -> tidy b (l ++ NL :: R) = tidy true R.
Proof.
  induction l as [|x t IH]; intros b R H; simpl in *.
  - destruct b; [discriminate | reflexivity].
  - destruct (isWhiteSpace x) eqn:E.
    + apply andb_true_iff in H. destruct H as [H1 H].
      apply andb_true_iff in H1. destruct H1 as [Hx Hb].
      pose proof Hx as Hx'. apply N.eqb_eq in Hx'. subst x.
      simpl. rewrite Hb. rewrite (IH true R H).
      destruct t as [|y t']; [discriminate|]. simpl in H |- *.
      destruct (isWhiteSpace y); [rewrite andb_false_r in H; discriminate | reflexivity].
    + rewrite (not_ws_not_NL x E). apply IH. exact H.
Qed.

Lemma neatFrom_tidy : forall l b, neatFrom b l = true -> tidy b l = true.
Proof.
  induction l as [|x t IH]; intros b H; simpl in *; [reflexivity|].
  destruct (isWhiteSpace x) eqn:E.
  - apply andb_true_iff in H. destruct H as [H1 H].
    apply andb_true_iff in H1. destruct H1 as [Hx Hb].
    pose proof Hx as Hx'. apply N.eqb_eq in Hx'. subst x.
    simpl. rewrite Hb. rewrite (IH true H).
    destruct t as [|y t']; [discriminate|]. simpl in H |- *.
    destruct (isWhiteSpace y); [rewrite andb_false_r in H; discriminate | reflexivity].
  - rewrite (not_ws_not_NL x E). apply IH. exact H.
Qed.

Lemma tidy_join :
  forall ls, Forall (fun l => neat l = true) ls -> tidy true (join NL ls) = true.
Proof.
  intros ls H. induction H as [|l ls Hl Hls IH]; [reflexivity|].
  destruct ls as [|l' ls'].
  - simpl. destruct l as [|x t]; [reflexivity|]. apply neatFrom_tidy. exact Hl.
  - rewrite join_cons by discriminate.
    destruct l as [|x t]; [exact IH|].
    rewrite neatFrom_tidy_app by exact Hl. exact IH.
Qed.

Lemma tidy_fixIndentation : forall s, tidy true (fixIndentation s) = true.
Proof.
  intros s. unfold fixIndentation. apply tidy_join.
  apply Forall_forall. intros l Hl. apply in_map_iff in Hl.
  destruct Hl as [l0 [<- _]]. apply neat_fixLine.
Qed.

Lemma tidy_split :
  forall T b, tidy b T = true ->
    forall l0 ls, split NL T = l0 :: ls ->
      Forall (fun l => neat l = true) ls /\ (l0 = [] \/ neatFrom b l0 = true).
Proof.
  induction T as [|x t IH]; intros b H l0 ls Hs; simpl in *.
  - inversion Hs; subst. split; [constructor | left; reflexivity].
  - destruct (x =? NL) eqn:Ex.
    + inversion Hs; subst. split; [|left; reflexivity].
      pose proof (split_not_nil NL t) as Hne.
      destruct (split NL t) as [|l1 ls1] eqn:Es; [congruence|].
      destruct (IH true H l1 ls1 eq_refl) as [HF Hl1].
      constructor; [|exact HF].
      destruct Hl1 as [-> | Hl1]; [reflexivity|].
      destruct l1; [reflexivity | exact Hl1].
    + pose proof (split_not_nil NL t) as Hne.
      destruct (split NL t) as [|l1 ls1] eqn:Es; [congruence|].
      inversion Hs; subst.
      destruct (isWhiteSpace x) eqn:E.
      * apply andb_true_iff in H. destruct H as [H1 H].
        apply andb_true_iff in H1. destruct H1 as [H1 Hn].
        destruct (IH true H l1 ls eq_refl) as [HF Hl1].
        split; [exact HF|]. right. simpl. rewrite E, H1. simpl.
        destruct Hl1 as [-> | Hl1]; [|exact Hl1].
        destruct t as [|y t']; [discriminate|]. simpl in Hn, Es.
        apply negb_true_iff in Hn. rewrite (not_ws_not_NL y Hn) in Es.
        destruct (split NL t'); discriminate.
      * destruct (IH false H l1 ls eq_refl) as [HF Hl1].
        split; [exact HF|]. right. simpl. rewrite E.
        destruct Hl1 as [-> | Hl1]; [reflexivity | exact Hl1].
Qed.

Lemma tidy_lines : forall T, tidy true T = true -> Forall (fun l => neat l = true) (split NL T).
Proof.
  intros T H. pose proof (split_not_nil NL T) as Hne.
  destruct (split NL T) as [|l0 ls] eqn:Es; [congruence|].
  destruct (tidy_split T true H l0 ls Es) as [HF Hl0].
  constructor; [|exact HF].
  destruct Hl0 as [-> | Hl0]; [reflexivity|]. destruct l0; [reflexivity | exact Hl0].
Qed.

Lemma map_fixed :
  forall (g : jsstring -> jsstring) ls, Forall (fun l => g l = l) ls -> map g ls = ls.
Proof.
  intros g ls H. induction H as [|l ls Hl _ IH]; simpl; [reflexivity|].
  rewrite Hl, IH. reflexivity.
Qed.

(** The indentation rule leaves a tidy text as it is. *)
Lemma fixIndentation_tidy : forall T, tidy true T = true -> fixIndentation T = T.
Proof.
  intros T H. unfold fixIndentation. rewrite map_fixed; [apply join_split|].
  eapply Forall_impl; [|apply tidy_lines; exact H].
  intros l Hl. apply fixLine_neat. exact Hl.
Qed.

Lemma tidy_true_any : forall T b, tidy true T = true -> tidy b T = true.
Proof.
  intros T b H. destruct T as [|x t]; [reflexivity|]. simpl in *.
  destruct (x =? NL); [exact H|]. destruct (isWhiteSpace x); [|exact H].
  rewrite andb_false_r in H. discriminate.
Qed.

Lemma tidy_squeeze : forall T b k, tidy b T = true -> tidy b (squeeze k T) = true.
Proof.
  induction T as [|x t IH]; intros b k H; simpl in *; [reflexivity|].
  destruct (x =? NL) eqn:Ex.
  - destruct (k <? 2)%nat.
    + simpl. apply IH. exact H.
    + apply tidy_true_any. apply IH. exact H.
  - simpl. rewrite Ex. destruct (isWhiteSpace x) eqn:E.
    + apply andb_true_iff in H. destruct H as [H1 H].
      apply andb_true_iff in H1. destruct H1 as [H1 Hn].
      rewrite H1, (IH true O H). simpl.
      destruct t as [|y t']; [discriminate|]. simpl in Hn |- *.
      apply negb_true_iff in Hn. rewrite (not_ws_not_NL y Hn). simpl.
      rewrite Hn. reflexivity.
    + apply IH. exact H.
Qed.

Lemma tidy_dropWhile :
  forall T b, tidy b T = true -> tidy true (dropWhile isWhiteSpace T) = true.
Proof.
  induction T as [|x t IH]; intros b H; simpl in *; [reflexivity|].
  destruct (isWhiteSpace x) eqn:E.
  - destruct (x =? NL); [apply (IH true H)|].
    apply andb_true_iff in H. destruct H as [_ H]. apply (IH true H).
  - simpl. rewrite (not_ws_not_NL x E), E in *. exact H.
Qed.

Lemma dropEnd_head :
  forall f y t, f y = false -> exists t', dropEnd f (y :: t) = y :: t'.
Proof.
  intros f y t Hy. simpl. destruct (dropEnd f t) as [|k kept].
  - rewrite Hy. exists []. reflexivity.
  - exists (k :: kept). reflexivity.
Qed.

Lemma tidy_cons :
  forall b x t,
    tidy b (x :: t) =
    if x =? NL then tidy true t
    else if isWhiteSpace x then (x =? SP) && negb b && nextPlain t && tidy true t
    else tidy false t.
Proof. reflexivity. Qed.

Lemma tidy_dropEnd :
  forall T b, tidy b T = true -> tidy b (dropEnd isWhiteSpace T) = true.
Proof.
  induction T as [|x t IH]; intros b H; [reflexivity|].
  cbn [dropEnd]. rewrite tidy_cons in H.
  destruct (dropEnd isWhiteSpace t) as [|k kept] eqn:Ed.
  - destruct (isWhiteSpace x) eqn:E; [reflexivity|].
    rewrite tidy_cons. rewrite (not_ws_not_NL x E), E. reflexivity.
  - rewrite tidy_cons. destruct (x =? NL) eqn:Ex.
    + apply (IH true H).
    + destruct (isWhiteSpace x) eqn:E.
      * apply andb_true_iff in H. destruct H as [H1 H].
        apply andb_true_iff in H1. destruct H1 as [H1 Hn].
        rewrite H1. rewrite (IH true H).
        destruct t as [|y t']; [discriminate|]. simpl in Hn.
        apply negb_true_iff in Hn.
        destruct (dropEnd_head isWhiteSpace y t' Hn) as [t'' Ht]. rewrite Ht in Ed.
        inversion Ed; subst. simpl. rewrite Hn. reflexivity.
      * apply (IH false H).
Qed.

Lemma tidy_trim : forall T, tidy true T = true -> tidy true (trim T) = true.
Proof.
  intros T H. unfold trim. apply tidy_dropEnd. apply (tidy_dropWhile T true H).
Qed.

(** *** Short runs of newlines *)

Lemma short_squeeze : forall s k, (k <= 2)%nat -> short k (squeeze k s) = true.
Proof.
  induction s as [|x t IH]; intros k Hk; simpl; [reflexivity|].
  destruct (x =? NL) eqn:Ex.
  - destruct (k <? 2)%nat eqn:Ek.
    + simpl. rewrite Ek. apply Nat.ltb_lt in Ek. apply IH. lia.
    + apply IH. exact Hk.
  - simpl. rewrite Ex. apply IH. lia.
Qed.

Lemma squeeze_short : forall s k, short k s = true -> squeeze k s = s.
Proof.
  induction s as [|x t IH]; intros k H; simpl in *; [reflexivity|].
  destruct (x =? NL) eqn:Ex.
  - apply andb_true_iff in H. destruct H as [Hk H]. rewrite Hk.
    apply N.eqb_eq in Ex. subst x. rewrite (IH _ H). reflexivity.
  - rewrite (IH _ H). reflexivity.
Qed.

Lemma short_mono :
  forall s k k', short k s = true -> (k' <= k)%nat -> short k' s = true.
Proof.
  induction s as [|x t IH]; intros k k' H Hk; simpl in *; [reflexivity|].
  destruct (x =? NL); [|exact H].
  apply andb_true_iff in H. destruct H as [H1 H]. apply Nat.ltb_lt in H1.
  apply andb_true_iff. split; [apply Nat.ltb_lt; lia|].
  apply (IH (S k)); [exact H | lia].
Qed.

Lemma short_dropWhile :
  forall f s k, short k s = true -> short O (dropWhile f s) = true.
Proof.
  intros f. induction s as [|x t IH]; intros k H; simpl in *; [reflexivity|].
  destruct (f x).
  - destruct (x =? NL); [|apply (IH O H)].
    apply andb_true_iff in H. destruct H as [_ H]. apply (IH _ H).
  - apply (short_mono (x :: t) k O); [exact H | lia].
Qed.

Lemma short_dropEnd :
  forall f s k, short k s = true -> short k (dropEnd f s) = true.
Proof.
  intros f. induction s as [|x t IH]; intros k H; [reflexivity|].
  cbn [dropEnd]. simpl in H.
  destruct (dropEnd f t) as [|c kept] eqn:Ed.
  - destruct (f x); [reflexivity|]. simpl.
    destruct (x =? NL); [|reflexivity].
    apply andb_true_iff in H. destruct H as [H1 _]. rewrite H1. reflexivity.
  - simpl. destruct (x =? NL).
    + apply andb_true_iff in H. destruct H as [H1 H]. rewrite H1.
      exact (IH _ H).
    + exact (IH _ H).
Qed.

Lemma short_trim : forall s, short O s = true -> short O (trim s) = true.
Proof.
  intros s H. unfold trim. apply short_dropEnd. apply (short_dropWhile _ s O H).
Qed.

(** *** [trim] twice *)

Lemma dropEnd_cons :
  forall f x t,
    dropEnd f (x :: t) =
    match dropEnd f t with
    | [] => if f x then [] else [x]
    | kept => x :: kept
    end.
Proof. reflexivity. Qed.

Lemma dropEnd_idem : forall f s, dropEnd f (dropEnd f s) = dropEnd f s.
Proof.
  intros f. induction s as [|x t IH]; [reflexivity|].
  rewrite dropEnd_cons. destruct (dropEnd f t) as [|c kept] eqn:Ed.
  - destruct (f x) eqn:E; [reflexivity|]. simpl. rewrite E. reflexivity.
  - rewrite dropEnd_cons, IH. reflexivity.
Qed.

Lemma dropWhile_fixed : forall f s, stops f s -> dropWhile f s = s.
Proof. intros f [|x t] H; simpl in *; [reflexivity | rewrite H; reflexivity]. Qed.

Lemma dropEnd_stops : forall f s, stops f s -> stops f (dropEnd f s).
Proof.
  intros f [|x t] H; [exact I|]. simpl in H.
  destruct (dropEnd_head f x t H) as [t' Ht]. rewrite Ht. exact H.
Qed.

Lemma trim_idem : forall s, trim (trim s) = trim s.
Proof.
  intros s. unfold trim.
  rewrite (dropWhile_fixed isWhiteSpace (dropEnd isWhiteSpace (dropWhile isWhiteSpace s))).
  - apply dropEnd_idem.
  - apply dropEnd_stops. apply dropWhile_stops.
Qed.

(** *** The blank-line rule on a tidy text *)

Lemma repeat_snoc : forall (x : char) n, repeat x n ++ [x] = x :: repeat x n.
Proof. intros x n. induction n as [|n IH]; simpl; [reflexivity | rewrite IH; reflexivity]. Qed.

Lemma repeat_shift :
  forall (x : char) n p, repeat x n ++ x :: p = x :: repeat x n ++ p.
Proof.
  intros x n p. change (x :: p) with ([x] ++ p). rewrite app_assoc, repeat_snoc. reflexivity.
Qed.

Lemma stops_not_NL :
  forall fl k p y rest cs,
    fl_ignoreCase fl = false -> stops isWhiteSpace (y :: rest) ->
    rmatch fl (Chr NL) k {| pre := p; suf := y :: rest; caps := cs |} = None.
Proof.
  intros fl k p y rest cs Hfl H. rewrite rmatch_Chr_cons.
  unfold canonicalize. rewrite Hfl. simpl in H |- *.
  rewrite (not_ws_not_NL y H). reflexivity.
Qed.

Lemma NL_matches :
  forall fl k p rest cs,
    fl_ignoreCase fl = false ->
    rmatch fl (Chr NL) k {| pre := p; suf := NL :: rest; caps := cs |}
    = k {| pre := NL :: p; suf := rest; caps := cs |}.
Proof.
  intros fl k p rest cs Hfl. rewrite rmatch_Chr_cons.
  unfold canonicalize. rewrite Hfl. reflexivity.
Qed.

(** The last [\s*\n] of the pattern, on a run of [j] newlines. *)
Lemma blank_tail_run :
  forall j rest p cs, stops isWhiteSpace rest ->
    greedy_run (rmatch flags_g (Chr NL) Some) p cs (repeat NL j) rest
    = if (1 <=? j)%nat
      then Some {| pre := repeat NL j ++ p; suf := rest; caps := cs |}
      else None.
Proof.
  induction j as [|j IH]; intros rest p cs Hrest.
  - simpl. destruct rest as [|y rest]; [reflexivity|].
    apply stops_not_NL; [reflexivity | exact Hrest].
  - cbn [repeat greedy_run]. rewrite IH by exact Hrest.
    destruct j as [|j].
    + reflexivity.
    + cbn [Nat.leb orElse]. rewrite repeat_shift. reflexivity.
Qed.

(** The middle [\n\s*\n] of the pattern, on a run of [j] newlines. *)
Lemma blank_middle_run :
  forall j rest p cs, stops isWhiteSpace rest ->
    rmatch flags_g blankMiddle Some {| pre := p; suf := repeat NL j ++ rest; caps := cs |}
    = if (2 <=? j)%nat
      then Some {| pre := repeat NL j ++ p; suf := rest; caps := cs |}
      else None.
Proof.
  intros j rest p cs Hrest. unfold blankMiddle. rewrite rmatch_Seq.
  destruct j as [|j].
  - simpl repeat. rewrite app_nil_l. destruct rest as [|y rest]; [reflexivity|].
    apply stops_not_NL; [reflexivity | exact Hrest].
  - cbn [repeat]. rewrite <- app_comm_cons. rewrite NL_matches by reflexivity.
    rewrite rmatch_Seq. unfold ws. rewrite star_cls_greedy;
      [|apply Forall_forall; intros x Hx; apply repeat_spec in Hx; subst; reflexivity
       |exact Hrest].
    rewrite blank_tail_run by exact Hrest.
    destruct j as [|j]; [reflexivity|]. cbn [Nat.leb]. rewrite repeat_shift. reflexivity.
Qed.

Lemma blank_outer_run :
  forall n rest p cs, stops isWhiteSpace rest ->
    greedy_run (rmatch flags_g blankMiddle Some) p cs (repeat NL n) rest
    = if (2 <=? n)%nat
      then Some {| pre := repeat NL n ++ p; suf := rest; caps := cs |}
      else None.
Proof.
  induction n as [|n IH]; intros rest p cs Hrest.
  - cbn [repeat greedy_run]. apply (blank_middle_run O rest p cs Hrest).
  - cbn [repeat greedy_run]. rewrite IH by exact Hrest.
    destruct (2 <=? n)%nat eqn:E.
    + cbn [orElse]. apply Nat.leb_le in E.
      replace (2 <=? S n)%nat with true by (symmetry; apply Nat.leb_le; lia).
      rewrite repeat_shift. reflexivity.
    + cbn [orElse]. apply (blank_middle_run (S n) rest p cs Hrest).
Qed.

Lemma match_here_blankRun_NL :
  forall before n rest, stops isWhiteSpace rest ->
    match_here blankRunRe before (NL :: repeat NL n ++ rest)
    = if (2 <=? n)%nat
      then Some {| pre := repeat NL n ++ NL :: before; suf := rest; caps := [] |}
      else None.
Proof.
  intros before n rest Hrest. unfold match_here, start_state.
  change (source blankRunRe)
    with (Seq (Chr NL) (Seq (Star true (Cls isWhiteSpace)) blankMiddle)).
  change (reflags blankRunRe) with flags_g.
  rewrite rmatch_Seq, NL_matches by reflexivity.
  rewrite rmatch_Seq.
  rewrite star_cls_greedy;
    [|apply Forall_forall; intros x Hx; apply repeat_spec in Hx; subst; reflexivity
     |exact Hrest].
  apply blank_outer_run. exact Hrest.
Qed.

Lemma match_here_blankRun_other :
  forall before x rest, (x =? NL) = false ->
    match_here blankRunRe before (x :: rest) = None.
Proof.
  intros before x rest Hx. unfold match_here, start_state.
  change (source blankRunRe)
    with (Seq (Chr NL) (Seq (Star true (Cls isWhiteSpace)) blankMiddle)).
  change (reflags blankRunRe) with flags_g.
  rewrite rmatch_Seq, rmatch_Chr_cons. unfold canonicalize. simpl.
  rewrite Hx. reflexivity.
Qed.

(** After a newline of a tidy text come newlines and then a character
    that is not white, or the end. *)
Lemma tidy_run :
  forall t, tidy true t = true ->
    exists n rest, t = repeat NL n ++ rest /\ stops isWhiteSpace rest
      /\ tidy true rest = true /\ stops (fun x => x =? NL) rest.
Proof.
  induction t as [|x t IH]; intros H.
  - exists O, []. repeat split.
  - rewrite tidy_cons in H. destruct (x =? NL) eqn:Ex.
    + apply N.eqb_eq in Ex. subst x.
      destruct (IH H) as [n [rest [Ht [Hs [Hr Hn]]]]].
      exists (S n), rest. rewrite Ht. repeat split; assumption.
    + destruct (isWhiteSpace x) eqn:E.
      * rewrite andb_false_r in H. discriminate.
      * exists O, (x :: t). split; [reflexivity|]. split; [exact E|].
        split; [rewrite tidy_cons, Ex, E; exact H | exact Ex].
Qed.

Lemma squeeze_stop :
  forall k rest, stops (fun x => x =? NL) rest -> squeeze k rest = squeeze O rest.
Proof.
  intros k [|y rest] H; [reflexivity|]. simpl in H |- *. rewrite H. reflexivity.
Qed.

Lemma squeeze_2_run :
  forall n rest, squeeze 2 (repeat NL n ++ rest) = squeeze 2 rest.
Proof. induction n as [|n IH]; intros rest; simpl; [reflexivity | apply IH]. Qed.

Lemma tidy_tail : forall b x t, tidy b (x :: t) = true -> exists b', tidy b' t = true.
Proof.
  intros b x t H. rewrite tidy_cons in H. destruct (x =? NL); [exists true; exact H|].
  destruct (isWhiteSpace x); [|exists false; exact H].
  apply andb_true_iff in H. destruct H as [_ H]. exists true. exact H.
Qed.

Lemma replace_blankRun_from :
  forall fuel before after b, (length after < fuel)%nat -> tidy b after = true ->
    replace_from blankRunRe (fun _ _ => [NL; NL]) fuel before after = squeeze O after.
Proof.
  induction fuel as [|fuel IH]; intros before after b Hlen Ht; [lia|].
  destruct after as [|x t]; [reflexivity|].
  cbn [replace_from]. simpl in Hlen.
  destruct (x =? NL) eqn:Ex.
  - apply N.eqb_eq in Ex. subst x.
    rewrite tidy_cons in Ht. simpl in Ht.
    destruct (tidy_run t Ht) as [n [rest [Et [Hs [Hr Hn]]]]]. subst t.
    rewrite match_here_blankRun_NL by exact Hs.
    rewrite length_app, repeat_length in Hlen.
    destruct (2 <=? n)%nat eqn:En.
    + cbn [reflags blankRunRe fl_global flags_g negb suf pre caps].
      assert (Hp : progressed (start_state before (NL :: repeat NL n ++ rest))
                     {| pre := repeat NL n ++ NL :: before; suf := rest; caps := [] |} = true).
      { unfold progressed. simpl. apply Nat.ltb_lt. rewrite length_app. lia. }
      rewrite Hp.
      rewrite (IH _ rest true) by (try exact Hr; lia).
      apply Nat.leb_le in En.
      destruct n as [|[|n]]; [lia | lia |].
      simpl. rewrite squeeze_2_run. rewrite (squeeze_stop 2 rest Hn). reflexivity.
    + rewrite (IH _ _ true) by (try exact Ht; rewrite length_app, repeat_length; lia).
      simpl. f_equal. apply Nat.leb_gt in En.
      destruct n as [|[|n]]; [| |lia].
      * simpl. symmetry. apply squeeze_stop. exact Hn.
      * simpl. rewrite (squeeze_stop 2 rest Hn), (squeeze_stop 1 rest Hn). reflexivity.
  - rewrite match_here_blankRun_other by exact Ex.
    destruct (tidy_tail b x t Ht) as [b' Ht'].
    rewrite (IH _ t b') by (try exact Ht'; lia).
    simpl. rewrite Ex. reflexivity.
Qed.

Lemma collapseBlankLines_tidy :
  forall T, tidy true T = true -> collapseBlankLines T = squeeze O T.
Proof.
  intros T H. unfold collapseBlankLines, replace, replace_with.
  apply (replace_blankRun_from _ _ _ true); [lia | exact H].
Qed.

(** ** Quiet texts: only the white-space rules act *)

Lemma filter_all :
  forall (p : jsstring -> bool) ls, Forall (fun l => p l = true) ls -> filter p ls = ls.
Proof.
  intros p ls H. induction H as [|l ls Hl _ IH]; simpl; [reflexivity|].
  rewrite Hl, IH. reflexivity.
Qed.

Lemma removeBoxDrawing_quiet :
  forall s, Forall (fun c => isBoxChar c = false) s -> removeBoxDrawing s = s.
Proof.
  intros s H. unfold removeBoxDrawing.
  pose proof (split_Forall _ NL s H) as HL.
  assert (Hno : forall l, Forall (fun c => isBoxChar c = false) l ->
                          ~ Exists (fun c => isBoxChar c = true) l).
  { intros l Hl. apply (Forall_not_Exists _ _ l) with (2 := Hl). intros c Hc. congruence. }
  rewrite filter_all.
  - rewrite map_fixed; [apply join_split|].
    eapply Forall_impl; [|exact HL]. intros l Hl. cbv beta.
    rewrite (replace_needs boxLeadRe _ [] l boxLead_Needs (Hno l Hl)).
    apply (replace_needs boxTrailRe _ [] l boxTrail_Needs (Hno l Hl)).
  - eapply Forall_impl; [|exact HL]. intros l Hl. cbv beta. unfold test.
    rewrite (search_needs boxOnlyRe _ boxOnly_Needs l [] (Hno l Hl)). reflexivity.
Qed.

Lemma removePipes_quiet :
  forall s, Forall (fun c => c <> PIPE) s -> removePipes s = s.
Proof.
  intros s H. unfold removePipes.
  pose proof (split_Forall _ NL s H) as HL.
  rewrite map_fixed; [apply join_split|].
  eapply Forall_impl; [|exact HL]. intros l Hl. cbv beta.
  assert (Hno : ~ Exists (fun c => c = PIPE) l).
  { apply (Forall_not_Exists _ _ l) with (2 := Hl). intros c Hc. exact Hc. }
  rewrite (replace_needs pipeLeadRe _ [] l pipeLead_Needs Hno).
  apply (replace_needs pipeTrailRe _ [] l pipeTrail_Needs Hno).
Qed.

Lemma removeArtifacts_quiet :
  forall s, Forall quiet s -> removeArtifacts s = s.
Proof.
  intros s H. unfold removeArtifacts.
  rewrite (replace_needs ansiRe _ [] s ansi_Needs).
  2:{ apply (Forall_not_Exists _ quiet); [|exact H].
      intros c [_ [_ [Hc _]]] E. contradiction. }
  rewrite (replace_needs promptRe _ [] s prompt_Needs).
  2:{ apply (Forall_not_Exists _ quiet); [|exact H].
      intros c [_ [_ [_ [Hc _]]]] E. congruence. }
  apply (replace_needs shellRe _ [] s shell_Needs).
  apply (Forall_not_Exists _ quiet); [|exact H].
  intros c [_ [_ [_ [_ [Hc _]]]]] E. contradiction.
Qed.

Lemma quiet_NL : quiet NL.
Proof. repeat split; discriminate. Qed.

Lemma quiet_SP : quiet SP.
Proof. repeat split; discriminate. Qed.

(** On a quiet text the pipeline is: normalise the lines, shorten the
    runs of blank lines, trim. *)
Lemma clean_quiet :
  forall J s, s <> [] -> Forall quiet s ->
    clean J s = trim (squeeze O (fixIndentation s)).
Proof.
  intros J s Hne H. rewrite (clean_unfold J s Hne).
  rewrite removeBoxDrawing_quiet
    by (eapply Forall_impl; [|exact H]; intros c Hc; apply Hc).
  rewrite cleanJsonArrays_no_bracket.
  2:{ apply (Forall_not_Exists _ quiet); [|exact H].
      intros c [_ [_ [_ [_ [_ Hc]]]]] E. contradiction. }
  rewrite removePipes_quiet
    by (eapply Forall_impl; [|exact H]; intros c Hc; apply Hc).
  rewrite removeArtifacts_quiet
    by (apply fixIndentation_Forall; [exact quiet_NL | exact quiet_SP | exact H]).
  rewrite collapseBlankLines_tidy by apply tidy_fixIndentation.
  reflexivity.
Qed.

Lemma squeeze_Forall :
  forall (Q : char -> Prop) s k, Forall Q s -> Forall Q (squeeze k s).
Proof.
  intros Q s. induction s as [|x t IH]; intros k H; simpl; [constructor|].
  inversion H; subst. destruct (x =? NL) eqn:E.
  - apply N.eqb_eq in E. subst x. destruct (k <? 2)%nat; [constructor|]; auto.
  - constructor; auto.
Qed.

(** ** Captures *)

Lemma Matches_caps :
  forall fl r st st', Matches fl r st st' -> GroupFree r -> caps st' = caps st.
Proof.
  intros fl r st st' H.
  induction H; intros HG; try reflexivity; inversion HG; subst; auto.
  - rewrite IHMatches2, IHMatches1 by assumption. reflexivity.
  - rewrite IHMatches2, IHMatches1 by (try assumption; constructor; assumption). reflexivity.
Qed.

Lemma Matches_Seq_inv :
  forall fl a b st st', Matches fl (Seq a b) st st' ->
    exists m, Matches fl a st m /\ Matches fl b m st'.
Proof. intros fl a b st st' H. inversion H; subst. eauto. Qed.

Lemma Matches_Alt_inv :
  forall fl a b st st', Matches fl (Alt a b) st st' ->
    Matches fl a st st' \/ Matches fl b st st'.
Proof. intros fl a b st st' H. inversion H; subst; auto. Qed.

Lemma Matches_Group_inv :
  forall fl i a st st', Matches fl (Group i a) st st' ->
    exists m, Matches fl a st m /\ st' = set_cap i st m.
Proof. intros fl i a st st' H. inversion H; subst. eauto. Qed.

Lemma Matches_Eps_inv : forall fl st st', Matches fl Eps st st' -> st' = st.
Proof. intros fl st st' H. inversion H; subst. reflexivity. Qed.

Lemma Matches_Bol_inv :
  forall fl st st', Matches fl Bol st st' -> st' = st /\ at_bol fl st = true.
Proof. intros fl st st' H. inversion H; subst. auto. Qed.

Lemma Matches_Eol_inv :
  forall fl st st', Matches fl Eol st st' -> st' = st /\ at_eol fl st = true.
Proof. intros fl st st' H. inversion H; subst. auto. Qed.

Lemma Matches_Chr_inv :
  forall fl c st st', Matches fl (Chr c) st st' ->
    exists x rest, suf st = x :: rest /\ canonicalize fl x = canonicalize fl c
      /\ st' = advance x rest st.
Proof. intros fl c st st' H. inversion H; subst. eauto. Qed.

(** A literal reads itself when case matters. *)
Lemma Matches_Lit_inv :
  forall fl s st st', fl_ignoreCase fl = false -> Matches fl (Lit s) st st' ->
    Reads st s st' /\ caps st' = caps st.
Proof.
  intros fl s. induction s as [|c s IH]; intros st st' Hfl H; simpl in H.
  - apply Matches_Eps_inv in H. subst. split; [apply Reads_nil | reflexivity].
  - apply Matches_Seq_inv in H. destruct H as [m [H1 H2]].
    apply Matches_Chr_inv in H1. destruct H1 as [x [rest [Hs [Hc ->]]]].
    apply canonicalize_plain in Hc; [|exact Hfl]. subst x.
    destruct (IH _ _ Hfl H2) as [[Hr1 Hr2] Hcaps]. unfold advance in *. simpl in *.
    split; [|exact Hcaps]. split; simpl.
    + rewrite Hs, Hr1. reflexivity.
    + rewrite Hr2. rewrite <- app_assoc. reflexivity.
Qed.

(** Building matches. *)
Lemma Matches_Lit_intro :
  forall fl s p rest cs,
    Matches fl (Lit s) {| pre := p; suf := s ++ rest; caps := cs |}
                       {| pre := rev s ++ p; suf := rest; caps := cs |}.
Proof.
  intros fl s. induction s as [|c s IH]; intros p rest cs; simpl.
  - constructor.
  - eapply MSeq.
    + apply (MChr fl c c (s ++ rest)); reflexivity.
    + unfold advance. simpl. rewrite <- app_assoc. apply IH.
Qed.

Lemma Matches_Star_intro :
  forall fl g f w p rest cs, Forall (fun x => f x = true) w ->
    Matches fl (Star g (Cls f)) {| pre := p; suf := w ++ rest; caps := cs |}
                                {| pre := rev w ++ p; suf := rest; caps := cs |}.
Proof.
  intros fl g f w. induction w as [|x w IH]; intros p rest cs Hw; simpl.
  - constructor.
  - inversion Hw; subst. eapply MStarS.
    + apply (MCls fl f x (w ++ rest)); [reflexivity | assumption].
    + apply progressed_step.
    + unfold advance. simpl. rewrite <- app_assoc. apply IH. assumption.
Qed.

Lemma Matches_Chr_intro :
  forall fl c p rest cs,
    Matches fl (Chr c) {| pre := p; suf := c :: rest; caps := cs |}
                       {| pre := c :: p; suf := rest; caps := cs |}.
Proof. intros. apply (MChr fl c c rest); reflexivity. Qed.

Lemma Matches_skip :
  forall fl a st, Matches fl (Opt a) st st.
Proof. intros. apply MAltR. constructor. Qed.

(** ** The JSON-array pattern on a labelled, quoted array *)

Lemma jsonArrayRe_source :
  source jsonArrayRe
  = Seq Bol (Seq (Opt (Group 1 jsonPrefix)) (Seq (Group 2 jsonBody) Eol)).
Proof. reflexivity. Qed.

Lemma Matches_Star_inv :
  forall fl g a st st', Matches fl (Star g a) st st' ->
    st' = st \/ exists m, Matches fl a st m /\ progressed st m = true
                          /\ Matches fl (Star g a) m st'.
Proof. intros fl g a st st' H. inversion H; subst; eauto. Qed.

Lemma Matches_Cls_inv :
  forall fl f st st', Matches fl (Cls f) st st' ->
    exists x rest, suf st = x :: rest /\ f x = true /\ st' = advance x rest st.
Proof. intros fl f st st' H. inversion H; subst. eauto. Qed.

Lemma jsonBody_head :
  forall st st', Matches flags_gm jsonBody st st' ->
    exists x rest, suf st = x :: rest /\ (x = LBRACK \/ x = DQ).
Proof.
  intros st st' H. unfold jsonBody in H. simpl Seqs in H.
  apply Matches_Seq_inv in H. destruct H as [m1 [H1 H]].
  apply Matches_Alt_inv in H1. destruct H1 as [H1 | H1].
  { apply Matches_Chr_inv in H1. destruct H1 as [x [rest [Hs [Hc _]]]].
    apply canonicalize_plain in Hc; [|reflexivity]. eauto. }
  apply Matches_Eps_inv in H1. subst m1.
  apply Matches_Seq_inv in H. destruct H as [m2 [H2 H]].
  apply Matches_Alt_inv in H2. destruct H2 as [H2 | H2].
  { apply Matches_Chr_inv in H2. destruct H2 as [x [rest [Hs [Hc _]]]].
    apply canonicalize_plain in Hc; [|reflexivity]. eauto. }
  apply Matches_Eps_inv in H2. subst m2.
  apply Matches_Seq_inv in H. destruct H as [m3 [H3 _]].
  apply Matches_Chr_inv in H3. destruct H3 as [x [rest [Hs [Hc _]]]].
  apply canonicalize_plain in Hc; [|reflexivity]. eauto.
Qed.

Lemma jsonPrefix_head :
  forall st st', Matches flags_gm jsonPrefix st st' ->
    exists x rest, suf st = x :: rest /\ (isWhiteSpace x = true \/ x = 116).
Proof.
  intros st st' H. unfold jsonPrefix in H.
  apply Matches_Seq_inv in H. destruct H as [m1 [H1 H]].
  apply Matches_Star_inv in H1. destruct H1 as [-> | [m [Hc _]]].
  - apply Matches_Seq_inv in H. destruct H as [m2 [H2 _]].
    change (Lit tsuf) with (Seq (Chr 116) (Lit (str "emplate_suffixes"))) in H2.
    apply Matches_Seq_inv in H2. destruct H2 as [m3 [H3 _]].
    apply Matches_Chr_inv in H3. destruct H3 as [x [rest [Hs [Hc _]]]].
    apply canonicalize_plain in Hc; [|reflexivity]. eauto.
  - apply Matches_Cls_inv in Hc. destruct Hc as [x [rest [Hs [Hx _]]]]. eauto.
Qed.

Lemma jsonPrefix_word :
  forall st st', Matches flags_gm jsonPrefix st st' ->
    exists wa wb, Reads st (wa ++ tsuf ++ wb) st'
      /\ Forall White wa /\ Forall White wb /\ caps st' = caps st.
Proof.
  intros st st' H.
  assert (Hcaps : caps st' = caps st).
  { apply (Matches_caps _ _ _ _ H). unfold jsonPrefix, tsuf. simpl. repeat constructor. }
  unfold jsonPrefix in H.
  apply Matches_Seq_inv in H. destruct H as [m1 [H1 H]].
  apply Matches_Seq_inv in H. destruct H as [m2 [H2 H3]].
  destruct (Matches_word _ _ _ _ H1) as [wa [Ra [Aa _]]].
  destruct (Matches_word _ _ _ _ H3) as [wb [Rb [Ab _]]].
  destruct (Matches_Lit_inv flags_gm tsuf m1 m2 eq_refl H2) as [Rt _].
  exists wa, wb. split; [|split; [|split]].
  - eapply Reads_app; [exact Ra|]. eapply Reads_app; eauto.
  - apply Aa. repeat constructor. intros x Hx. exact Hx.
  - apply Ab. repeat constructor. intros x Hx. exact Hx.
  - exact Hcaps.
Qed.

Lemma jsonBody_GroupFree : GroupFree jsonBody.
Proof. unfold jsonBody, Opt. simpl. repeat constructor. Qed.

Lemma quoted_no_LT :
  forall body, Forall (fun c => isDot c = true) body ->
    Forall (fun c => isLineTerminator c = false) (quoted body).
Proof.
  intros body H. unfold quoted.
  constructor; [reflexivity|]. constructor; [reflexivity|].
  apply Forall_app. split; [|repeat constructor].
  eapply Forall_impl; [|exact H]. intros c Hc. unfold isDot in Hc.
  apply negb_true_iff in Hc. exact Hc.
Qed.

Lemma at_eol_no_LT :
  forall fl st, at_eol fl st = true ->
    Forall (fun c => isLineTerminator c = false) (suf st) -> suf st = [].
Proof.
  intros fl st H HF. unfold at_eol in H. destruct (suf st) as [|y rest]; [reflexivity|].
  inversion HF; subst. rewrite H2, andb_false_r in H. discriminate.
Qed.

Lemma ws_run_unique :
  forall a b x t y u,
    Forall White a -> Forall White b ->
    isWhiteSpace x = false -> isWhiteSpace y = false ->
    a ++ x :: t = b ++ y :: u -> a = b /\ x :: t = y :: u.
Proof.
  induction a as [|c a IH]; intros b x t y u Ha Hb Hx Hy E.
  - destruct b as [|d b]; [split; [reflexivity | exact E]|].
    simpl in E. inversion E; subst. inversion Hb; subst. unfold White in H1. congruence.
  - destruct b as [|d b].
    + simpl in E. inversion E; subst. inversion Ha; subst. unfold White in H1. congruence.
    + simpl in E. inversion E as [[Ed Er]]. subst d.
      apply Forall_inv_tail in Ha. apply Forall_inv_tail in Hb.
      destruct (IH b x t y u Ha Hb Hx Hy Er) as [-> E']. split; [reflexivity | exact E'].
Qed.

Section LabelledArray.

Variables (sp body : jsstring).
Hypothesis Hsp : Forall (fun c => isBlank c = true) sp.
Hypothesis Hbody : Forall (fun c => isDot c = true) body.

Lemma sp_White : Forall White sp.
Proof.
  eapply Forall_impl; [|exact Hsp]. intros c Hc. unfold isBlank in Hc.
  apply andb_true_iff in Hc. apply Hc.
Qed.

Lemma lineOf_no_LT :
  forall labelled, Forall (fun c => isLineTerminator c = false) (lineOf sp body labelled).
Proof.
  intros labelled. unfold lineOf, labelOf. apply Forall_app. split.
  - destruct labelled; [|constructor]. apply Forall_app. split.
    + unfold tsuf. simpl. repeat constructor.
    + eapply Forall_impl; [|exact Hsp]. intros c Hc. unfold isBlank in Hc.
      apply andb_true_iff in Hc. destruct Hc as [_ Hc]. apply negb_true_iff in Hc. exact Hc.
  - apply quoted_no_LT. exact Hbody.
Qed.

Lemma jsonArray_match_exists :
  forall labelled, match_here jsonArrayRe [] (lineOf sp body labelled) <> None.
Proof.
  intros labelled. unfold match_here. rewrite jsonArrayRe_source.
  change (reflags jsonArrayRe) with flags_gm.
  set (line := lineOf sp body labelled).
  set (mid := {| pre := rev (labelOf sp labelled); suf := quoted body;
                 caps := if labelled then [(1%nat, labelOf sp labelled)] else [] |}).
  set (fin := {| pre := DQ :: RBRACK :: rev body ++ LBRACK :: DQ :: rev (labelOf sp labelled);
                 suf := []; caps := caps mid |}).
  apply (rmatch_complete flags_gm _ (start_state [] line) (set_cap 2 mid fin));
    [|discriminate].
  eapply MSeq; [apply MBol; reflexivity|].
  eapply MSeq with (st2 := mid).
  - destruct labelled.
    + apply MAltL.
      assert (Hg : Matches flags_gm jsonPrefix (start_state [] line)
                     {| pre := rev (tsuf ++ sp); suf := quoted body; caps := [] |}).
      { unfold jsonPrefix. eapply MSeq; [apply MStar0|].
        eapply MSeq.
        - unfold line, lineOf, labelOf, start_state. rewrite <- app_assoc.
          apply Matches_Lit_intro.
        - rewrite rev_app_distr. unfold ws.
          apply (Matches_Star_intro flags_gm true isWhiteSpace sp (rev tsuf ++ [])).
          eapply Forall_impl; [|exact sp_White]. intros c Hc. exact Hc. }
      pose proof (MGroup flags_gm 1%nat _ _ _ Hg) as Hg1.
      unfold set_cap in Hg1. cbn [pre suf caps] in Hg1.
      rewrite (Reads_segment (start_state [] line) (tsuf ++ sp)
                 {| pre := rev (tsuf ++ sp); suf := quoted body; caps := [] |}) in Hg1.
      * exact Hg1.
      * split; cbn [pre suf start_state];
          [reflexivity | rewrite app_nil_r; reflexivity].
    + apply MAltR. unfold mid, labelOf, line, lineOf, labelOf, start_state. simpl.
      constructor.
  - eapply MSeq with (st2 := set_cap 2 mid fin); [|apply MEol; reflexivity].
    apply MGroup. unfold jsonBody. simpl Seqs.
    eapply MSeq; [apply Matches_skip|].
    eapply MSeq; [apply MAltL; unfold mid, quoted; apply Matches_Chr_intro|].
    eapply MSeq; [apply Matches_Chr_intro|].
    eapply MSeq; [apply (Matches_Star_intro flags_gm false isDot body); exact Hbody|].
    eapply MSeq; [apply Matches_Chr_intro|].
    eapply MSeq; [apply MAltL; apply Matches_Chr_intro|].
    apply Matches_skip.
Qed.

End LabelledArray.

Lemma Reads_set_cap_l :
  forall i a b w c, Reads (set_cap i a b) w c <-> Reads b w c.
Proof. intros. unfold Reads, set_cap. simpl. tauto. Qed.

Section LabelledArrayResult.

Variables (sp body : jsstring).
Hypothesis Hsp : Forall (fun c => isBlank c = true) sp.
Hypothesis Hbody : Forall (fun c => isDot c = true) body.

Lemma jsonArray_match_caps :
  forall labelled st',
    match_here jsonArrayRe [] (lineOf sp body labelled) = Some st' ->
    suf st' = [] /\ pre st' = rev (lineOf sp body labelled)
    /\ get_cap 2 (caps st') = Some (quoted body)
    /\ get_cap 1 (caps st') = (if labelled then Some (tsuf ++ sp) else None).
Proof.
  intros labelled st' H.
  destruct (match_here_word _ _ _ _ H) as [w [Ha [Hp [_ [HM _]]]]].
  change (reflags jsonArrayRe) with flags_gm in HM. rewrite jsonArrayRe_source in HM.
  apply Matches_Seq_inv in HM. destruct HM as [m0 [H0 HM]].
  apply Matches_Bol_inv in H0. destruct H0 as [-> _].
  apply Matches_Seq_inv in HM. destruct HM as [m1 [H1 HM]].
  apply Matches_Seq_inv in HM. destruct HM as [m2 [H2 H3]].
  apply Matches_Eol_inv in H3. destruct H3 as [-> Heol].
  apply Matches_Group_inv in H2. destruct H2 as [n2 [H2 ->]].
  assert (Hsuf : suf n2 = []).
  { apply (at_eol_no_LT flags_gm (set_cap 2 m1 n2) Heol). simpl.
    pose proof (lineOf_no_LT sp body Hsp Hbody labelled) as HL.
    rewrite Ha in HL. apply Forall_app in HL. apply HL. }
  simpl in Ha, Hp. rewrite Hsuf, app_nil_r in Ha. subst w. rewrite app_nil_r in Hp.
  split; [exact Hsuf|]. split; [exact Hp|].
  destruct (Matches_word _ _ _ _ H2) as [w2 [R2 _]].
  pose proof (Matches_caps _ _ _ _ H2 jsonBody_GroupFree) as Hc2.
  pose proof (Reads_segment _ _ _ R2) as Hseg2.
  destruct (jsonBody_head _ _ H2) as [x [rest [Hx Hx']]].
  destruct R2 as [R2 _]. rewrite Hsuf, app_nil_r in R2.
  unfold set_cap. cbn [caps get_cap Nat.eqb]. rewrite Hseg2, Hc2.
  apply Matches_Alt_inv in H1. destruct H1 as [H1 | H1].
  - apply Matches_Group_inv in H1. destruct H1 as [n1 [H1 ->]].
    destruct (jsonPrefix_head _ _ H1) as [y [rest' [Hy Hy']]].
    destruct (jsonPrefix_word _ _ H1) as [wa [wb [R1 [Hwa [Hwb Hc1]]]]].
    pose proof (Reads_segment _ _ _ R1) as Hseg1.
    destruct R1 as [R1 _]. cbn [suf start_state set_cap] in R1, Hy, R2, Hx.
    unfold set_cap. cbn [caps get_cap Nat.eqb]. rewrite Hseg1.
    rewrite R2 in R1. destruct labelled.
    + unfold lineOf, labelOf in R1, Hy.
      assert (wa = []).
      { destruct wa as [|c wa]; [reflexivity|]. exfalso.
        simpl in R1. inversion R1; subst c. inversion Hwa; subst.
        unfold White in H4. discriminate. }
      subst wa. rewrite app_nil_l in R1. rewrite <- !app_assoc in R1.
      apply app_inv_head in R1. rewrite Hx in R2. rewrite <- R2 in R1 |- *.
      assert (Hxw : isWhiteSpace x = false) by (destruct Hx'; subst; reflexivity).
      unfold quoted in R1.
      destruct (ws_run_unique sp wb DQ (LBRACK :: body ++ [RBRACK; DQ]) x rest
                  (sp_White sp Hsp) Hwb eq_refl Hxw R1) as [<- E].
      rewrite <- E. split; reflexivity.
    + exfalso. unfold lineOf, labelOf, quoted in Hy. simpl in Hy. inversion Hy; subst y.
      destruct Hy' as [Hy' | Hy']; discriminate.
  - apply Matches_Eps_inv in H1. subst m1. cbn [suf start_state] in R2, Hx.
    cbn [caps start_state].
    destruct labelled.
    + exfalso. unfold lineOf, labelOf in Hx. simpl in Hx. inversion Hx; subst x.
      destruct Hx' as [Hx' | Hx']; discriminate.
    + unfold lineOf, labelOf in R2. simpl in R2. rewrite <- R2. split; reflexivity.
Qed.

(** What the rule makes of the line: the replacer's result for the whole
    line. *)
Lemma cleanJsonArrays_lineOf :
  forall J labelled,
    cleanJsonArrays J (lineOf sp body labelled)
    = try_catch (jsonTry J (if labelled then Some (tsuf ++ sp) else None)
                           (Some (quoted body)))
                (jsonFallback (lineOf sp body labelled)).
Proof.
  intros J labelled. unfold cleanJsonArrays, replace_with.
  set (line := lineOf sp body labelled).
  cbn [replace_from].
  destruct (match_here jsonArrayRe [] line) as [st'|] eqn:H.
  2:{ exfalso. apply (jsonArray_match_exists sp body Hsp Hbody labelled). exact H. }
  destruct (match_here_word _ _ _ _ H) as [w [Ha [_ [Hseg _]]]].
  destruct (jsonArray_match_caps labelled st' H) as [Hsuf [Hpre [Hc2 Hc1]]].
  rewrite Hsuf, app_nil_r in Ha. rewrite Hseg, <- Ha.
  cbn [reflags jsonArrayRe fl_global flags_gm negb].
  assert (Hlen : exists n, length line = S n).
  { unfold line, lineOf, quoted. rewrite length_app. simpl.
    exists (length (labelOf sp labelled) + S (length (body ++ [RBRACK; DQ])))%nat. lia. }
  destruct Hlen as [n Hn].
  assert (Hp : progressed (start_state [] line) st' = true).
  { unfold progressed. rewrite Hsuf. simpl. rewrite Hn. reflexivity. }
  rewrite Hp, Hsuf, Hpre, Hn. cbn [replace_from].
  assert (Hrev : exists t, rev line = DQ :: t).
  { unfold line, lineOf, quoted. rewrite rev_app_distr. simpl.
    rewrite rev_app_distr. simpl. eauto. }
  destruct Hrev as [t Ht]. unfold line in Ht |- *. rewrite Ht.
  rewrite (match_here_not_bol jsonArrayRe DQ t []);
    [|rewrite jsonArrayRe_source; repeat constructor | reflexivity].
  rewrite app_nil_r. unfold jsonReplacer. rewrite Hc1, Hc2. reflexivity.
Qed.

End LabelledArrayResult.

(** *** Unwrapping the quoted array *)

Lemma replace_leadQuote : forall t, replace leadQuoteRe [] (DQ :: t) = t.
Proof. intros t. reflexivity. Qed.

Lemma replace_trailQuote_from :
  forall s fuel before, (length s + 1 < fuel)%nat ->
    replace_from trailQuoteRe (fun _ _ => []) fuel before (s ++ [DQ]) = s.
Proof.
  induction s as [|x t IH]; intros fuel before Hlen.
  - destruct fuel as [|fuel]; [simpl in Hlen; lia|]. reflexivity.
  - destruct fuel as [|fuel]; [simpl in Hlen; lia|]. simpl in Hlen.
    cbn [replace_from app].
    assert (Hm : match_here trailQuoteRe before (x :: t ++ [DQ]) = None).
    { unfold match_here, start_state. simpl source. simpl reflags.
      rewrite rmatch_Seq, rmatch_Chr_cons.
      destruct (canonicalize noflags x =? canonicalize noflags DQ); [|reflexivity].
      simpl. unfold at_eol. simpl. destruct t; reflexivity. }
    rewrite Hm. rewrite IH by lia. reflexivity.
Qed.

Lemma replace_trailQuote : forall s, replace trailQuoteRe [] (s ++ [DQ]) = s.
Proof.
  intros s. unfold replace, replace_with. apply replace_trailQuote_from.
  rewrite length_app. simpl. lia.
Qed.

Lemma jsonTry_quoted :
  forall J prefix body,
    jsonTry J prefix (Some (quoted body))
    = bind (JSON_parse J (unescape (LBRACK :: body ++ [RBRACK])))
        (fun parsed =>
           Normal (match prefix with
                   | Some ((_ :: _) as p) => trim p ++ str ": " ++ JSON_stringify2 J parsed
                   | _ => JSON_stringify2 J parsed
                   end)).
Proof.
  intros J prefix body. unfold jsonTry, defined, bind at 1. unfold quoted.
  rewrite replace_leadQuote.
  change (LBRACK :: body ++ [RBRACK; DQ]) with ((LBRACK :: body ++ [RBRACK; DQ])).
  replace (LBRACK :: body ++ [RBRACK; DQ]) with ((LBRACK :: body ++ [RBRACK]) ++ [DQ])
    by (simpl; rewrite <- app_assoc; reflexivity).
  rewrite replace_trailQuote. reflexivity.
Qed.

Lemma dropWhile_app_all :
  forall f s w, Forall (fun c => f c = true) w ->
    dropWhile f (s ++ w) = match dropWhile f s with [] => [] | k => k ++ w end.
Proof.
  intros f s w Hw. induction s as [|x t IH]; simpl.
  - induction Hw as [|c w Hc _ IHw]; simpl; [reflexivity | rewrite Hc; exact IHw].
  - destruct (f x); [exact IH | reflexivity].
Qed.

Lemma dropEnd_app_all :
  forall f s w, Forall (fun c => f c = true) w -> dropEnd f (s ++ w) = dropEnd f s.
Proof.
  intros f s w Hw. induction s as [|x t IH]; simpl.
  - induction Hw as [|c w Hc _ IHw]; simpl; [reflexivity|]. rewrite IHw, Hc. reflexivity.
  - rewrite IH. reflexivity.
Qed.

(** White space at the end of a text does not change what [trim] gives. *)
Lemma trim_app_ws :
  forall s w, Forall White w -> trim (s ++ w) = trim s.
Proof.
  intros s w Hw. unfold trim. rewrite dropWhile_app_all by exact Hw.
  destruct (dropWhile isWhiteSpace s) as [|k ks]; [reflexivity|].
  apply dropEnd_app_all. exact Hw.
Qed.

(** * The claims *)

(** ** C1: the end-to-end example *)

(** C1. The whole pipeline turns the framed example into exactly [test]:
    the box rule deletes the first and the last line and strips the frame
    of the middle one, the JSON, pipe and indentation rules leave the rest
    as it is, the artifact rule removes both SGR sequences and then the
    prompt marker, and nothing is left to collapse or to trim.  This holds
    whatever the runtime's JSON object does. *)
Theorem C1_end_to_end :
  forall J : JSON,
    removeBoxDrawing c1_input = [ESC] ++ str "[32m$ test" ++ [ESC] ++ str "[0m"
    /\ fixIndentation (removePipes (cleanJsonArrays J (removeBoxDrawing c1_input)))
       = [ESC] ++ str "[32m$ test" ++ [ESC] ++ str "[0m"
    /\ replace ansiRe [] ([ESC] ++ str "[32m$ test" ++ [ESC] ++ str "[0m") = str "$ test"
    /\ removeArtifacts ([ESC] ++ str "[32m$ test" ++ [ESC] ++ str "[0m") = str "test"
    /\ clean J c1_input = str "test".
Proof.
  intros J. repeat split; vm_compute; reflexivity.
Qed.

(** ** C7: the statistics *)

(** C7. For every pair of strings the line count is the number of newline
    characters of the original plus one, hence at least one; the character
    count is the length of the original; the number of characters removed
    is the length of the original minus the length of the cleaned text.
    That difference is zero for equal texts and negative when the cleaned
    text is the longer one.  The example of the specification gives 2, 7
    and 1. *)
Theorem C7_computeStats :
  (forall original cleaned_ : jsstring,
      lines (useTextStats original cleaned_) = (Z.of_nat (count NL original) + 1)%Z
      /\ (1 <= lines (useTextStats original cleaned_))%Z
      /\ characters (useTextStats original cleaned_) = Z.of_nat (length original)
      /\ cleaned (useTextStats original cleaned_)
         = (Z.of_nat (length original) - Z.of_nat (length cleaned_))%Z)
  /\ (forall s : jsstring, cleaned (useTextStats s s) = 0%Z)
  /\ cleaned (useTextStats (str "ab") (str "a b c")) = (-3)%Z
  /\ useTextStats (str "abc" ++ [NL] ++ str "def") (str "abcdef")
     = {| lines := 2; characters := 7; cleaned := 1 |}.
Proof.
  split; [|split; [|split]].
  - intros original cleaned_. unfold useTextStats. simpl.
    rewrite length_split. repeat split; lia.
  - intros s. unfold useTextStats. simpl. lia.
  - reflexivity.
  - reflexivity.
Qed.

(** ** C8: the guard of the pipeline *)

(** C8. The empty string and an absent input ([null], [undefined]) give the
    empty string, and the guard changes nothing: for every input string the
    hook returns what the plain loop over the seven rules returns, because
    each rule sends the empty string to the empty string. *)
Theorem C8_guard_is_fold :
  forall J : JSON,
    useTextCleaner J (Str []) = []
    /\ useTextCleaner J Null = []
    /\ useTextCleaner J Undefined = []
    /\ length (cleaningRules J) = 7%nat
    /\ Forall (fun rule => apply rule [] = []) (cleaningRules J)
    /\ (forall s : jsstring, useTextCleaner J (Str s) = applyRules (cleaningRules J) s).
Proof.
  intros J. split; [reflexivity|]. split; [reflexivity|]. split; [reflexivity|].
  split; [reflexivity|]. split.
  - repeat constructor.
  - intros [|c s]; [vm_compute|]; reflexivity.
Qed.

(** ** C9: the pipe rule *)

Lemma rev_nil_inv : forall (a : list char), rev a = [] -> a = [].
Proof.
  intros a H. apply (f_equal (@rev char)) in H. rewrite rev_involutive in H. exact H.
Qed.

Lemma pipeLead_word :
  forall st st', Matches noflags (source pipeLeadRe) st st' ->
    pre st = [] /\ exists wa wb, Reads st (wa ++ PIPE :: wb) st'
                                 /\ Forall White wa /\ Forall White wb.
Proof.
  intros st st' H.
  pose proof (Matches_StartsBol noflags (source pipeLeadRe) _ _
                ltac:(repeat constructor) H) as Hb.
  apply at_bol_noflags in Hb. split; [exact Hb|].
  change (source pipeLeadRe)
    with (Seq Bol (Seq (Star true ws) (Seq (Chr PIPE) (Star true ws)))) in H.
  apply Matches_Seq_inv in H. destruct H as [m0 [H0 H]].
  apply Matches_Bol_inv in H0. destruct H0 as [-> _].
  apply Matches_Seq_inv in H. destruct H as [m1 [H1 H]].
  apply Matches_Seq_inv in H. destruct H as [m2 [H2 H3]].
  destruct (Matches_word _ _ _ _ H1) as [wa [Ra [Aa _]]].
  destruct (Matches_word _ _ _ _ H3) as [wb [Rb [Ab _]]].
  destruct (Matches_Lit_inv noflags [PIPE] m1 m2 eq_refl
              ltac:(simpl; eapply MSeq; [exact H2 | constructor])) as [Rp _].
  exists wa, wb. split; [|split].
  - eapply Reads_app; [exact Ra|]. apply (Reads_app _ _ _ [PIPE] wb Rp Rb).
  - apply Aa. repeat constructor. intros x Hx. exact Hx.
  - apply Ab. repeat constructor. intros x Hx. exact Hx.
Qed.

Lemma pipeTrail_word :
  forall st st', Matches noflags (source pipeTrailRe) st st' ->
    suf st' = [] /\ exists wa wb, Reads st (wa ++ PIPE :: wb) st'
                                  /\ Forall White wa /\ Forall White wb.
Proof.
  intros st st' H.
  pose proof (Matches_EndsEol noflags (source pipeTrailRe) _ _
                ltac:(repeat constructor) H) as He.
  apply at_eol_noflags in He. split; [exact He|].
  change (source pipeTrailRe)
    with (Seq (Star true ws) (Seq (Chr PIPE) (Seq (Star true ws) Eol))) in H.
  apply Matches_Seq_inv in H. destruct H as [m1 [H1 H]].
  apply Matches_Seq_inv in H. destruct H as [m2 [H2 H]].
  apply Matches_Seq_inv in H. destruct H as [m3 [H3 H4]].
  apply Matches_Eol_inv in H4. destruct H4 as [-> _].
  destruct (Matches_word _ _ _ _ H1) as [wa [Ra [Aa _]]].
  destruct (Matches_word _ _ _ _ H3) as [wb [Rb [Ab _]]].
  destruct (Matches_Lit_inv noflags [PIPE] m1 m2 eq_refl
              ltac:(simpl; eapply MSeq; [exact H2 | constructor])) as [Rp _].
  exists wa, wb. split; [|split].
  - eapply Reads_app; [exact Ra|]. apply (Reads_app _ _ _ [PIPE] wb Rp Rb).
  - apply Aa. repeat constructor. intros x Hx. exact Hx.
  - apply Ab. repeat constructor. intros x Hx. exact Hx.
Qed.

Lemma replace_pipeLead :
  forall l, exists lead, l = lead ++ replace pipeLeadRe [] l /\ pipeMargin lead.
Proof.
  intros l. unfold replace, replace_with.
  destruct (replace_first_spec pipeLeadRe (fun _ _ => []) eq_refl (S (length l)) [] l)
    as [E | [a [st' [Ha [Hm E]]]]].
  - exists []. rewrite E. split; [reflexivity | left; reflexivity].
  - destruct (match_here_word _ _ _ _ Hm) as [w [_ [_ [Hseg [HM _]]]]].
    destruct (pipeLead_word _ _ HM) as [Hpre [wa [wb [R [Hwa Hwb]]]]].
    cbn [pre start_state] in Hpre. rewrite app_nil_r in Hpre.
    apply rev_nil_inv in Hpre. subst a.
    rewrite (Reads_segment _ _ _ R) in Ha. simpl in Ha.
    exists (wa ++ PIPE :: wb). rewrite E. simpl. split; [exact Ha|].
    right. exists wa, wb. auto.
Qed.

Lemma replace_pipeTrail :
  forall l, exists trail, l = replace pipeTrailRe [] l ++ trail /\ pipeMargin trail.
Proof.
  intros l. unfold replace, replace_with.
  destruct (replace_first_spec pipeTrailRe (fun _ _ => []) eq_refl (S (length l)) [] l)
    as [E | [a [st' [Ha [Hm E]]]]].
  - exists []. rewrite E. split; [rewrite app_nil_r; reflexivity | left; reflexivity].
  - destruct (match_here_word _ _ _ _ Hm) as [w [_ [_ [Hseg [HM _]]]]].
    destruct (pipeTrail_word _ _ HM) as [Hsuf [wa [wb [R [Hwa Hwb]]]]].
    rewrite (Reads_segment _ _ _ R) in Ha. rewrite Hsuf, app_nil_r in Ha.
    exists (wa ++ PIPE :: wb). rewrite E, Hsuf. simpl. rewrite app_nil_r.
    split; [exact Ha|]. right. exists wa, wb. auto.
Qed.

Lemma count_app : forall c a b, count c (a ++ b) = (count c a + count c b)%nat.
Proof.
  intros c a b. induction a as [|x a IH]; simpl; [reflexivity|].
  destruct (x =? c); simpl; rewrite IH; reflexivity.
Qed.

Lemma count_White_PIPE : forall w, Forall White w -> count PIPE w = O.
Proof.
  intros w H. induction H as [|x w Hx _ IH]; simpl; [reflexivity|].
  destruct (x =? PIPE) eqn:E; [|exact IH].
  apply N.eqb_eq in E. subst x. discriminate.
Qed.

Lemma pipeMargin_count : forall w, pipeMargin w -> (count PIPE w <= 1)%nat.
Proof.
  intros w [-> | [wa [wb [-> [Ha Hb]]]]]; [simpl; lia|].
  rewrite count_app. simpl. rewrite (count_White_PIPE wa Ha), (count_White_PIPE wb Hb). lia.
Qed.


(** ** C2: idempotence *)

Lemma quietb_quiet : forall c, quietb c = true -> quiet c.
Proof.
  intros c H. unfold quietb in H.
  repeat (apply andb_true_iff in H; destruct H as [H ?]).
  repeat match goal with
         | Hn : negb _ = true |- _ => apply negb_true_iff in Hn
         end.
  unfold quiet. repeat split; try assumption;
    intros E; subst c; discriminate.
Qed.

Lemma forallb_quiet : forall s, forallb quietb s = true -> Forall quiet s.
Proof.
  intros s H. rewrite forallb_forall in H. apply Forall_forall.
  intros c Hc. apply quietb_quiet. apply H. exact Hc.
Qed.




(** ** C5: what the pipeline keeps *)




(** ** C3: the label of the JSON-array rule *)

Lemma replace_from_nomatch :
  forall re f fuel before after,
    (forall a b, after = a ++ b -> match_here re (rev a ++ before) b = None) ->
    replace_from re f fuel before after = after.
Proof.
  intros re f fuel. induction fuel as [|fuel IH]; intros before after H; [reflexivity|].
  cbn [replace_from]. pose proof (H [] after eq_refl) as H0. simpl in H0. rewrite H0.
  destruct after as [|c rest]; [reflexivity|].
  rewrite IH; [reflexivity|].
  intros a b E. specialize (H (c :: a) b). simpl in H. rewrite <- app_assoc in H.
  apply H. rewrite E. reflexivity.
Qed.

Lemma jsonArray_no_match_at_start :
  forall c rest,
    isWhiteSpace c = false -> c <> LBRACK -> c <> DQ -> c <> 116 ->
    match_here jsonArrayRe [] (c :: rest) = None.
Proof.
  intros c rest Hws Hb Hq Ht.
  destruct (match_here jsonArrayRe [] (c :: rest)) as [st'|] eqn:H; [|reflexivity].
  exfalso.
  destruct (match_here_word _ _ _ _ H) as [w [_ [_ [_ [HM _]]]]].
  change (reflags jsonArrayRe) with flags_gm in HM. rewrite jsonArrayRe_source in HM.
  apply Matches_Seq_inv in HM. destruct HM as [m0 [H0 HM]].
  apply Matches_Bol_inv in H0. destruct H0 as [-> _].
  apply Matches_Seq_inv in HM. destruct HM as [m1 [H1 HM]].
  apply Matches_Seq_inv in HM. destruct HM as [m2 [H2 _]].
  apply Matches_Group_inv in H2. destruct H2 as [n2 [H2 _]].
  apply Matches_Alt_inv in H1. destruct H1 as [H1 | H1].
  - apply Matches_Group_inv in H1. destruct H1 as [n1 [H1 _]].
    destruct (jsonPrefix_head _ _ H1) as [y [rest' [Hy Hy']]].
    simpl in Hy. inversion Hy; subst y. destruct Hy'; congruence.
  - apply Matches_Eps_inv in H1. subst m1.
    destruct (jsonBody_head _ _ H2) as [y [rest' [Hy Hy']]].
    simpl in Hy. inversion Hy; subst y. destruct Hy'; congruence.
Qed.

(** A line that begins with another character than white space, a
    bracket, a quote or [t] is not touched by the rule. *)
Lemma cleanJsonArrays_other_start :
  forall J c rest,
    Forall (fun x => isLineTerminator x = false) (c :: rest) ->
    isWhiteSpace c = false -> c <> LBRACK -> c <> DQ -> c <> 116 ->
    cleanJsonArrays J (c :: rest) = c :: rest.
Proof.
  intros J c rest HLT Hws Hb Hq Ht. unfold cleanJsonArrays, replace_with.
  apply replace_from_nomatch. intros a b E.
  destruct a as [|x a].
  - simpl in E |- *. subst b. apply jsonArray_no_match_at_start; assumption.
  - rewrite app_nil_r.
    destruct (rev (x :: a)) as [|y p] eqn:Er.
    { apply rev_nil_inv in Er. discriminate. }
    apply match_here_not_bol; [rewrite jsonArrayRe_source; repeat constructor|].
    assert (Hy : In y (c :: rest)).
    { rewrite E. apply in_or_app. left. apply in_rev. rewrite Er. left. reflexivity. }
    rewrite Forall_forall in HLT. apply HLT. exact Hy.
Qed.




(** ** C4: the box-drawing rule *)

Lemma boxOnly_test_complete :
  forall l, l <> [] -> Forall (fun c => isBoxChar c = true) l -> test boxOnlyRe l = true.
Proof.
  intros l Hne H. destruct l as [|x t]; [congruence|]. inversion H; subst.
  unfold test. cbn [search].
  destruct (match_here boxOnlyRe [] (x :: t)) as [st'|] eqn:Hm; [reflexivity|].
  exfalso. revert Hm. unfold match_here.
  apply (rmatch_complete noflags _ _ {| pre := rev t ++ [x]; suf := []; caps := [] |});
    [|discriminate].
  change (source boxOnlyRe)
    with (Seq Bol (Seq (Seq (Cls isBoxChar) (Star true (Cls isBoxChar))) Eol)).
  eapply MSeq; [apply MBol; reflexivity|].
  eapply MSeq; [|apply MEol; reflexivity].
  eapply MSeq.
  - apply (MCls noflags isBoxChar x t); [reflexivity | assumption].
  - unfold advance, start_state. cbn [pre suf caps].
    rewrite <- (app_nil_r t) at 1.
    apply (Matches_Star_intro noflags true isBoxChar t [x] [] []). assumption.
Qed.

Lemma boxOnly_test_iff :
  forall l, test boxOnlyRe l = true <-> l <> [] /\ Forall (fun c => isBoxChar c = true) l.
Proof.
  intros l. split.
  - intros H. split; [intros ->; discriminate H | apply boxOnly_test_true; exact H].
  - intros [Hne H]. apply boxOnly_test_complete; assumption.
Qed.

Lemma box_no_NL : forall l, Forall (fun c => isBoxChar c = true) l -> Forall (fun c => c <> NL) l.
Proof.
  intros l H. eapply Forall_impl; [|exact H]. intros c Hc E. subst c. discriminate.
Qed.

Lemma removeBoxDrawing_lines :
  forall ls, Forall (Forall (fun c => c <> NL)) ls ->
    removeBoxDrawing (join NL ls) = join NL (map stripFrame (filter keepLine ls)).
Proof.
  intros ls H. unfold removeBoxDrawing. destruct ls as [|l ls'].
  - reflexivity.
  - rewrite split_join; [reflexivity | discriminate | exact H].
Qed.

(** C4, as stated, fails: a line of double-line characters of the
    box-drawing block is kept, alone or between other lines. *)
Lemma C4_double_line_kept :
  Forall (fun c => inBoxBlock c = true) c4_double_line
  /\ removeBoxDrawing c4_double_line = c4_double_line
  /\ removeBoxDrawing (str "a" ++ [NL] ++ c4_double_line ++ [NL] ++ str "b")
     = str "a" ++ [NL] ++ c4_double_line ++ [NL] ++ str "b".
Proof. split; [repeat constructor|]. split; vm_compute; reflexivity. Qed.

(** C4, amended.  The filter of the rule recognises exactly the lines that
    are not empty and consist of the eighteen characters of its class,
    which has no double-line character; such a line is deleted wherever it
    stands in the text; and a line with one leading frame character and one
    trailing frame character around its content loses the two with the
    white space next to them. *)
Theorem C4_box_lines_deleted :
  (forall line, test boxOnlyRe line = true
                <-> line <> [] /\ Forall (fun c => isBoxChar c = true) line)
  /\ (forall above below line,
        Forall (Forall (fun c => c <> NL)) above ->
        Forall (Forall (fun c => c <> NL)) below ->
        line <> [] -> Forall (fun c => isBoxChar c = true) line ->
        removeBoxDrawing (join NL (above ++ line :: below))
        = removeBoxDrawing (join NL (above ++ below)))
  /\ isBoxChar 9552 = false
  /\ removeBoxDrawing [9484; 9472; 9472; 9472; 9472; 9488] = []
  /\ removeBoxDrawing ([9474] ++ str " Content " ++ [9474]) = str "Content".
Proof.
  split; [exact boxOnly_test_iff|]. split; [|repeat split; vm_compute; reflexivity].
  intros above below line Ha Hb Hne Hbox.
  assert (Hl : Forall (fun c => c <> NL) line) by (apply box_no_NL; exact Hbox).
  rewrite removeBoxDrawing_lines
    by (apply Forall_app; split; [exact Ha | constructor; assumption]).
  rewrite filter_app. cbn [filter]. unfold keepLine at 2.
  rewrite (boxOnly_test_complete line Hne Hbox). cbn [negb].
  rewrite <- filter_app.
  destruct (above ++ below) as [|l0 ls0] eqn:E.
  - reflexivity.
  - rewrite <- E. rewrite removeBoxDrawing_lines; [reflexivity|].
    apply Forall_app; split; assumption.
Qed.

Lemma C4_box_lines_witness :
  removeBoxDrawing (join NL ([str "top"] ++ [9500; 9472; 9508] :: [str "bottom"]))
  = removeBoxDrawing (join NL ([str "top"] ++ [str "bottom"])).
Proof.
  apply (proj1 (proj2 C4_box_lines_deleted) [str "top"] [str "bottom"] [9500; 9472; 9508]).
  - repeat constructor; discriminate.
  - repeat constructor; discriminate.
  - discriminate.
  - repeat constructor.
Defined.

(** ** C6: parse failure *)

(** C6. The rule never throws: its result is a string whatever
    [JSON.parse] does, because the only completion that can be a throw,
    the [try] block, is consumed by [try_catch].  For every match, when
    parsing the unwrapped and unescaped content throws, and also when the
    content capture is missing, the replacer returns the fallback clean-up
    of the match.  So a labelled or unlabelled quoted array whose content
    does not parse is rewritten to its fallback: escaped and doubled quotes
    become one quote, and a quote next to the outer bracket goes. *)
Theorem C6_parse_failure_falls_back :
  (forall (J : JSON) (mt content : jsstring) (cs : list (nat * jsstring)) (e : exn),
      get_cap 2 cs = Some content ->
      JSON_parse J (unescape (replace trailQuoteRe [] (replace leadQuoteRe [] content)))
      = Throw e ->
      jsonReplacer J mt cs = jsonFallback mt)
  /\ (forall (J : JSON) (mt : jsstring) (cs : list (nat * jsstring)),
        get_cap 2 cs = None -> jsonReplacer J mt cs = jsonFallback mt)
  /\ (forall (J : JSON) (sp body : jsstring) (labelled : bool) (e : exn),
        Forall (fun c => isBlank c = true) sp ->
        Forall (fun c => isDot c = true) body ->
        JSON_parse J (unescape (LBRACK :: body ++ [RBRACK])) = Throw e ->
        cleanJsonArrays J (lineOf sp body labelled) = jsonFallback (lineOf sp body labelled))
  /\ jsonFallback (quoted c6_body)
     = str "[" ++ [DQ] ++ str "a" ++ [DQ] ++ str ", " ++ [DQ] ++ str "b" ++ [DQ] ++ str ", c]".
Proof.
  split; [|split; [|split]].
  - intros J mt content cs e Hc Hp. unfold jsonReplacer, jsonTry. rewrite Hc.
    cbn [defined bind]. unfold unescape in Hp. rewrite Hp. reflexivity.
  - intros J mt cs Hc. unfold jsonReplacer, jsonTry. rewrite Hc. reflexivity.
  - intros J sp body labelled e Hsp Hbody Hp.
    rewrite (cleanJsonArrays_lineOf sp body Hsp Hbody J labelled).
    rewrite jsonTry_quoted, Hp. reflexivity.
  - vm_compute. reflexivity.
Qed.

Lemma C6_fallback_witness :
  JSON_parse refJSON (unescape (LBRACK :: c6_body ++ [RBRACK])) = Throw SyntaxError
  /\ cleanJsonArrays refJSON (str "template_suffixes " ++ quoted c6_body)
     = str "template_suffixes [" ++ [DQ] ++ str "a" ++ [DQ] ++ str ", " ++ [DQ]
         ++ str "b" ++ [DQ] ++ str ", c]".
Proof.
  assert (Hp : JSON_parse refJSON (unescape (LBRACK :: c6_body ++ [RBRACK]))
               = Throw SyntaxError) by (vm_compute; reflexivity).
  split; [exact Hp|].
  pose proof (proj1 (proj2 (proj2 C6_parse_failure_falls_back))
                refJSON [SP] c6_body true SyntaxError
                ltac:(repeat constructor) ltac:(repeat constructor) Hp) as H.
  vm_compute in H |- *. exact H.
Defined.

(** ** C10: line delimiters *)

Lemma squash_snoc_ws :
  forall x l b, isWhiteSpace x = true ->
    exists w, Forall White w /\ squash b (l ++ [x]) = squash b l ++ w.
Proof.
  intros x l. induction l as [|y t IH]; intros b Hx.
  - simpl. rewrite Hx. destruct b.
    + exists []. split; [constructor | reflexivity].
    + exists [SP]. split; [repeat constructor | reflexivity].
  - simpl. destruct (isWhiteSpace y).
    + destruct (IH true Hx) as [w [Hw E]]. exists w. split; [exact Hw|].
      rewrite E. destruct b; reflexivity.
    + destruct (IH false Hx) as [w [Hw E]]. exists w. split; [exact Hw|].
      rewrite E. reflexivity.
Qed.

(** A white character at the end of a line is trimmed away. *)
Lemma fixLine_snoc_ws :
  forall x l, isWhiteSpace x = true -> fixLine (l ++ [x]) = fixLine l.
Proof.
  intros x l Hx. rewrite !fixLine_squash.
  destruct (squash_snoc_ws x l false Hx) as [w [Hw E]].
  rewrite E. apply trim_app_ws. exact Hw.
Qed.

(** C10, as stated, fails: the newline is not the only line delimiter of
    the core.  For the multiline anchors of the artifact rule and of the
    JSON-array rule a carriage return starts a line too: the prompt marker
    after it is removed, where after a space it stays, and the array after
    it is rewritten, where after a space it stays. *)
Lemma C10_carriage_return_starts_a_line :
  removeArtifacts (str "a" ++ [CR] ++ str "$ b") = str "a" ++ [CR] ++ str "b"
  /\ removeArtifacts (str "a $ b") = str "a $ b"
  /\ clean refJSON (str "a" ++ [CR] ++ str "[1]") = str "a [" ++ [NL] ++ str "1" ++ [NL] ++ str "]"
  /\ clean refJSON (str "a [1]") = str "a [1]".
Proof. repeat split; vm_compute; reflexivity. Qed.

(** C10, amended.  The newline is the only delimiter for the line count
    and for the rules that split the text into lines: a lone carriage
    return is not counted, so the statistics of [a], CR, [b] show one
    line; the indentation rule turns it into one space, so that text cleans
    to the one line [a b]; and the carriage return of a CRLF line ending is
    trimmed away by the same rule.  The multiline anchors of the artifact
    rule, however, take a carriage return for a line boundary. *)
Theorem C10_newline_delimits_lines :
  (forall original cleaned_ : jsstring,
      lines (useTextStats original cleaned_) = (Z.of_nat (count NL original) + 1)%Z)
  /\ (forall cleaned_ : jsstring,
        lines (useTextStats (str "a" ++ [CR] ++ str "b") cleaned_) = 1%Z)
  /\ (forall text, fixIndentation text = join NL (map fixLine (split NL text)))
  /\ fixLine (str "a" ++ [CR] ++ str "b") = str "a b"
  /\ (forall J : JSON, clean J (str "a" ++ [CR] ++ str "b") = str "a b")
  /\ (forall line : jsstring, fixLine (line ++ [CR]) = fixLine line)
  /\ fixIndentation (str "a" ++ [CR; NL] ++ str "b") = str "a" ++ [NL] ++ str "b"
  /\ removeArtifacts (str "a" ++ [CR] ++ str "$ b") = str "a" ++ [CR] ++ str "b".
Proof.
  split.
  { intros original cleaned_. unfold useTextStats. simpl. rewrite length_split. lia. }
  split; [intros; reflexivity|].
  split; [intros; reflexivity|].
  split; [vm_compute; reflexivity|].
  split; [intros J; vm_compute; reflexivity|].
  split; [intros line; apply fixLine_snoc_ws; reflexivity|].
  split; vm_compute; reflexivity.
Qed.

(** * Further theory of the rules and of the hook *)

(** ** Texts with characters left out *)

Lemma subseq_refl : forall s, subseq s s.
Proof. induction s; constructor; assumption. Qed.

Lemma subseq_nil : forall s, subseq [] s.
Proof. induction s; constructor; assumption. Qed.

Lemma subseq_app :
  forall u s v t, subseq u s -> subseq v t -> subseq (u ++ v) (s ++ t).
Proof.
  intros u s v t H Hv. induction H; simpl; [exact Hv | constructor; assumption
                                             | constructor; assumption].
Qed.

Lemma subseq_skip_app : forall a u s, subseq u s -> subseq u (a ++ s).
Proof. intros a u s H. apply (subseq_app [] a u s (subseq_nil a) H). Qed.

Lemma subseq_trans : forall u v s, subseq u v -> subseq v s -> subseq u s.
Proof.
  intros u v s Huv Hvs. revert u Huv.
  induction Hvs as [|x v s Hvs IH|x v s Hvs IH]; intros u Huv.
  - exact Huv.
  - apply sub_skip. apply IH. exact Huv.
  - inversion Huv; subst.
    + apply sub_skip. apply IH. assumption.
    + apply sub_keep. apply IH. assumption.
Qed.

Lemma subseq_length : forall u s, subseq u s -> (length u <= length s)%nat.
Proof. intros u s H. induction H; simpl; lia. Qed.

Lemma subseq_count : forall c u s, subseq u s -> (count c u <= count c s)%nat.
Proof.
  intros c u s H. induction H; simpl; [lia | |]; destruct (x =? c); lia.
Qed.

Lemma subseq_Forall :
  forall (Q : char -> Prop) u s, subseq u s -> Forall Q s -> Forall Q u.
Proof.
  intros Q u s H. induction H; intros HQ; [constructor | |];
    inversion HQ; subst; [|constructor]; auto.
Qed.

Lemma subseq_filter :
  forall p u s, subseq u s -> subseq (filter p u) (filter p s).
Proof.
  intros p u s H. induction H; simpl; [constructor | |]; destruct (p x);
    try constructor; assumption.
Qed.

Lemma subseq_lines :
  forall u s, subseq u s -> (length (split NL u) <= length (split NL s))%nat.
Proof.
  intros u s H. rewrite !length_split. pose proof (subseq_count NL u s H). lia.
Qed.

(** A replacement by the empty string only leaves characters out. *)
Lemma replace_from_subseq :
  forall re fuel before after,
    subseq (replace_from re (fun _ _ => []) fuel before after) after.
Proof.
  intros re fuel. induction fuel as [|fuel IH]; intros before after; [apply subseq_refl|].
  cbn [replace_from].
  assert (Hcopy : subseq match after with
                         | [] => []
                         | c :: rest =>
                             c :: replace_from re (fun _ _ => []) fuel (c :: before) rest
                         end after).
  { destruct after as [|c rest]; [apply sub_nil | apply sub_keep; apply IH]. }
  destruct (match_here re before after) as [st'|] eqn:H; [|exact Hcopy].
  destruct (match_here_word _ _ _ _ H) as [w [Ha _]].
  assert (Hsk : forall X, subseq X (suf st') -> subseq X after).
  { intros X HX. rewrite Ha. apply subseq_skip_app. exact HX. }
  destruct (negb (fl_global (reflags re))).
  - apply Hsk. apply subseq_refl.
  - destruct (progressed _ st'); [|exact Hcopy].
    apply Hsk. apply IH.
Qed.

Lemma replace_nil_subseq : forall re s, subseq (replace re [] s) s.
Proof. intros re s. unfold replace, replace_with. apply replace_from_subseq. Qed.

Lemma dropWhile_subseq : forall f s, subseq (dropWhile f s) s.
Proof.
  intros f s. induction s as [|c rest IH]; simpl; [constructor|].
  destruct (f c); [apply sub_skip; exact IH | apply subseq_refl].
Qed.

Lemma dropEnd_subseq : forall f s, subseq (dropEnd f s) s.
Proof.
  intros f s. induction s as [|c rest IH]; [constructor|].
  rewrite dropEnd_cons. destruct (dropEnd f rest) as [|k kept].
  - destruct (f c); [apply sub_skip | apply sub_keep]; exact IH.
  - apply sub_keep. exact IH.
Qed.

Lemma trim_subseq : forall s, subseq (trim s) s.
Proof.
  intros s. unfold trim.
  eapply subseq_trans; [apply dropEnd_subseq | apply dropWhile_subseq].
Qed.

Lemma join_filter_map_subseq :
  forall (g : jsstring -> jsstring) p ls,
    (forall l, subseq (g l) l) ->
    subseq (join NL (map g (filter p ls))) (join NL ls).
Proof.
  intros g p ls Hg. induction ls as [|l ls IH]; [constructor|].
  destruct ls as [|l' ls'].
  - simpl. destruct (p l); simpl; [apply Hg | apply subseq_nil].
  - remember (l' :: ls') as R eqn:ER.
    assert (HR : R <> []) by (rewrite ER; discriminate).
    rewrite (join_cons NL l R HR). cbn [filter]. destruct (p l).
    + cbn [map]. remember (map g (filter p R)) as M eqn:EM.
      destruct M as [|m ms].
      * cbn [join]. rewrite <- (app_nil_r (g l)).
        apply subseq_app; [apply Hg | apply subseq_nil].
      * rewrite join_cons by discriminate.
        apply subseq_app; [apply Hg|]. apply sub_keep. exact IH.
    + apply subseq_skip_app. apply sub_skip. exact IH.
Qed.

Lemma removeBoxDrawing_subseq : forall s, subseq (removeBoxDrawing s) s.
Proof.
  intros s. unfold removeBoxDrawing. rewrite <- (join_split NL s) at 2.
  apply join_filter_map_subseq. intros l.
  eapply subseq_trans; apply replace_nil_subseq.
Qed.

Lemma filter_true : forall (ls : list jsstring), filter (fun _ => true) ls = ls.
Proof. induction ls as [|l ls IH]; simpl; [|rewrite IH]; reflexivity. Qed.

Lemma removePipes_subseq : forall s, subseq (removePipes s) s.
Proof.
  intros s. unfold removePipes. rewrite <- (join_split NL s) at 2.
  rewrite <- (filter_true (split NL s)) at 1.
  apply join_filter_map_subseq. intros l.
  eapply subseq_trans; apply replace_nil_subseq.
Qed.

Lemma removeArtifacts_subseq : forall s, subseq (removeArtifacts s) s.
Proof.
  intros s. unfold removeArtifacts.
  eapply subseq_trans; [apply replace_nil_subseq|].
  eapply subseq_trans; apply replace_nil_subseq.
Qed.

(** ** Lines of the line-by-line rules *)

Lemma no_NL_replace :
  forall re by_ l, Forall (fun c => c <> NL) by_ -> Forall (fun c => c <> NL) l ->
    Forall (fun c => c <> NL) (replace re by_ l).
Proof. intros re by_ l Hb Hl. apply replace_Forall; assumption. Qed.

Lemma split_join_map :
  forall (g : jsstring -> jsstring) s,
    (forall l, Forall (fun c => c <> NL) l -> Forall (fun c => c <> NL) (g l)) ->
    split NL (join NL (map g (split NL s))) = map g (split NL s).
Proof.
  intros g s Hg. apply split_join.
  - pose proof (split_not_nil NL s) as H. destruct (split NL s); [congruence | discriminate].
  - apply map_Forall2; [exact Hg | apply split_no_sep].
Qed.

Lemma split_removePipes :
  forall s, split NL (removePipes s) = map stripPipes (split NL s).
Proof.
  intros s. unfold removePipes. apply (split_join_map stripPipes).
  intros l Hl. unfold stripPipes. repeat apply no_NL_replace; auto.
Qed.

Lemma split_fixIndentation :
  forall s, split NL (fixIndentation s) = map fixLine (split NL s).
Proof.
  intros s. unfold fixIndentation. apply (split_join_map fixLine).
  intros l Hl. unfold fixLine. apply trim_Forall. apply no_NL_replace; [|exact Hl].
  repeat constructor. discriminate.
Qed.

(** ** The characters that are not white *)

Lemma ink_app : forall a b, ink (a ++ b) = ink a ++ ink b.
Proof. intros a b. apply filter_app. Qed.

Lemma ink_white : forall w, Forall White w -> ink w = [].
Proof.
  intros w H. induction H as [|x w Hx _ IH]; [reflexivity|].
  simpl. unfold White in Hx. rewrite Hx. exact IH.
Qed.

Lemma ink_squash : forall l b, ink (squash b l) = ink l.
Proof.
  induction l as [|x t IH]; intros b; [reflexivity|]. simpl.
  destruct (isWhiteSpace x) eqn:E.
  - destruct b; simpl; apply IH.
  - simpl. rewrite E. simpl. rewrite IH. reflexivity.
Qed.

Lemma ink_dropWhile : forall s, ink (dropWhile isWhiteSpace s) = ink s.
Proof.
  induction s as [|x t IH]; [reflexivity|]. simpl.
  destruct (isWhiteSpace x) eqn:E; simpl; [exact IH | rewrite E; reflexivity].
Qed.

Lemma ink_dropEnd : forall s, ink (dropEnd isWhiteSpace s) = ink s.
Proof.
  induction s as [|x t IH]; [reflexivity|]. rewrite dropEnd_cons.
  destruct (dropEnd isWhiteSpace t) as [|k kept].
  - simpl in IH. simpl. destruct (isWhiteSpace x) eqn:E; simpl; [exact IH|].
    rewrite E. simpl. rewrite <- IH. reflexivity.
  - change (ink (x :: k :: kept)) with (ink ([x] ++ k :: kept)).
    change (ink (x :: t)) with (ink ([x] ++ t)).
    rewrite !ink_app, IH. reflexivity.
Qed.

Lemma ink_trim : forall s, ink (trim s) = ink s.
Proof. intros s. unfold trim. rewrite ink_dropEnd. apply ink_dropWhile. Qed.

Lemma ink_join : forall ls, ink (join NL ls) = concat (map ink ls).
Proof.
  induction ls as [|l ls IH]; [reflexivity|].
  destruct ls as [|l' ls'].
  - simpl. rewrite app_nil_r. reflexivity.
  - rewrite join_cons by discriminate.
    change (l ++ NL :: join NL (l' :: ls')) with (l ++ [NL] ++ join NL (l' :: ls')).
    rewrite !ink_app, IH. reflexivity.
Qed.

Lemma ink_lines :
  forall (g : jsstring -> jsstring) s,
    (forall l, ink (g l) = ink l) -> ink (join NL (map g (split NL s))) = ink s.
Proof.
  intros g s Hg. rewrite <- (join_split NL s) at 2. rewrite !ink_join.
  f_equal. rewrite map_map. apply map_ext. exact Hg.
Qed.

Lemma ink_fixLine : forall l, ink (fixLine l) = ink l.
Proof. intros l. rewrite fixLine_squash, ink_trim. apply ink_squash. Qed.

Lemma ink_fixIndentation : forall s, ink (fixIndentation s) = ink s.
Proof. intros s. unfold fixIndentation. apply ink_lines. exact ink_fixLine. Qed.

(** A replacement of white space by white space keeps the other characters. *)
Lemma replace_from_ink :
  forall re by_, AtomsIn (reflags re) White (source re) -> Forall White by_ ->
    forall fuel before after,
      ink (replace_from re (fun _ _ => by_) fuel before after) = ink after.
Proof.
  intros re by_ HA Hb fuel.
  induction fuel as [|fuel IH]; intros before after; [reflexivity|].
  cbn [replace_from].
  assert (Hcopy : ink match after with
                      | [] => []
                      | c :: rest =>
                          c :: replace_from re (fun _ _ => by_) fuel (c :: before) rest
                      end = ink after).
  { destruct after as [|c rest]; [reflexivity|].
    change (ink ([c] ++ replace_from re (fun _ _ => by_) fuel (c :: before) rest)
            = ink ([c] ++ rest)).
    rewrite !ink_app, IH. reflexivity. }
  destruct (match_here re before after) as [st'|] eqn:H; [|exact Hcopy].
  destruct (match_here_word _ _ _ _ H) as [w [Ha [_ [_ [_ [HF _]]]]]].
  assert (Hw : ink after = ink (suf st')).
  { rewrite Ha, ink_app, (ink_white w (HF _ HA)). reflexivity. }
  destruct (negb (fl_global (reflags re))).
  - rewrite ink_app, (ink_white by_ Hb), Hw. reflexivity.
  - destruct (progressed _ st'); rewrite ink_app, (ink_white by_ Hb).
    + rewrite IH, Hw. reflexivity.
    + exact Hcopy.
Qed.

Lemma ink_collapseBlankLines : forall s, ink (collapseBlankLines s) = ink s.
Proof.
  intros s. unfold collapseBlankLines, replace, replace_with.
  apply replace_from_ink; [exact blankRun_AtomsIn | repeat constructor].
Qed.

(** ** Lengths *)

Lemma squash_length : forall l b, (length (squash b l) <= length l)%nat.
Proof.
  induction l as [|x t IH]; intros b; simpl; [lia|].
  destruct (isWhiteSpace x); [destruct b|]; simpl;
    [specialize (IH true) | specialize (IH true) | specialize (IH false)]; lia.
Qed.

Lemma fixLine_length : forall l, (length (fixLine l) <= length l)%nat.
Proof.
  intros l. rewrite fixLine_squash.
  pose proof (subseq_length _ _ (trim_subseq (squash false l))).
  pose proof (squash_length l false). lia.
Qed.

Lemma join_map_length :
  forall (g : jsstring -> jsstring) ls,
    (forall l, (length (g l) <= length l)%nat) ->
    (length (join NL (map g ls)) <= length (join NL ls))%nat.
Proof.
  intros g ls Hg. induction ls as [|l ls IH]; [simpl; lia|].
  destruct ls as [|l' ls'].
  - simpl. apply Hg.
  - rewrite (join_cons NL l (l' :: ls')) by discriminate.
    change (map g (l :: l' :: ls')) with (g l :: map g (l' :: ls')).
    rewrite join_cons by discriminate.
    rewrite !length_app. simpl length. specialize (Hg l). simpl in IH. lia.
Qed.

Lemma fixIndentation_length : forall s, (length (fixIndentation s) <= length s)%nat.
Proof.
  intros s. unfold fixIndentation. rewrite <- (join_split NL s) at 2.
  apply join_map_length. exact fixLine_length.
Qed.

(** ** The blank-line rule on any text *)

Lemma cutLastNL_None : forall w, cutLastNL w = None <-> count NL w = O.
Proof.
  induction w as [|x t IH]; simpl; [tauto|].
  destruct (cutLastNL t) as [[a b]|].
  - split; [discriminate|]. intros H. destruct (x =? NL); [discriminate|].
    apply IH in H. discriminate.
  - destruct (x =? NL); [split; discriminate | exact IH].
Qed.

Lemma cutLastNL_spec :
  forall w a b, cutLastNL w = Some (a, b) -> w = a ++ b /\ count NL b = O.
Proof.
  induction w as [|x t IH]; intros a b H; simpl in H; [discriminate|].
  destruct (cutLastNL t) as [[a' b']|] eqn:E.
  - inversion H; subst. destruct (IH a' b eq_refl) as [-> Hb]. split; [reflexivity | exact Hb].
  - destruct (x =? NL); [|discriminate]. inversion H; subst.
    split; [reflexivity | apply cutLastNL_None; exact E].
Qed.

Lemma blankEnd_spec :
  forall w a b, blankEnd w = Some (a, b) ->
    w = a ++ b /\ count NL b = O /\ (2 <= count NL w)%nat.
Proof.
  intros w a b H. unfold blankEnd in H.
  destruct (2 <=? count NL w)%nat eqn:E; [|discriminate].
  apply Nat.leb_le in E. destruct (cutLastNL_spec w a b H) as [H1 H2]. auto.
Qed.

Lemma blankEnd_None : forall w, blankEnd w = None <-> (count NL w < 2)%nat.
Proof.
  intros w. unfold blankEnd. destruct (2 <=? count NL w)%nat eqn:E.
  - apply Nat.leb_le in E. rewrite cutLastNL_None. lia.
  - apply Nat.leb_gt in E. tauto.
Qed.

(** The last [\s*\n] of the pattern, on a run of white space. *)
Lemma blank_tail_any :
  forall w rest p cs, stops isWhiteSpace rest ->
    greedy_run (rmatch flags_g (Chr NL) Some) p cs w rest
    = match cutLastNL w with
      | Some (a, b) => Some {| pre := rev a ++ p; suf := b ++ rest; caps := cs |}
      | None => None
      end.
Proof.
  induction w as [|x w IH]; intros rest p cs Hrest.
  - simpl. destruct rest as [|y rest]; [reflexivity|].
    apply stops_not_NL; [reflexivity | exact Hrest].
  - cbn [greedy_run cutLastNL]. rewrite IH by exact Hrest.
    destruct (cutLastNL w) as [[a b]|].
    + cbn [orElse]. simpl rev. rewrite <- app_assoc. reflexivity.
    + cbn [orElse]. destruct (x =? NL) eqn:Ex.
      * apply N.eqb_eq in Ex. subst x. rewrite NL_matches by reflexivity. reflexivity.
      * rewrite rmatch_Chr_cons. unfold canonicalize. simpl. rewrite Ex. reflexivity.
Qed.

(** The middle [\n\s*\n] of the pattern, before a run of white space. *)
Lemma blank_middle_any :
  forall w rest p cs, Forall White w -> stops isWhiteSpace rest ->
    rmatch flags_g blankMiddle Some {| pre := p; suf := w ++ rest; caps := cs |}
    = match w with
      | x :: w' =>
          if x =? NL
          then match cutLastNL w' with
               | Some (a, b) =>
                   Some {| pre := rev a ++ x :: p; suf := b ++ rest; caps := cs |}
               | None => None
               end
          else None
      | [] => None
      end.
Proof.
  intros w rest p cs Hw Hrest. unfold blankMiddle. rewrite rmatch_Seq.
  destruct w as [|x w'].
  - rewrite app_nil_l. destruct rest as [|y rest]; [reflexivity|].
    apply stops_not_NL; [reflexivity | exact Hrest].
  - rewrite <- app_comm_cons. inversion Hw as [|? ? Hx Hw']; subst.
    destruct (x =? NL) eqn:Ex.
    + apply N.eqb_eq in Ex. subst x. rewrite NL_matches by reflexivity.
      rewrite rmatch_Seq. unfold ws. rewrite star_cls_greedy by assumption.
      apply blank_tail_any. exact Hrest.
    + rewrite rmatch_Chr_cons. unfold canonicalize. simpl. rewrite Ex. reflexivity.
Qed.

Lemma blank_outer_any :
  forall w rest p cs, Forall White w -> stops isWhiteSpace rest ->
    greedy_run (rmatch flags_g blankMiddle Some) p cs w rest
    = match blankEnd w with
      | Some (a, b) => Some {| pre := rev a ++ p; suf := b ++ rest; caps := cs |}
      | None => None
      end.
Proof.
  induction w as [|x w IH]; intros rest p cs Hw Hrest.
  - cbn [greedy_run]. rewrite <- (app_nil_l rest) at 1.
    rewrite (blank_middle_any [] rest p cs Hw Hrest). reflexivity.
  - inversion Hw as [|? ? Hx Hw']; subst.
    cbn [greedy_run]. rewrite IH by assumption.
    destruct (blankEnd w) as [[a b]|] eqn:E.
    + cbn [orElse]. destruct (blankEnd_spec w a b E) as [_ [_ Hc]].
      unfold blankEnd in E |- *. cbn [count cutLastNL].
      replace (2 <=? count NL w)%nat with true in E by (symmetry; apply Nat.leb_le; lia).
      rewrite E.
      replace (2 <=? (if (x =? NL)%N then S (count NL w) else count NL w))%nat with true
        by (symmetry; apply Nat.leb_le; destruct (x =? NL)%N; lia).
      simpl rev. rewrite <- app_assoc. reflexivity.
    + cbn [orElse]. rewrite app_comm_cons.
      rewrite (blank_middle_any (x :: w) rest p cs Hw Hrest).
      apply blankEnd_None in E. unfold blankEnd. cbn [count cutLastNL].
      destruct (x =? NL) eqn:Ex.
      * destruct (cutLastNL w) as [[a b]|] eqn:Ec.
        -- assert (Hc : count NL w <> O).
           { intros H0. apply cutLastNL_None in H0. congruence. }
           replace (2 <=? S (count NL w))%nat with true
             by (symmetry; apply Nat.leb_le; lia).
           simpl rev. rewrite <- app_assoc. reflexivity.
        -- apply cutLastNL_None in Ec. rewrite Ec. reflexivity.
      * replace (2 <=? count NL w)%nat with false
          by (symmetry; apply Nat.leb_gt; lia).
        reflexivity.
Qed.

(** Where the blank-line pattern matches, and what it reads. *)
Lemma match_here_blankRun :
  forall before after,
    match_here blankRunRe before after
    = match after with
      | x :: rest =>
          if x =? NL
          then match blankEnd (takeWhile isWhiteSpace rest) with
               | Some (a, b) =>
                   Some {| pre := rev a ++ NL :: before;
                           suf := b ++ dropWhile isWhiteSpace rest; caps := [] |}
               | None => None
               end
          else None
      | [] => None
      end.
Proof.
  intros before after. destruct after as [|x rest]; [reflexivity|].
  destruct (x =? NL) eqn:Ex; [|apply match_here_blankRun_other; exact Ex].
  apply N.eqb_eq in Ex. subst x.
  unfold match_here, start_state.
  change (source blankRunRe)
    with (Seq (Chr NL) (Seq (Star true (Cls isWhiteSpace)) blankMiddle)).
  change (reflags blankRunRe) with flags_g.
  rewrite rmatch_Seq, NL_matches by reflexivity.
  rewrite rmatch_Seq.
  rewrite (takeWhile_dropWhile isWhiteSpace rest) at 1.
  rewrite star_cls_greedy by (try apply takeWhile_Forall; apply dropWhile_stops).
  apply blank_outer_any; [apply takeWhile_Forall | apply dropWhile_stops].
Qed.

Lemma replace_blankRun_any :
  forall fuel before after,
    replace_from blankRunRe (fun _ _ => [NL; NL]) fuel before after = collapseFrom fuel after.
Proof.
  induction fuel as [|fuel IH]; intros before after; [reflexivity|].
  cbn [replace_from collapseFrom]. rewrite match_here_blankRun.
  destruct after as [|x rest]; [reflexivity|].
  destruct (x =? NL) eqn:Ex; [|rewrite IH; reflexivity].
  destruct (blankEnd (takeWhile isWhiteSpace rest)) as [[a b]|] eqn:E;
    [|rewrite IH; reflexivity].
  cbn [reflags blankRunRe fl_global flags_g negb suf pre caps].
  assert (Hp : progressed (start_state before (x :: rest))
                 {| pre := rev a ++ NL :: before;
                    suf := b ++ dropWhile isWhiteSpace rest; caps := [] |} = true).
  { unfold progressed. simpl. apply Nat.ltb_lt.
    destruct (blankEnd_spec _ a b E) as [Hw _].
    rewrite (takeWhile_dropWhile isWhiteSpace rest) at 2. rewrite Hw.
    rewrite !length_app. lia. }
  rewrite Hp, IH. reflexivity.
Qed.

Lemma collapseBlankLines_scan :
  forall s, collapseBlankLines s = collapseFrom (S (length s)) s.
Proof. intros s. unfold collapseBlankLines, replace, replace_with. apply replace_blankRun_any. Qed.

Lemma takeWhile_app_stops :
  forall f b rest, Forall (fun x => f x = true) b -> stops f rest ->
    takeWhile f (b ++ rest) = b.
Proof.
  intros f b rest Hb Hr. induction Hb as [|x b Hx _ IH]; simpl.
  - destruct rest as [|y r]; [reflexivity|]. simpl in Hr |- *. rewrite Hr. reflexivity.
  - rewrite Hx, IH. reflexivity.
Qed.

Lemma takeWhile_length : forall f s, (length (takeWhile f s) <= length s)%nat.
Proof.
  intros f s. induction s as [|c rest IH]; simpl; [lia|].
  destruct (f c); simpl; lia.
Qed.

Lemma calm_cons :
  forall k x t,
    calm k (x :: t) =
    if x =? NL then (k <? 2)%nat && calm (S k) t
    else if isWhiteSpace x then calm k t
    else calm O t.
Proof. reflexivity. Qed.

Lemma takeWhile_ws_cons :
  forall x t,
    takeWhile isWhiteSpace (x :: t)
    = if isWhiteSpace x then x :: takeWhile isWhiteSpace t else [].
Proof. reflexivity. Qed.

Lemma NL_ws : forall x, (x =? NL) = true -> isWhiteSpace x = true.
Proof. intros x H. apply N.eqb_eq in H. subst x. reflexivity. Qed.

(** What the scan writes is calm. *)
Lemma calm_collapseFrom :
  forall fuel s k, (length s < fuel)%nat ->
    (k = O \/ k + count NL (takeWhile isWhiteSpace s) <= 2)%nat ->
    calm k (collapseFrom fuel s) = true.
Proof.
  induction fuel as [|fuel IH]; intros s k Hlen Hk; [lia|].
  destruct s as [|x rest]; [reflexivity|]. simpl in Hlen.
  cbn [collapseFrom]. rewrite takeWhile_ws_cons in Hk.
  destruct (x =? NL) eqn:Ex.
  - rewrite (NL_ws x Ex) in Hk. cbn [count] in Hk. rewrite Ex in Hk.
    destruct (blankEnd (takeWhile isWhiteSpace rest)) as [[a b]|] eqn:E.
    + destruct (blankEnd_spec _ a b E) as [Hw [Hb Hc]].
      assert (Hk0 : k = O) by lia. subst k.
      rewrite !calm_cons. cbn [N.eqb Pos.eqb NL]. simpl.
      apply IH.
      * pose proof (f_equal (@length char) (takeWhile_dropWhile isWhiteSpace rest)) as HL.
        rewrite Hw in HL. rewrite !length_app in HL. rewrite length_app. lia.
      * right. rewrite takeWhile_app_stops.
        -- lia.
        -- pose proof (takeWhile_Forall isWhiteSpace rest) as HF. rewrite Hw in HF.
           apply Forall_app in HF. tauto.
        -- apply dropWhile_stops.
    + apply blankEnd_None in E. rewrite calm_cons, Ex.
      apply andb_true_iff. split; [apply Nat.ltb_lt; lia|].
      apply IH; [lia | right; lia].
  - rewrite calm_cons, Ex. destruct (isWhiteSpace x) eqn:Ew.
    + cbn [count] in Hk. rewrite Ex in Hk. apply IH; [lia | exact Hk].
    + apply IH; [lia | left; reflexivity].
Qed.

Lemma calm_count :
  forall s k, (k <= 2)%nat -> calm k s = true ->
    (k + count NL (takeWhile isWhiteSpace s) <= 2)%nat.
Proof.
  induction s as [|x t IH]; intros k Hk H; [simpl; lia|].
  rewrite calm_cons in H. rewrite takeWhile_ws_cons.
  destruct (x =? NL) eqn:Ex.
  - rewrite (NL_ws x Ex). cbn [count]. rewrite Ex.
    apply andb_true_iff in H. destruct H as [H1 H2]. apply Nat.ltb_lt in H1.
    specialize (IH (S k) ltac:(lia) H2). lia.
  - destruct (isWhiteSpace x).
    + cbn [count]. rewrite Ex. apply IH; assumption.
    + simpl. lia.
Qed.

(** The scan leaves a calm text as it is. *)
Lemma collapseFrom_calm :
  forall fuel s k, (k <= 2)%nat -> calm k s = true -> collapseFrom fuel s = s.
Proof.
  induction fuel as [|fuel IH]; intros s k Hk H; [reflexivity|].
  destruct s as [|x rest]; [reflexivity|].
  cbn [collapseFrom]. rewrite calm_cons in H.
  destruct (x =? NL) eqn:Ex.
  - apply andb_true_iff in H. destruct H as [H1 H2]. apply Nat.ltb_lt in H1.
    pose proof (calm_count rest (S k) ltac:(lia) H2) as Hc.
    assert (E : blankEnd (takeWhile isWhiteSpace rest) = None)
      by (apply blankEnd_None; lia).
    rewrite E. rewrite (IH rest (S k)) by (try assumption; lia). reflexivity.
  - destruct (isWhiteSpace x).
    + rewrite (IH rest k) by assumption. reflexivity.
    + rewrite (IH rest O) by (try assumption; lia). reflexivity.
Qed.

Lemma calm_collapseBlankLines : forall s, calm O (collapseBlankLines s) = true.
Proof.
  intros s. rewrite collapseBlankLines_scan. apply calm_collapseFrom; [lia | left; reflexivity].
Qed.

Lemma collapseBlankLines_calm : forall s, calm O s = true -> collapseBlankLines s = s.
Proof.
  intros s H. rewrite collapseBlankLines_scan. apply (collapseFrom_calm _ s O); [lia | exact H].
Qed.

Lemma calm_no_triple :
  forall a b k, calm k (a ++ NL :: NL :: NL :: b) = false.
Proof.
  induction a as [|x a IH]; intros b k.
  - simpl. destruct k as [|[|k]]; reflexivity.
  - rewrite <- app_comm_cons, calm_cons.
    destruct (x =? NL); [rewrite IH; apply andb_false_r|].
    destruct (isWhiteSpace x); apply IH.
Qed.

Lemma calm_no_blank_lines :
  forall s k, calm k s = true -> ~ infix [NL; NL; NL] s.
Proof.
  intros s k H [a [b E]]. subst s. simpl in H. rewrite calm_no_triple in H. discriminate.
Qed.

Lemma calm_dropWhile :
  forall s k, calm k s = true -> calm O (dropWhile isWhiteSpace s) = true.
Proof.
  induction s as [|x t IH]; intros k H; [reflexivity|].
  rewrite calm_cons in H. simpl dropWhile.
  destruct (x =? NL) eqn:Ex.
  - rewrite (NL_ws x Ex). apply andb_true_iff in H. destruct H as [_ H]. apply (IH _ H).
  - destruct (isWhiteSpace x) eqn:Ew; [apply (IH _ H)|].
    rewrite calm_cons, Ex, Ew. exact H.
Qed.

Lemma calm_dropEnd :
  forall s k, calm k s = true -> calm k (dropEnd isWhiteSpace s) = true.
Proof.
  induction s as [|x t IH]; intros k H; [reflexivity|].
  rewrite dropEnd_cons. rewrite calm_cons in H.
  destruct (dropEnd isWhiteSpace t) as [|c kept] eqn:Ed.
  - destruct (isWhiteSpace x) eqn:Ew; [reflexivity|].
    rewrite calm_cons, Ew. rewrite (not_ws_not_NL x Ew). reflexivity.
  - rewrite calm_cons. destruct (x =? NL).
    + apply andb_true_iff in H. destruct H as [H1 H2]. rewrite H1. exact (IH _ H2).
    + destruct (isWhiteSpace x); exact (IH _ H).
Qed.

Lemma calm_trim : forall s k, calm k s = true -> calm O (trim s) = true.
Proof.
  intros s k H. unfold trim. apply calm_dropEnd. apply (calm_dropWhile s k H).
Qed.

(** ** The box rule without patterns *)

Lemma orElse_None_r : forall a, orElse a None = a.
Proof. intros [x|]; reflexivity. Qed.

(** When the continuation refuses every character of the class, a greedy
    star over the class reads the whole run. *)
Lemma greedy_run_full :
  forall (f : char -> bool) k w rest p cs,
    (forall p' x r cs', f x = true ->
        k {| pre := p'; suf := x :: r; caps := cs' |} = None) ->
    Forall (fun x => f x = true) w ->
    greedy_run k p cs w rest = k {| pre := rev w ++ p; suf := rest; caps := cs |}.
Proof.
  intros f k w rest p cs Hk Hw. revert p.
  induction Hw as [|x w Hx _ IH]; intros p; [reflexivity|].
  cbn [greedy_run]. rewrite IH. rewrite (Hk p x (w ++ rest) cs Hx).
  rewrite orElse_None_r. simpl rev. rewrite <- app_assoc. reflexivity.
Qed.

Lemma match_here_not_first :
  forall re c before after,
    StartsBol (source re) -> fl_multiline (reflags re) = false ->
    match_here re (c :: before) after = None.
Proof.
  intros re c before after HB Hfl.
  destruct (match_here re (c :: before) after) as [st'|] eqn:H; [|reflexivity].
  destruct (match_here_word _ _ _ _ H) as [w [_ [_ [_ [Hm _]]]]].
  apply (Matches_StartsBol _ _ _ _ HB) in Hm. unfold at_bol in Hm. simpl in Hm.
  rewrite Hfl in Hm. discriminate.
Qed.

(** A pattern that begins with [^], without the [g] and [m] flags, is
    tried at the start of the text only. *)
Lemma replace_at_start :
  forall re f s,
    StartsBol (source re) -> fl_multiline (reflags re) = false ->
    fl_global (reflags re) = false ->
    replace_with re f s
    = match match_here re [] s with
      | Some st' => f (segment (start_state [] s) st') (caps st') ++ suf st'
      | None => s
      end.
Proof.
  intros re f s HB Hm Hg. unfold replace_with. cbn [replace_from]. rewrite Hg.
  destruct (match_here re [] s) as [st'|]; [reflexivity|].
  destruct s as [|c rest]; [reflexivity|]. f_equal.
  apply replace_from_nomatch. intros a b _.
  destruct (rev a ++ [c]) as [|y q] eqn:E.
  - destruct (rev a); discriminate.
  - apply match_here_not_first; assumption.
Qed.

Lemma trail_not_ws : forall x, oneOf trailChars x = true -> isWhiteSpace x = false.
Proof. intros x H. oneOf_cases H; reflexivity. Qed.

Lemma match_here_boxLead :
  forall c t,
    match_here boxLeadRe [] (c :: t)
    = if oneOf leadChars c
      then Some {| pre := rev (takeWhile isWhiteSpace t) ++ [c];
                   suf := dropWhile isWhiteSpace t; caps := [] |}
      else None.
Proof.
  intros c t. unfold match_here, start_state.
  change (source boxLeadRe)
    with (Seq Bol (Seq (Cls (oneOf leadChars)) (Star true (Cls isWhiteSpace)))).
  change (reflags boxLeadRe) with noflags.
  rewrite rmatch_Seq. cbn [rmatch at_bol pre]. 
  change (rmatch noflags (Cls (oneOf leadChars))
            (rmatch noflags (Star true (Cls isWhiteSpace)) Some)
            {| pre := []; suf := c :: t; caps := [] |}
          = if oneOf leadChars c
            then Some {| pre := rev (takeWhile isWhiteSpace t) ++ [c];
                         suf := dropWhile isWhiteSpace t; caps := [] |}
            else None).
  rewrite rmatch_Cls_cons. destruct (oneOf leadChars c); [|reflexivity].
  rewrite (takeWhile_dropWhile isWhiteSpace t) at 1.
  rewrite star_cls_greedy by (try apply takeWhile_Forall; apply dropWhile_stops).
  apply greedy_run_all. reflexivity.
Qed.

Lemma replace_boxLead : forall l, replace boxLeadRe [] l = cutLead l.
Proof.
  intros l. unfold replace.
  rewrite replace_at_start by (try reflexivity; repeat constructor).
  destruct l as [|c t]; [reflexivity|].
  rewrite match_here_boxLead. unfold cutLead.
  destruct (oneOf leadChars c); reflexivity.
Qed.

Lemma match_here_boxTrail :
  forall before after,
    match_here boxTrailRe before after
    = if frameEnd after
      then Some {| pre := rev after ++ before; suf := []; caps := [] |}
      else None.
Proof.
  intros before after. unfold match_here, start_state, frameEnd.
  change (source boxTrailRe)
    with (Seq (Star true (Cls isWhiteSpace)) (Seq (Cls (oneOf trailChars)) Eol)).
  change (reflags boxTrailRe) with noflags.
  rewrite rmatch_Seq.
  rewrite (takeWhile_dropWhile isWhiteSpace after) at 1.
  rewrite star_cls_greedy by (try apply takeWhile_Forall; apply dropWhile_stops).
  rewrite (greedy_run_full isWhiteSpace).
  - rewrite (takeWhile_dropWhile isWhiteSpace after) at 4.
    destruct (dropWhile isWhiteSpace after) as [|y r].
    + reflexivity.
    + rewrite rmatch_Seq, rmatch_Cls_cons.
      destruct r as [|z r'].
      * destruct (oneOf trailChars y); [|reflexivity].
        cbn [rmatch at_eol suf]. rewrite rev_app_distr. reflexivity.
      * destruct (oneOf trailChars y); reflexivity.
  - intros p' x r cs' Hx. rewrite rmatch_Seq, rmatch_Cls_cons.
    destruct (oneOf trailChars x) eqn:E; [|reflexivity].
    apply trail_not_ws in E. congruence.
  - apply takeWhile_Forall.
Qed.

Lemma replace_boxTrail_from :
  forall fuel before after, (length after < fuel)%nat ->
    replace_from boxTrailRe (fun _ _ => []) fuel before after = cutAt frameEnd after.
Proof.
  induction fuel as [|fuel IH]; intros before after Hlen; [lia|].
  cbn [replace_from]. rewrite match_here_boxTrail.
  destruct after as [|c rest]; [reflexivity|]. simpl in Hlen.
  cbn [cutAt]. destruct (frameEnd (c :: rest)); [reflexivity|].
  rewrite IH by lia. reflexivity.
Qed.

Lemma dropEnd_nil_iff :
  forall f s, dropEnd f s = [] <-> forallb f s = true.
Proof.
  intros f s. induction s as [|x t IH]; [simpl; tauto|].
  rewrite dropEnd_cons. cbn [forallb].
  destruct (dropEnd f t) as [|k kept].
  - destruct (f x); simpl.
    + split; [intros _; apply IH; reflexivity | reflexivity].
    + split; discriminate.
  - split; [discriminate|]. intros H. apply andb_true_iff in H. destruct H as [_ H].
    apply IH in H. discriminate.
Qed.

Lemma frameEnd_eq :
  forall l, frameEnd l
            = forallb isWhiteSpace (removelast l) && oneOf trailChars (last l 0).
Proof.
  induction l as [|c t IH]; [reflexivity|].
  destruct t as [|x t'].
  - unfold frameEnd. cbn [dropWhile removelast last forallb andb].
    destruct (isWhiteSpace c) eqn:E; [|reflexivity].
    destruct (oneOf trailChars c) eqn:Et; [|reflexivity].
    apply trail_not_ws in Et. congruence.
  - change (removelast (c :: x :: t')) with (c :: removelast (x :: t')).
    change (last (c :: x :: t') 0) with (last (x :: t') 0).
    cbn [forallb]. unfold frameEnd in IH |- *. cbn [dropWhile].
    destruct (isWhiteSpace c); [exact IH | reflexivity].
Qed.

(** The scan for the trailing frame character cuts the line before the
    white space that precedes its last character, when that is a trailing
    frame character. *)
Lemma cutAt_frameEnd : forall l, cutAt frameEnd l = cutTrail l.
Proof.
  induction l as [|c t IH]; [reflexivity|].
  cbn [cutAt]. rewrite frameEnd_eq. unfold cutTrail in IH |- *.
  destruct t as [|x t'].
  - cbn [removelast last forallb andb cutAt dropEnd].
    destruct (oneOf trailChars c); reflexivity.
  - change (removelast (c :: x :: t')) with (c :: removelast (x :: t')).
    change (last (c :: x :: t') 0) with (last (x :: t') 0).
    rewrite IH. cbn [forallb].
    destruct (oneOf trailChars (last (x :: t') 0)).
    + rewrite andb_true_r. rewrite dropEnd_cons.
      destruct (dropEnd isWhiteSpace (removelast (x :: t'))) as [|k kept] eqn:Ed.
      * apply dropEnd_nil_iff in Ed. rewrite Ed, andb_true_r.
        destruct (isWhiteSpace c); reflexivity.
      * assert (Hf : forallb isWhiteSpace (removelast (x :: t')) = false).
        { destruct (forallb isWhiteSpace (removelast (x :: t'))) eqn:Ef; [|reflexivity].
          apply dropEnd_nil_iff in Ef. congruence. }
        rewrite Hf, andb_false_r. reflexivity.
    + rewrite andb_false_r. reflexivity.
Qed.

Lemma replace_boxTrail : forall l, replace boxTrailRe [] l = cutTrail l.
Proof.
  intros l. unfold replace, replace_with.
  rewrite replace_boxTrail_from by lia. apply cutAt_frameEnd.
Qed.

Lemma bool_eq_iff : forall a b : bool, (a = true <-> b = true) -> a = b.
Proof. intros [|] [|] [H1 H2]; auto; symmetry; auto. Qed.

Lemma test_boxOnly : forall l, test boxOnlyRe l = allBox l.
Proof.
  intros l. apply bool_eq_iff. rewrite boxOnly_test_iff. unfold allBox.
  destruct l as [|c t].
  - split; [intros [H _]; congruence | discriminate].
  - rewrite forallb_forall, Forall_forall. split; [tauto|].
    intros H. split; [discriminate | exact H].
Qed.

Lemma stripFrame_eq : forall l, stripFrame l = cutTrail (cutLead l).
Proof. intros l. unfold stripFrame. rewrite replace_boxLead, replace_boxTrail. reflexivity. Qed.

Lemma filter_ext_bool :
  forall (p q : jsstring -> bool) ls, (forall l, p l = q l) -> filter p ls = filter q ls.
Proof.
  intros p q ls H. induction ls as [|l ls IH]; simpl; [reflexivity|].
  rewrite H, IH. reflexivity.
Qed.

(** ** The pipe rule without patterns *)

Lemma PIPE_matches :
  forall k p rest cs,
    rmatch noflags (Chr PIPE) k {| pre := p; suf := PIPE :: rest; caps := cs |}
    = k {| pre := PIPE :: p; suf := rest; caps := cs |}.
Proof. intros. rewrite rmatch_Chr_cons. reflexivity. Qed.

Lemma PIPE_refuses :
  forall k p x rest cs, (x =? PIPE) = false ->
    rmatch noflags (Chr PIPE) k {| pre := p; suf := x :: rest; caps := cs |} = None.
Proof.
  intros k p x rest cs H. rewrite rmatch_Chr_cons. unfold canonicalize. simpl.
  rewrite H. reflexivity.
Qed.

Lemma ws_not_PIPE : forall x, isWhiteSpace x = true -> (x =? PIPE) = false.
Proof.
  intros x H. destruct (x =? PIPE) eqn:E; [|reflexivity].
  apply N.eqb_eq in E. subst x. discriminate.
Qed.

Lemma dropWhile_nil_iff :
  forall f s, dropWhile f s = [] <-> forallb f s = true.
Proof.
  intros f s. induction s as [|x t IH]; [simpl; tauto|].
  simpl. destruct (f x); simpl; [exact IH | split; discriminate].
Qed.

Lemma match_here_pipeLead :
  forall l,
    match_here pipeLeadRe [] l
    = match dropWhile isWhiteSpace l with
      | x :: t =>
          if x =? PIPE
          then Some {| pre := rev (takeWhile isWhiteSpace t)
                                ++ x :: rev (takeWhile isWhiteSpace l) ++ [];
                       suf := dropWhile isWhiteSpace t; caps := [] |}
          else None
      | [] => None
      end.
Proof.
  intros l. unfold match_here, start_state.
  change (source pipeLeadRe)
    with (Seq Bol (Seq (Star true (Cls isWhiteSpace))
                       (Seq (Chr PIPE) (Star true (Cls isWhiteSpace))))).
  change (reflags pipeLeadRe) with noflags.
  rewrite rmatch_Seq. cbn [rmatch at_bol pre].
  change (rmatch noflags (Star true (Cls isWhiteSpace))
            (rmatch noflags (Seq (Chr PIPE) (Star true (Cls isWhiteSpace))) Some)
            {| pre := []; suf := l; caps := [] |}
          = match dropWhile isWhiteSpace l with
            | x :: t =>
                if x =? PIPE
                then Some {| pre := rev (takeWhile isWhiteSpace t)
                                      ++ x :: rev (takeWhile isWhiteSpace l) ++ [];
                             suf := dropWhile isWhiteSpace t; caps := [] |}
                else None
            | [] => None
            end).
  rewrite (takeWhile_dropWhile isWhiteSpace l) at 1.
  rewrite star_cls_greedy by (try apply takeWhile_Forall; apply dropWhile_stops).
  rewrite (greedy_run_full isWhiteSpace).
  - destruct (dropWhile isWhiteSpace l) as [|x t]; [reflexivity|].
    rewrite rmatch_Seq. destruct (x =? PIPE) eqn:Ex.
    + apply N.eqb_eq in Ex. subst x. rewrite PIPE_matches.
      rewrite (takeWhile_dropWhile isWhiteSpace t) at 1.
      rewrite star_cls_greedy by (try apply takeWhile_Forall; apply dropWhile_stops).
      apply greedy_run_all. reflexivity.
    + apply PIPE_refuses. exact Ex.
  - intros p' x r cs' Hx. rewrite rmatch_Seq. apply PIPE_refuses.
    apply ws_not_PIPE. exact Hx.
  - apply takeWhile_Forall.
Qed.

Lemma replace_pipeLead_eq : forall l, replace pipeLeadRe [] l = cutLeadPipe l.
Proof.
  intros l. unfold replace.
  rewrite replace_at_start by (try reflexivity; repeat constructor).
  rewrite match_here_pipeLead. unfold cutLeadPipe.
  destruct (dropWhile isWhiteSpace l) as [|x t]; [reflexivity|].
  destruct (x =? PIPE); reflexivity.
Qed.

Lemma takeWhile_all :
  forall f s, forallb f s = true -> takeWhile f s = s.
Proof.
  intros f s. induction s as [|x t IH]; intros H; [reflexivity|].
  simpl in H |- *. apply andb_true_iff in H. destruct H as [Hx Ht].
  rewrite Hx, (IH Ht). reflexivity.
Qed.

Lemma match_here_pipeTrail :
  forall before after,
    match_here pipeTrailRe before after
    = if pipeEnd after
      then Some {| pre := rev after ++ before; suf := []; caps := [] |}
      else None.
Proof.
  intros before after. unfold match_here, start_state, pipeEnd.
  change (source pipeTrailRe)
    with (Seq (Star true (Cls isWhiteSpace))
              (Seq (Chr PIPE) (Seq (Star true (Cls isWhiteSpace)) Eol))).
  change (reflags pipeTrailRe) with noflags.
  rewrite rmatch_Seq.
  rewrite (takeWhile_dropWhile isWhiteSpace after) at 1.
  rewrite star_cls_greedy by (try apply takeWhile_Forall; apply dropWhile_stops).
  rewrite (greedy_run_full isWhiteSpace).
  - rewrite (takeWhile_dropWhile isWhiteSpace after) at 4.
    destruct (dropWhile isWhiteSpace after) as [|x r]; [reflexivity|].
    rewrite rmatch_Seq. destruct (x =? PIPE) eqn:Ex.
    + apply N.eqb_eq in Ex. subst x. rewrite PIPE_matches. rewrite rmatch_Seq.
      rewrite (takeWhile_dropWhile isWhiteSpace r) at 1.
      rewrite star_cls_greedy by (try apply takeWhile_Forall; apply dropWhile_stops).
      rewrite (greedy_run_full isWhiteSpace).
      * cbn [andb]. destruct (forallb isWhiteSpace r) eqn:Er.
        -- pose proof Er as Ed. apply dropWhile_nil_iff in Ed. rewrite Ed.
           rewrite (takeWhile_all _ _ Er). cbn [rmatch at_eol suf].
           rewrite rev_app_distr. simpl rev. rewrite <- !app_assoc. reflexivity.
        -- destruct (dropWhile isWhiteSpace r) as [|y r'] eqn:Ed.
           ++ apply dropWhile_nil_iff in Ed. congruence.
           ++ reflexivity.
      * intros p' y r' cs' Hy. reflexivity.
      * apply takeWhile_Forall.
    + apply PIPE_refuses. exact Ex.
  - intros p' x r cs' Hx. rewrite rmatch_Seq. apply PIPE_refuses.
    apply ws_not_PIPE. exact Hx.
  - apply takeWhile_Forall.
Qed.

Lemma replace_pipeTrail_from :
  forall fuel before after, (length after < fuel)%nat ->
    replace_from pipeTrailRe (fun _ _ => []) fuel before after = cutAt pipeEnd after.
Proof.
  induction fuel as [|fuel IH]; intros before after Hlen; [lia|].
  cbn [replace_from]. rewrite match_here_pipeTrail.
  destruct after as [|c rest]; [reflexivity|]. simpl in Hlen.
  cbn [cutAt]. destruct (pipeEnd (c :: rest)); [reflexivity|].
  rewrite IH by lia. reflexivity.
Qed.

Lemma pipeEnd_eq :
  forall l, pipeEnd l
            = forallb isWhiteSpace (removelast (dropEnd isWhiteSpace l))
              && (last (dropEnd isWhiteSpace l) 0 =? PIPE).
Proof.
  induction l as [|c t IH]; [reflexivity|].
  rewrite dropEnd_cons. unfold pipeEnd in IH |- *. cbn [dropWhile].
  destruct (dropEnd isWhiteSpace t) as [|k kept] eqn:Ed.
  - pose proof Ed as Ef. apply dropEnd_nil_iff in Ef.
    destruct (isWhiteSpace c) eqn:E.
    + rewrite IH. reflexivity.
    + cbn [removelast last forallb andb]. rewrite Ef. apply andb_true_r.
  - assert (Hf : forallb isWhiteSpace t = false).
    { destruct (forallb isWhiteSpace t) eqn:Ef; [|reflexivity].
      apply dropEnd_nil_iff in Ef. congruence. }
    change (removelast (c :: k :: kept)) with (c :: removelast (k :: kept)).
    change (last (c :: k :: kept) 0) with (last (k :: kept) 0).
    cbn [forallb]. destruct (isWhiteSpace c) eqn:E.
    + rewrite IH. reflexivity.
    + rewrite Hf, andb_false_r. reflexivity.
Qed.

Lemma cutAt_pipeEnd : forall l, cutAt pipeEnd l = cutTrailPipe l.
Proof.
  induction l as [|c t IH]; [reflexivity|].
  cbn [cutAt]. rewrite pipeEnd_eq. unfold cutTrailPipe in IH |- *.
  rewrite dropEnd_cons. rewrite IH.
  destruct (dropEnd isWhiteSpace t) as [|k kept] eqn:Ed.
  - cbn [last removelast]. change (0 =? PIPE) with false. cbn iota.
    destruct (isWhiteSpace c) eqn:E.
    + reflexivity.
    + cbn [removelast last forallb andb dropEnd]. destruct (c =? PIPE); reflexivity.
  - change (removelast (c :: k :: kept)) with (c :: removelast (k :: kept)).
    change (last (c :: k :: kept) 0) with (last (k :: kept) 0).
    cbn [forallb].
    destruct (last (k :: kept) 0 =? PIPE).
    + rewrite andb_true_r. rewrite dropEnd_cons.
      destruct (dropEnd isWhiteSpace (removelast (k :: kept))) as [|k' kept'] eqn:Ed'.
      * apply dropEnd_nil_iff in Ed'. rewrite Ed', andb_true_r.
        destruct (isWhiteSpace c); reflexivity.
      * assert (Hf : forallb isWhiteSpace (removelast (k :: kept)) = false).
        { destruct (forallb isWhiteSpace (removelast (k :: kept))) eqn:Ef; [|reflexivity].
          apply dropEnd_nil_iff in Ef. congruence. }
        rewrite Hf, andb_false_r. reflexivity.
    + rewrite andb_false_r. reflexivity.
Qed.

Lemma replace_pipeTrail_eq : forall l, replace pipeTrailRe [] l = cutTrailPipe l.
Proof.
  intros l. unfold replace, replace_with.
  rewrite replace_pipeTrail_from by lia. apply cutAt_pipeEnd.
Qed.

Lemma stripPipes_eq : forall l, stripPipes l = cutTrailPipe (cutLeadPipe l).
Proof.
  intros l. unfold stripPipes. rewrite replace_pipeLead_eq, replace_pipeTrail_eq. reflexivity.
Qed.

(** ** SGR sequences in the artifact rule *)

Lemma rmatch_Chr_plain :
  forall fl c k p x rest cs, fl_ignoreCase fl = false ->
    rmatch fl (Chr c) k {| pre := p; suf := x :: rest; caps := cs |}
    = if x =? c then k {| pre := x :: p; suf := rest; caps := cs |} else None.
Proof.
  intros fl c k p x rest cs Hfl. rewrite rmatch_Chr_cons. unfold canonicalize.
  rewrite Hfl. reflexivity.
Qed.

Lemma param_not_m : forall x, isSgrParam x = true -> (x =? 109) = false.
Proof.
  intros x H. destruct (x =? 109) eqn:E; [|reflexivity].
  apply N.eqb_eq in E. subst x. discriminate.
Qed.

Lemma match_here_ansi :
  forall before after,
    match_here ansiRe before after
    = match after with
      | x :: y :: r =>
          if (x =? ESC) && (y =? LBRACK)
          then match dropWhile isSgrParam r with
               | z :: r' =>
                   if z =? 109
                   then Some {| pre := z :: rev (takeWhile isSgrParam r) ++ y :: x :: before;
                                suf := r'; caps := [] |}
                   else None
               | [] => None
               end
          else None
      | _ => None
      end.
Proof.
  intros before after. unfold match_here, start_state.
  change (source ansiRe)
    with (Seq (Chr ESC) (Seq (Chr LBRACK) (Seq (Star true (Cls isSgrParam)) (Chr 109)))).
  change (reflags ansiRe) with flags_g.
  rewrite rmatch_Seq.
  destruct after as [|x after]; [reflexivity|].
  rewrite rmatch_Chr_plain by reflexivity.
  destruct (x =? ESC); [|destruct after; reflexivity].
  rewrite rmatch_Seq.
  destruct after as [|y r]; [reflexivity|].
  rewrite rmatch_Chr_plain by reflexivity.
  destruct (y =? LBRACK); [|reflexivity]. cbn [andb].
  rewrite rmatch_Seq.
  rewrite (takeWhile_dropWhile isSgrParam r) at 1.
  rewrite star_cls_greedy by (try apply takeWhile_Forall; apply dropWhile_stops).
  rewrite (greedy_run_full isSgrParam).
  - destruct (dropWhile isSgrParam r) as [|z r']; [reflexivity|].
    rewrite rmatch_Chr_plain by reflexivity. reflexivity.
  - intros p' z r' cs' Hz. rewrite rmatch_Chr_plain by reflexivity.
    rewrite (param_not_m z Hz). reflexivity.
  - apply takeWhile_Forall.
Qed.

Lemma sgrEnd_length :
  forall s r', sgrEnd s = Some r' -> (length r' < length s)%nat.
Proof.
  intros s r' H. unfold sgrEnd in H.
  destruct s as [|x [|y r]]; try discriminate.
  destruct ((x =? ESC) && (y =? LBRACK)); [|discriminate].
  pose proof (dropWhile_length isSgrParam r) as HL.
  destruct (dropWhile isSgrParam r) as [|z r'']; [discriminate|].
  destruct (z =? 109); [|discriminate]. inversion H; subst. simpl in *. lia.
Qed.

Lemma replace_ansi_from :
  forall fuel before after,
    replace_from ansiRe (fun _ _ => []) fuel before after = stripSgr fuel after.
Proof.
  induction fuel as [|fuel IH]; intros before after; [reflexivity|].
  cbn [replace_from stripSgr]. rewrite match_here_ansi.
  pose proof (sgrEnd_length after) as HL. unfold sgrEnd in HL |- *.
  destruct after as [|x [|y r]]; try (rewrite ?IH; reflexivity).
  destruct ((x =? ESC) && (y =? LBRACK)); [|rewrite !IH; reflexivity].
  destruct (dropWhile isSgrParam r) as [|z r']; [rewrite !IH; reflexivity|].
  destruct (z =? 109); [|rewrite !IH; reflexivity].
  cbn [reflags ansiRe fl_global flags_g negb suf pre caps].
  specialize (HL r' eq_refl).
  replace (progressed (start_state before (x :: y :: r))
             {| pre := z :: rev (takeWhile isSgrParam r) ++ y :: x :: before;
                suf := r'; caps := [] |}) with true
    by (symmetry; unfold progressed; apply Nat.ltb_lt; exact HL).
  rewrite IH. reflexivity.
Qed.

Lemma replace_ansi : forall s, replace ansiRe [] s = stripSgr (S (length s)) s.
Proof. intros s. unfold replace, replace_with. apply replace_ansi_from. Qed.

Lemma stripSgr_S :
  forall fuel s,
    stripSgr (S fuel) s
    = match sgrEnd s with
      | Some r' => stripSgr fuel r'
      | None =>
          match s with
          | [] => []
          | c :: t => c :: stripSgr fuel t
          end
      end.
Proof. reflexivity. Qed.

Lemma stripSgr_fuel :
  forall f1 f2 s, (length s < f1)%nat -> (length s < f2)%nat ->
    stripSgr f1 s = stripSgr f2 s.
Proof.
  induction f1 as [|f1 IH]; intros f2 s H1 H2; [lia|].
  destruct f2 as [|f2]; [lia|]. cbn [stripSgr].
  destruct (sgrEnd s) as [r'|] eqn:E.
  - pose proof (sgrEnd_length s r' E). apply IH; lia.
  - destruct s as [|c t]; [reflexivity|]. simpl in H1, H2. f_equal. apply IH; lia.
Qed.

Lemma dropWhile_app_stop :
  forall f w z rest, Forall (fun x => f x = true) w -> f z = false ->
    dropWhile f (w ++ z :: rest) = z :: rest.
Proof.
  intros f w z rest Hw Hz. induction Hw as [|x w Hx _ IH]; simpl.
  - rewrite Hz. reflexivity.
  - rewrite Hx. exact IH.
Qed.

Lemma dropWhile_app_cons :
  forall f r z r' T, dropWhile f r = z :: r' -> dropWhile f (r ++ T) = z :: r' ++ T.
Proof.
  intros f r z r' T. induction r as [|x r IH]; intros H; simpl in *; [discriminate|].
  destruct (f x); [apply IH; exact H|]. inversion H; subst. reflexivity.
Qed.

Lemma dropWhile_app_nil :
  forall f r T, dropWhile f r = [] -> dropWhile f (r ++ T) = dropWhile f T.
Proof.
  intros f r T. induction r as [|x r IH]; intros H; simpl in *; [reflexivity|].
  destruct (f x); [apply IH; exact H | discriminate].
Qed.

Section AfterSgr.

Variable params b : jsstring.
Hypothesis Hparams : Forall (fun c => isSgrParam c = true) params.

Lemma sgrEnd_sgr : sgrEnd (sgr params ++ b) = Some b.
Proof.
  unfold sgr, sgrEnd. cbn [app N.eqb andb].
  change (ESC =? ESC) with true. change (LBRACK =? LBRACK) with true. cbn [andb].
  rewrite <- app_assoc. cbn [app].
  rewrite (dropWhile_app_stop isSgrParam params 109 b Hparams eq_refl). reflexivity.
Qed.

Lemma sgrEnd_app_Some :
  forall a r', sgrEnd a = Some r' -> sgrEnd (a ++ sgr params ++ b) = Some (r' ++ sgr params ++ b).
Proof.
  intros a r' H. unfold sgrEnd in H |- *.
  destruct a as [|x [|y r]]; try discriminate. cbn [app].
  destruct ((x =? ESC) && (y =? LBRACK)); [|discriminate].
  destruct (dropWhile isSgrParam r) as [|z r''] eqn:E; [discriminate|].
  rewrite (dropWhile_app_cons _ _ _ _ _ E).
  destruct (z =? 109); [|discriminate]. inversion H; subst. reflexivity.
Qed.

Lemma sgrEnd_app_None :
  forall a, a <> [] -> sgrEnd a = None -> sgrEnd (a ++ sgr params ++ b) = None.
Proof.
  intros a Hne H. unfold sgrEnd in H |- *.
  destruct a as [|x [|y r]]; [congruence | |].
  - cbn [app sgr]. change (ESC =? LBRACK) with false. rewrite andb_false_r. reflexivity.
  - cbn [app]. destruct ((x =? ESC) && (y =? LBRACK)); [|reflexivity].
    destruct (dropWhile isSgrParam r) as [|z r''] eqn:E.
    + rewrite (dropWhile_app_nil _ _ _ E). reflexivity.
    + rewrite (dropWhile_app_cons _ _ _ _ _ E). destruct (z =? 109); [discriminate | reflexivity].
Qed.

Lemma stripSgr_before_sgr :
  forall fuel a, (length (a ++ sgr params ++ b) < fuel)%nat ->
    stripSgr fuel (a ++ sgr params ++ b)
    = stripSgr (S (length a)) a ++ stripSgr (S (length b)) b.
Proof.
  induction fuel as [|fuel IH]; intros a Hlen; [lia|].
  destruct a as [|c t].
  - change (stripSgr (S (length [])) []) with (@nil char). cbn [app] in *.
    rewrite (stripSgr_S fuel), sgrEnd_sgr.
    apply stripSgr_fuel; [|lia].
    unfold sgr in Hlen. simpl in Hlen. rewrite !length_app in Hlen. simpl in Hlen. lia.
  - rewrite (stripSgr_S fuel), (stripSgr_S (length (c :: t))).
    destruct (sgrEnd (c :: t)) as [r'|] eqn:E.
    + rewrite (sgrEnd_app_Some _ _ E).
      pose proof (sgrEnd_length _ _ E) as HL.
      rewrite IH.
      * f_equal. apply stripSgr_fuel; lia.
      * rewrite length_app in Hlen |- *. lia.
    + assert (Hne : c :: t <> []) by discriminate.
      rewrite (sgrEnd_app_None _ Hne E).
      rewrite <- app_comm_cons. cbn [length]. rewrite IH.
      * reflexivity.
      * rewrite <- app_comm_cons in Hlen. cbn [length] in Hlen. lia.
Qed.

End AfterSgr.

(** ** The pipeline as a whole *)

Lemma no_In_Forall :
  forall (c : char) s, ~ In c s -> Forall (fun x => x <> c) s.
Proof.
  intros c s H. apply Forall_forall. intros x Hx E. subst x. contradiction.
Qed.

Lemma Forall_no_In :
  forall (c : char) s, Forall (fun x => x <> c) s -> ~ In c s.
Proof.
  intros c s H Hin. rewrite Forall_forall in H. apply (H c Hin). reflexivity.
Qed.

Lemma Forall_no_Exists :
  forall (c : char) s, Forall (fun x => x <> c) s -> ~ Exists (fun x => x = c) s.
Proof.
  intros c s H. apply (Forall_not_Exists _ (fun x => x <> c)); [|exact H].
  intros x Hx E. contradiction.
Qed.

Lemma jsonArray_Needs_close : Needs flags_gm (fun c => c = RBRACK) (source jsonArrayRe).
Proof.
  apply Nd_SeqR, Nd_SeqR, Nd_SeqL, Nd_Group, Nd_SeqR, Nd_SeqR, Nd_SeqR, Nd_SeqR, Nd_SeqL, Nd_Chr.
  intros x H. apply canonicalize_plain in H; [exact H | reflexivity].
Qed.

Lemma cleanJsonArrays_no_close :
  forall J s, ~ Exists (fun c => c = RBRACK) s -> cleanJsonArrays J s = s.
Proof.
  intros J s H. unfold cleanJsonArrays, replace_with.
  apply (replace_from_needs jsonArrayRe _ _ jsonArray_Needs_close). exact H.
Qed.

Lemma dropEnd_last :
  forall f s, f 0 = false -> f (last (dropEnd f s) 0) = false.
Proof.
  intros f s H0. induction s as [|x t IH]; [exact H0|].
  rewrite dropEnd_cons. destruct (dropEnd f t) as [|k kept].
  - destruct (f x) eqn:E; [exact H0 | exact E].
  - exact IH.
Qed.

Lemma clean_trim : forall J s, exists T, clean J s = trim T.
Proof.
  intros J s. destruct s as [|c t].
  - exists []. reflexivity.
  - eexists. apply clean_unfold. discriminate.
Qed.

Lemma plainWhite_NL : plainWhite NL.
Proof. intros _. right. reflexivity. Qed.

Lemma plainWhite_squash : forall l b, Forall plainWhite (squash b l).
Proof.
  induction l as [|x t IH]; intros b; simpl; [constructor|].
  destruct (isWhiteSpace x) eqn:E.
  - destruct b; [apply IH|]. constructor; [intros _; left; reflexivity | apply IH].
  - constructor; [intros H; congruence | apply IH].
Qed.

Lemma plainWhite_fixIndentation : forall s, Forall plainWhite (fixIndentation s).
Proof.
  intros s. unfold fixIndentation. apply join_Forall; [exact plainWhite_NL|].
  apply Forall_forall. intros l Hl. apply in_map_iff in Hl. destruct Hl as [l0 [<- _]].
  rewrite fixLine_squash. apply trim_Forall. apply plainWhite_squash.
Qed.

Lemma White_quiet : forall c, White c -> quiet c.
Proof.
  intros c H. unfold White in H.
  assert (Hb : isBoxChar c = false).
  { destruct (isBoxChar c) eqn:E; [|reflexivity]. unfold isBoxChar in E.
    oneOf_cases E; discriminate. }
  assert (Hp : isPromptChar c = false).
  { destruct (isPromptChar c) eqn:E; [|reflexivity]. unfold isPromptChar in E.
    oneOf_cases E; discriminate. }
  repeat split; try assumption; intros E; subst c; discriminate.
Qed.

Lemma trim_white : forall w, Forall White w -> trim w = [].
Proof.
  intros w H. unfold trim.
  assert (E : dropWhile isWhiteSpace w = []).
  { induction H as [|x w Hx _ IH]; simpl; [reflexivity|].
    unfold White in Hx. rewrite Hx. exact IH. }
  rewrite E. reflexivity.
Qed.

Lemma count_le_length : forall c s, (count c s <= length s)%nat.
Proof.
  intros c s. induction s as [|x t IH]; simpl; [lia|]. destruct (x =? c); simpl; lia.
Qed.

Lemma collapseFrom_length :
  forall fuel s, (length (collapseFrom fuel s) <= length s)%nat.
Proof.
  induction fuel as [|fuel IH]; intros s; [simpl; lia|].
  destruct s as [|x rest]; [simpl; lia|]. cbn [collapseFrom].
  destruct (x =? NL); [|simpl; specialize (IH rest); lia].
  destruct (blankEnd (takeWhile isWhiteSpace rest)) as [[a b]|] eqn:E;
    [|simpl; specialize (IH rest); lia].
  destruct (blankEnd_spec _ a b E) as [Hw [Hb Hc]].
  pose proof (f_equal (@length char) (takeWhile_dropWhile isWhiteSpace rest)) as HL.
  rewrite Hw, !length_app in HL.
  assert (Ha : (2 <= length a)%nat).
  { pose proof (count_le_length NL a). rewrite Hw, count_app in Hc. lia. }
  specialize (IH (b ++ dropWhile isWhiteSpace rest)). rewrite length_app in IH.
  simpl. lia.
Qed.

Lemma collapseBlankLines_length :
  forall s, (length (collapseBlankLines s) <= length s)%nat.
Proof. intros s. rewrite collapseBlankLines_scan. apply collapseFrom_length. Qed.

Lemma count_NL_collapseFrom :
  forall fuel s, (count NL (collapseFrom fuel s) <= count NL s)%nat.
Proof.
  induction fuel as [|fuel IH]; intros s; [simpl; lia|].
  destruct s as [|x rest]; [simpl; lia|]. cbn [collapseFrom].
  destruct (x =? NL) eqn:Ex; [|simpl; rewrite Ex; apply IH].
  destruct (blankEnd (takeWhile isWhiteSpace rest)) as [[a b]|] eqn:E.
  - destruct (blankEnd_spec _ a b E) as [Hw [Hb Hc]].
    specialize (IH (b ++ dropWhile isWhiteSpace rest)).
    rewrite (takeWhile_dropWhile isWhiteSpace rest) at 2. rewrite Hw.
    rewrite count_app in IH. cbn [count]. rewrite Ex.
    change (NL =? NL) with true. cbn iota.
    rewrite Hw, count_app in Hc. rewrite <- app_assoc, !count_app. lia.
  - cbn [count]. rewrite Ex. specialize (IH rest). lia.
Qed.

(** The six rules other than the JSON rule, from the box rule to the
    trimming. *)
Lemma rules_length :
  forall s,
    (length (trim (collapseBlankLines (removeArtifacts (fixIndentation
               (removePipes (removeBoxDrawing s)))))) <= length s)%nat.
Proof.
  intros s.
  pose proof (subseq_length _ _ (removeBoxDrawing_subseq s)).
  pose proof (subseq_length _ _ (removePipes_subseq (removeBoxDrawing s))).
  pose proof (fixIndentation_length (removePipes (removeBoxDrawing s))).
  pose proof (subseq_length _ _
                (removeArtifacts_subseq (fixIndentation (removePipes (removeBoxDrawing s))))).
  pose proof (collapseBlankLines_length
                (removeArtifacts (fixIndentation (removePipes (removeBoxDrawing s))))).
  pose proof (subseq_length _ _
                (trim_subseq (collapseBlankLines (removeArtifacts (fixIndentation
                   (removePipes (removeBoxDrawing s))))))).
  lia.
Qed.

Lemma rules_lines :
  forall s,
    (count NL (trim (collapseBlankLines (removeArtifacts (fixIndentation
               (removePipes (removeBoxDrawing s)))))) <= count NL s)%nat.
Proof.
  intros s.
  pose proof (subseq_count NL _ _ (removeBoxDrawing_subseq s)).
  pose proof (subseq_count NL _ _ (removePipes_subseq (removeBoxDrawing s))).
  pose proof (f_equal (@length jsstring)
                (split_fixIndentation (removePipes (removeBoxDrawing s)))) as Hf.
  rewrite length_map, !length_split in Hf.
  pose proof (subseq_count NL _ _
                (removeArtifacts_subseq (fixIndentation (removePipes (removeBoxDrawing s))))).
  pose proof (count_NL_collapseFrom
                (S (length (removeArtifacts (fixIndentation (removePipes (removeBoxDrawing s))))))
                (removeArtifacts (fixIndentation (removePipes (removeBoxDrawing s))))) as Hc.
  rewrite <- collapseBlankLines_scan in Hc.
  pose proof (subseq_count NL _ _
                (trim_subseq (collapseBlankLines (removeArtifacts (fixIndentation
                   (removePipes (removeBoxDrawing s))))))).
  lia.
Qed.

Lemma rules_ink :
  forall s,
    subseq (ink (trim (collapseBlankLines (removeArtifacts (fixIndentation
                  (removePipes (removeBoxDrawing s))))))) (ink s).
Proof.
  intros s. rewrite ink_trim, ink_collapseBlankLines.
  eapply subseq_trans; [apply subseq_filter, removeArtifacts_subseq|].
  rewrite ink_fixIndentation.
  eapply subseq_trans; [apply subseq_filter, removePipes_subseq|].
  apply subseq_filter, removeBoxDrawing_subseq.
Qed.

Lemma clean_no_bracket :
  forall J s, ~ In LBRACK s -> s <> [] ->
    clean J s = trim (collapseBlankLines (removeArtifacts (fixIndentation
                  (removePipes (removeBoxDrawing s))))).
Proof.
  intros J s H Hne. rewrite (clean_unfold J s Hne).
  rewrite cleanJsonArrays_no_bracket; [reflexivity|].
  apply Forall_no_Exists. apply removeBoxDrawing_Forall; [discriminate|].
  apply no_In_Forall. exact H.
Qed.

Lemma clean_length :
  forall J s, ~ In LBRACK s -> (length (clean J s) <= length s)%nat.
Proof.
  intros J s H. destruct s as [|c t] eqn:Es; [simpl; lia|]. rewrite <- Es in *.
  rewrite (clean_no_bracket J s H) by (rewrite Es; discriminate).
  apply rules_length.
Qed.

(** * Further properties *)

(** ** The box rule *)

(** X1. The box rule without patterns.  The text is split at the
    newlines; a line that is not empty and holds only characters of the
    class is dropped; a kept line loses its first character and the white
    space after it when that character is one of the three leading frame
    characters, and then its last character and the white space before it
    when that character is one of the four trailing frame characters; the
    lines are joined again. *)
Theorem removeBoxDrawing_without_patterns :
  forall s,
    removeBoxDrawing s
    = join NL (map (fun line => cutTrail (cutLead line))
                 (filter (fun line => negb (allBox line)) (split NL s))).
Proof.
  intros s. unfold removeBoxDrawing. f_equal.
  rewrite (filter_ext_bool _ (fun line => negb (allBox line)))
    by (intros l; rewrite test_boxOnly; reflexivity).
  apply map_ext. intros l. rewrite replace_boxLead, replace_boxTrail. reflexivity.
Qed.

(** X2. The box rule only deletes: its result is the text with some
    characters left out, so it is never longer and never has more lines
    than the text. *)
Theorem removeBoxDrawing_only_deletes :
  forall s,
    subseq (removeBoxDrawing s) s
    /\ (length (removeBoxDrawing s) <= length s)%nat
    /\ (length (split NL (removeBoxDrawing s)) <= length (split NL s))%nat.
Proof.
  intros s. pose proof (removeBoxDrawing_subseq s) as H.
  split; [exact H|]. split; [apply subseq_length | apply subseq_lines]; exact H.
Qed.

(** ** The JSON rule *)

(** X3. A text without an opening bracket, and a text without a closing
    bracket, is left as it is by the JSON rule, whatever the runtime's JSON
    object does: the replacer is not called. *)
Theorem cleanJsonArrays_needs_brackets :
  forall (J : JSON) (s : jsstring),
    ~ In LBRACK s \/ ~ In RBRACK s -> cleanJsonArrays J s = s.
Proof.
  intros J s [H | H].
  - apply cleanJsonArrays_no_bracket. apply Forall_no_Exists, no_In_Forall. exact H.
  - apply cleanJsonArrays_no_close. apply Forall_no_Exists, no_In_Forall. exact H.
Qed.

Lemma cleanJsonArrays_needs_brackets_witness :
  ~ In RBRACK (str "[1, 2")
  /\ cleanJsonArrays refJSON (str "[1, 2") = str "[1, 2".
Proof.
  assert (H : ~ In RBRACK (str "[1, 2")).
  { apply Forall_no_In. repeat constructor; discriminate. }
  split; [exact H|].
  apply (cleanJsonArrays_needs_brackets refJSON (str "[1, 2")). right. exact H.
Defined.

(** ** The pipe rule *)

(** X4. The pipe rule without patterns.  Each line loses, when its first
    character that is not white is a pipe, everything up to the first
    character that is not white after that pipe; and then, when its last
    character that is not white is a pipe, everything from the white space
    before that pipe on. *)
Theorem removePipes_without_patterns :
  forall s,
    removePipes s
    = join NL (map (fun line => cutTrailPipe (cutLeadPipe line)) (split NL s)).
Proof.
  intros s. unfold removePipes. f_equal. apply map_ext. intros l.
  rewrite replace_pipeLead_eq, replace_pipeTrail_eq. reflexivity.
Qed.

(** X5. The pipe rule works on the lines one by one and keeps their
    number: the lines of the result are the stripped lines of the text, in
    their order; and it only deletes. *)
Theorem removePipes_keeps_lines :
  forall s,
    split NL (removePipes s) = map stripPipes (split NL s)
    /\ length (split NL (removePipes s)) = length (split NL s)
    /\ subseq (removePipes s) s.
Proof.
  intros s. split; [apply split_removePipes|].
  split; [rewrite split_removePipes; apply length_map | apply removePipes_subseq].
Qed.

(** ** The indentation rule *)

(** X6. The indentation rule is idempotent. *)
Theorem fixIndentation_idempotent :
  forall s, fixIndentation (fixIndentation s) = fixIndentation s.
Proof. intros s. apply fixIndentation_tidy. apply tidy_fixIndentation. Qed.

(** X7. The indentation rule keeps the number of lines and makes every
    line neat: no white space at either end, and inside only single
    spaces.  The texts it leaves unchanged are exactly those whose lines
    are all neat. *)
Theorem fixIndentation_fixed_points :
  forall s,
    length (split NL (fixIndentation s)) = length (split NL s)
    /\ Forall (fun line => neat line = true) (split NL (fixIndentation s))
    /\ (fixIndentation s = s <-> Forall (fun line => neat line = true) (split NL s)).
Proof.
  intros s.
  assert (Hn : Forall (fun line => neat line = true) (split NL (fixIndentation s))).
  { rewrite split_fixIndentation. apply Forall_forall. intros l Hl.
    apply in_map_iff in Hl. destruct Hl as [l0 [<- _]]. apply neat_fixLine. }
  split; [rewrite split_fixIndentation; apply length_map|]. split; [exact Hn|].
  split.
  - intros E. rewrite <- E. exact Hn.
  - intros H. unfold fixIndentation. rewrite map_fixed; [apply join_split|].
    eapply Forall_impl; [|exact H]. intros l Hl. apply fixLine_neat. exact Hl.
Qed.

(** X8. The indentation rule touches white space only: the characters
    that are not white are the same, in the same order; the text does not
    get longer; and the white characters left are spaces and newlines. *)
Theorem fixIndentation_keeps_ink :
  forall s,
    ink (fixIndentation s) = ink s
    /\ (length (fixIndentation s) <= length s)%nat
    /\ Forall plainWhite (fixIndentation s).
Proof.
  intros s. split; [apply ink_fixIndentation|].
  split; [apply fixIndentation_length | apply plainWhite_fixIndentation].
Qed.

(** ** The artifact rule *)

(** X9. The artifact rule only deletes, so it adds no character and no
    line; and a text without escape character, [$], [>] and colon is left
    as it is. *)
Theorem removeArtifacts_only_deletes :
  (forall s,
      subseq (removeArtifacts s) s
      /\ (length (split NL (removeArtifacts s)) <= length (split NL s))%nat)
  /\ (forall s,
        (forall c, In c s -> c <> ESC /\ isPromptChar c = false /\ c <> 58) ->
        removeArtifacts s = s).
Proof.
  split.
  - intros s. pose proof (removeArtifacts_subseq s) as H.
    split; [exact H | apply subseq_lines; exact H].
  - intros s H. unfold removeArtifacts.
    rewrite (replace_needs ansiRe _ [] s ansi_Needs).
    2:{ intros E. apply Exists_exists in E. destruct E as [c [Hc E]].
        destruct (H c Hc) as [H1 _]. contradiction. }
    rewrite (replace_needs promptRe _ [] s prompt_Needs).
    2:{ intros E. apply Exists_exists in E. destruct E as [c [Hc E]].
        destruct (H c Hc) as [_ [H1 _]]. congruence. }
    apply (replace_needs shellRe _ [] s shell_Needs).
    intros E. apply Exists_exists in E. destruct E as [c [Hc E]].
    destruct (H c Hc) as [_ [_ H1]]. contradiction.
Qed.

Lemma removeArtifacts_only_deletes_witness :
  removeArtifacts (str "cost 100 USD") = str "cost 100 USD".
Proof.
  apply (proj2 removeArtifacts_only_deletes (str "cost 100 USD")).
  intros c Hc. simpl in Hc.
  repeat (destruct Hc as [<- | Hc]; [repeat split; discriminate|]). destruct Hc.
Defined.

(** X10. An SGR sequence, that is the escape character, an opening
    bracket, digits and semicolons, and [m], is deleted wherever it
    stands: the first replacement of the artifact rule treats the text
    before it and the text after it as if each stood alone.  When neither
    holds an escape character, the rule gives what it gives for the text
    without the sequence. *)
Theorem removeArtifacts_drops_sgr :
  forall a params b : jsstring,
    Forall (fun c => isSgrParam c = true) params ->
    replace ansiRe [] (a ++ sgr params ++ b) = replace ansiRe [] a ++ replace ansiRe [] b
    /\ (~ In ESC a -> ~ In ESC b ->
        removeArtifacts (a ++ sgr params ++ b) = removeArtifacts (a ++ b)).
Proof.
  intros a params b Hp.
  assert (H1 : replace ansiRe [] (a ++ sgr params ++ b)
               = replace ansiRe [] a ++ replace ansiRe [] b).
  { rewrite !replace_ansi. apply stripSgr_before_sgr; [exact Hp | lia]. }
  split; [exact H1|]. intros Ha Hb. unfold removeArtifacts. rewrite H1.
  assert (Hno : forall t, ~ In ESC t -> replace ansiRe [] t = t).
  { intros t Ht. apply (replace_needs ansiRe _ [] t ansi_Needs).
    apply Forall_no_Exists, no_In_Forall. exact Ht. }
  rewrite (Hno a Ha), (Hno b Hb), (Hno (a ++ b)); [reflexivity|].
  intros Hin. apply in_app_or in Hin. tauto.
Qed.

Lemma removeArtifacts_drops_sgr_witness :
  Forall (fun c => isSgrParam c = true) (str "1;32")
  /\ removeArtifacts (str "all " ++ sgr (str "1;32") ++ str "good") = str "all good".
Proof.
  assert (Hp : Forall (fun c => isSgrParam c = true) (str "1;32")) by (repeat constructor).
  split; [exact Hp|].
  rewrite (proj2 (removeArtifacts_drops_sgr (str "all ") (str "1;32") (str "good") Hp)).
  - vm_compute. reflexivity.
  - intros H. simpl in H. repeat (destruct H as [H | H]; [discriminate H|]). destruct H.
  - intros H. simpl in H. repeat (destruct H as [H | H]; [discriminate H|]). destruct H.
Defined.

(** ** The blank-line rule *)

(** X11. After the blank-line rule no stretch of white space holds more
    than two newlines, so the result has no three newlines in a row; the
    rule is idempotent; and the texts it leaves unchanged are exactly the
    calm ones. *)
Theorem collapseBlankLines_fixed_points :
  forall s,
    calm O (collapseBlankLines s) = true
    /\ ~ infix [NL; NL; NL] (collapseBlankLines s)
    /\ collapseBlankLines (collapseBlankLines s) = collapseBlankLines s
    /\ (collapseBlankLines s = s <-> calm O s = true).
Proof.
  intros s. pose proof (calm_collapseBlankLines s) as H.
  split; [exact H|]. split; [apply (calm_no_blank_lines _ O H)|].
  split; [apply collapseBlankLines_calm; exact H|].
  split; [intros E; rewrite <- E; exact H | apply collapseBlankLines_calm].
Qed.

(** X12. The blank-line rule touches white space only: the characters
    that are not white are the same, in the same order; and the text gets
    neither longer nor richer in lines. *)
Theorem collapseBlankLines_keeps_ink :
  forall s,
    ink (collapseBlankLines s) = ink s
    /\ (length (collapseBlankLines s) <= length s)%nat
    /\ (length (split NL (collapseBlankLines s)) <= length (split NL s))%nat.
Proof.
  intros s. split; [apply ink_collapseBlankLines|].
  split; [apply collapseBlankLines_length|].
  rewrite !length_split, collapseBlankLines_scan.
  pose proof (count_NL_collapseFrom (S (length s)) s). lia.
Qed.

(** ** The hook *)

(** X13. What the hook returns is trimmed, for every input and every
    JSON object: it neither begins nor ends with white space. *)
Theorem clean_is_trimmed :
  forall (J : JSON) (s : jsstring),
    trim (clean J s) = clean J s
    /\ stops isWhiteSpace (clean J s)
    /\ isWhiteSpace (last (clean J s) 0) = false.
Proof.
  intros J s. destruct (clean_trim J s) as [T E]. rewrite E.
  split; [apply trim_idem|]. unfold trim.
  split; [apply dropEnd_stops, dropWhile_stops | apply dropEnd_last; reflexivity].
Qed.

(** X14. The only white characters in what the hook returns are spaces
    and newlines: tabs, carriage returns, no-break spaces and the other
    white characters of the input, and of what the JSON object writes, are
    gone. *)
Theorem clean_white_space_is_plain :
  forall (J : JSON) (s : jsstring), Forall plainWhite (clean J s).
Proof.
  intros J s. destruct s as [|c t]; [constructor|].
  rewrite clean_unfold by discriminate.
  apply trim_Forall. apply collapseBlankLines_Forall; [exact plainWhite_NL|].
  apply removeArtifacts_Forall. apply plainWhite_fixIndentation.
Qed.

(** X15. What the hook returns never has three newlines in a row: no
    stretch of white space in it holds more than two newlines. *)
Theorem clean_has_no_blank_runs :
  forall (J : JSON) (s : jsstring),
    calm O (clean J s) = true /\ ~ infix [NL; NL; NL] (clean J s).
Proof.
  intros J s.
  assert (H : calm O (clean J s) = true).
  { destruct s as [|c t]; [reflexivity|]. rewrite clean_unfold by discriminate.
    apply (calm_trim _ O). apply calm_collapseBlankLines. }
  split; [exact H | apply (calm_no_blank_lines _ O H)].
Qed.

(** X16. An input of white space only is cleaned to the empty string. *)
Theorem clean_white_input :
  forall (J : JSON) (s : jsstring), Forall White s -> clean J s = [].
Proof.
  intros J s H. destruct s as [|c t] eqn:Es; [reflexivity|]. rewrite <- Es in *.
  assert (Hne : s <> []) by (rewrite Es; discriminate).
  rewrite (clean_quiet J s Hne) by (eapply Forall_impl; [|exact H]; exact White_quiet).
  apply trim_white. apply squeeze_Forall.
  apply fixIndentation_Forall; [reflexivity | reflexivity | exact H].
Qed.

Lemma clean_white_input_witness :
  Forall White x_white /\ clean refJSON x_white = [].
Proof.
  assert (H : Forall White x_white) by (repeat constructor).
  split; [exact H | apply (clean_white_input refJSON x_white H)].
Defined.

(** X17. On an input without an opening bracket the JSON rule does
    nothing, so the result does not depend on the JSON object; it is not
    longer than the input and has no more lines; and its characters that
    are not white are characters of the input, in their order: the hook
    adds nothing but spaces and newlines.  *)
Theorem clean_without_bracket :
  forall (J : JSON) (s : jsstring),
    ~ In LBRACK s ->
    (length (clean J s) <= length s)%nat
    /\ (length (split NL (clean J s)) <= length (split NL s))%nat
    /\ subseq (ink (clean J s)) (ink s)
    /\ (forall J' : JSON, clean J' s = clean J s).
Proof.
  intros J s H. destruct s as [|c t] eqn:Es.
  { split; [simpl; lia|]. split; [simpl; lia|]. split; [constructor | reflexivity]. }
  rewrite <- Es in *.
  assert (Hne : s <> []) by (rewrite Es; discriminate).
  split; [apply clean_length; exact H|].
  rewrite (clean_no_bracket J s H Hne).
  split; [rewrite !length_split; pose proof (rules_lines s); lia|].
  split; [apply rules_ink|].
  intros J'. apply clean_no_bracket; assumption.
Qed.

Lemma clean_without_bracket_witness :
  ~ In LBRACK x_bracket_free
  /\ clean refJSON x_bracket_free = str "ls -l | wc" ++ [NL; NL] ++ str "done"
  /\ (length (clean refJSON x_bracket_free) <= length x_bracket_free)%nat.
Proof.
  assert (H : ~ In LBRACK x_bracket_free).
  { apply Forall_no_In. repeat constructor; discriminate. }
  split; [exact H|]. split; [vm_compute; reflexivity|].
  exact (proj1 (clean_without_bracket refJSON x_bracket_free H)).
Defined.

(** ** The catalogue in the test suites *)

(** X18. The names of the seven rules are pairwise distinct, so the
    look-up by name of the rule tests finds every rule of the catalogue
    under its own name, and nothing under any other name. *)
Theorem getRule_by_name :
  forall J : JSON,
    NoDup (map name (cleaningRules J))
    /\ (forall r, In r (cleaningRules J) -> getRule J (name r) = Some r)
    /\ (forall n, ~ In n (map name (cleaningRules J)) -> getRule J n = None).
Proof.
  intros J. split; [|split].
  - unfold cleaningRules. cbn [map name].
    repeat (constructor; [simpl; intuition discriminate|]). constructor.
  - intros r H. unfold cleaningRules in H. cbn [In] in H.
    repeat (destruct H as [<- | H]; [reflexivity|]). destruct H.
  - intros n H. unfold getRule.
    destruct (find (fun r => String.eqb (name r) n) (cleaningRules J)) as [r|] eqn:E;
      [|reflexivity].
    apply find_some in E. destruct E as [Hin Hn]. apply String.eqb_eq in Hn.
    exfalso. apply H. rewrite <- Hn. apply in_map. exact Hin.
Qed.

Lemma getRule_by_name_witness :
  getRule refJSON "Fix indentation"
  = Some {| name := "Fix indentation";
            description := "Normalizes indentation and removes excessive spaces";
            apply := fixIndentation |}.
Proof.
  refine (proj1 (proj2 (getRule_by_name refJSON))
            {| name := "Fix indentation";
               description := "Normalizes indentation and removes excessive spaces";
               apply := fixIndentation |} _).
  unfold cleaningRules. cbn [In]. tauto.
Defined.

Lemma applyRules_cleaningRules :
  forall J s,
    applyRules (cleaningRules J) s
    = trim (collapseBlankLines (removeArtifacts (fixIndentation
              (removePipes (cleanJsonArrays J (removeBoxDrawing s)))))).
Proof. reflexivity. Qed.

Lemma applyRules_legacyRules :
  forall s,
    applyRules legacyRules s
    = trim (collapseBlankLines (removeArtifacts (fixIndentation (removePipes s)))).
Proof. reflexivity. Qed.

Lemma applyRules_reorderedRules :
  forall J s,
    applyRules (reorderedRules J) s
    = cleanJsonArrays J (trim (collapseBlankLines (removeArtifacts (fixIndentation
              (removeBoxDrawing (removePipes s)))))).
Proof. reflexivity. Qed.

Lemma plain_no_box :
  forall s, Forall (fun c => isBoxChar c = false /\ c <> LBRACK) s ->
    Forall (fun c => isBoxChar c = false) s.
Proof. intros s H. eapply Forall_impl; [|exact H]. intros c [Hc _]. exact Hc. Qed.

Lemma plain_no_bracket :
  forall s, Forall (fun c => isBoxChar c = false /\ c <> LBRACK) s ->
    ~ Exists (fun c => c = LBRACK) s.
Proof.
  intros s H. apply Forall_no_Exists. eapply Forall_impl; [|exact H]. intros c [_ Hc]. exact Hc.
Qed.

(** X19. The single-file prototype, with its five rules, and the hook,
    with its seven, return the same text for every input without any of
    the eighteen box characters and without an opening bracket; and both
    return the empty string for an absent input.  The catalogue of the
    prototype is the catalogue without its first two rules. *)
Theorem legacyTextCleaner_agrees :
  (forall J : JSON, legacyRules = skipn 2 (cleaningRules J))
  /\ legacyTextCleaner Null = [] /\ legacyTextCleaner Undefined = []
  /\ (forall (J : JSON) (s : jsstring),
        Forall (fun c => isBoxChar c = false /\ c <> LBRACK) s ->
        legacyTextCleaner (Str s) = useTextCleaner J (Str s)).
Proof.
  split; [reflexivity|]. split; [reflexivity|]. split; [reflexivity|].
  intros J s H. destruct s as [|c t] eqn:Es; [reflexivity|]. rewrite <- Es in *.
  unfold legacyTextCleaner, useTextCleaner. rewrite Es. rewrite <- Es.
  rewrite applyRules_cleaningRules, applyRules_legacyRules.
  rewrite (removeBoxDrawing_quiet s (plain_no_box s H)).
  rewrite (cleanJsonArrays_no_bracket J s (plain_no_bracket s H)). reflexivity.
Qed.

Lemma legacyTextCleaner_agrees_witness :
  Forall (fun c => isBoxChar c = false /\ c <> LBRACK) x_plain
  /\ useTextCleaner refJSON (Str x_plain) = str "total 42" ++ [NL; NL] ++ str "done"
  /\ legacyTextCleaner (Str x_plain) = useTextCleaner refJSON (Str x_plain).
Proof.
  assert (H : Forall (fun c => isBoxChar c = false /\ c <> LBRACK) x_plain).
  { repeat constructor; discriminate. }
  split; [exact H|]. split; [vm_compute; reflexivity|].
  exact (proj2 (proj2 (proj2 legacyTextCleaner_agrees)) refJSON x_plain H).
Defined.

(** X20. The rearranged catalogue of the order test, which runs the pipe
    rule before the box rule and the JSON rule last, gives what the
    catalogue gives on every input without any of the eighteen box
    characters and without an opening bracket.  In general the order
    matters: after a frame character a pipe goes only when the box rule
    runs first. *)
Theorem reorderedRules_agree :
  (forall (J : JSON) (s : jsstring),
      Forall (fun c => isBoxChar c = false /\ c <> LBRACK) s ->
      applyRules (reorderedRules J) s = applyRules (cleaningRules J) s)
  /\ applyRules (cleaningRules refJSON) ([9474] ++ str "| x") = str "x"
  /\ applyRules (reorderedRules refJSON) ([9474] ++ str "| x") = str "| x".
Proof.
  split; [|split; vm_compute; reflexivity].
  intros J s H.
  rewrite applyRules_cleaningRules, applyRules_reorderedRules.
  rewrite (removeBoxDrawing_quiet s (plain_no_box s H)).
  rewrite (cleanJsonArrays_no_bracket J s (plain_no_bracket s H)).
  assert (H3 : Forall (fun c => isBoxChar c = false /\ c <> LBRACK) (removePipes s)).
  { apply removePipes_Forall; [split; [reflexivity | discriminate] | exact H]. }
  rewrite (removeBoxDrawing_quiet _ (plain_no_box _ H3)).
  apply cleanJsonArrays_no_bracket. apply plain_no_bracket.
  apply trim_Forall. apply collapseBlankLines_Forall; [split; [reflexivity | discriminate]|].
  apply removeArtifacts_Forall.
  apply fixIndentation_Forall; [split; [reflexivity | discriminate]
                               | split; [reflexivity | discriminate] | exact H3].
Qed.

Lemma reorderedRules_agree_witness :
  applyRules (reorderedRules refJSON) x_plain = applyRules (cleaningRules refJSON) x_plain.
Proof.
  apply (proj1 reorderedRules_agree refJSON x_plain).
  repeat constructor; discriminate.
Defined.

(** ** The application *)

(** X21. What the header shows for every state of the application:
    Characters is the length of the input, and Characters minus Cleaned is
    the length of the cleaned text.  When the input has no opening bracket,
    Cleaned lies between zero and Characters; with one it can be negative,
    since a pretty-printed array is longer than the array.  After Clear the
    output is empty and the header shows one line and no character. *)
Theorem App_stats :
  (forall (J : JSON) (st : AppState),
      characters (stats J st) = Z.of_nat (length (inputText st))
      /\ (characters (stats J st) - cleaned (stats J st))%Z
         = Z.of_nat (length (cleanedText J st))
      /\ (1 <= lines (stats J st))%Z)
  /\ (forall (J : JSON) (st : AppState),
        ~ In LBRACK (inputText st) ->
        (0 <= cleaned (stats J st) <= characters (stats J st))%Z)
  /\ cleaned (stats refJSON {| inputText := str "[1,2]"; copied := false |}) = (-3)%Z
  /\ (forall (J : JSON) (st : AppState),
        cleanedText J (handleClear st) = []
        /\ stats J (handleClear st) = {| lines := 1; characters := 0; cleaned := 0 |}).
Proof.
  split; [|split; [|split]].
  - intros J st. unfold stats, useTextStats. cbn [characters cleaned lines].
    split; [reflexivity|]. split; [lia|]. rewrite length_split. lia.
  - intros J st H. unfold stats, useTextStats. cbn [characters cleaned].
    unfold cleanedText. fold (clean J (inputText st)).
    pose proof (clean_length J (inputText st) H). lia.
  - vm_compute. reflexivity.
  - intros J st. split; reflexivity.
Qed.

Lemma App_stats_witness :
  ~ In LBRACK x_bracket_free
  /\ (0 <= cleaned (stats refJSON {| inputText := x_bracket_free; copied := false |})
       <= characters (stats refJSON {| inputText := x_bracket_free; copied := false |}))%Z.
Proof.
  assert (H : ~ In LBRACK x_bracket_free).
  { apply Forall_no_In. repeat constructor; discriminate. }
  split; [exact H|].
  exact (proj1 (proj2 App_stats) refJSON {| inputText := x_bracket_free; copied := false |} H).
Defined.

(** ** Framed texts *)

Lemma contentLine_no_NL : forall l, contentLine l -> Forall (fun c => c <> NL) l.
Proof.
  intros l [Hne [Hn _]]. destruct l as [|x t]; [constructor|].
  apply (neatFrom_no_NL _ true Hn).
Qed.

Lemma contentLine_head :
  forall l, contentLine l -> exists c t, l = c :: t /\ isWhiteSpace c = false.
Proof.
  intros l [Hne [Hn _]]. destruct l as [|x t]; [congruence|].
  exists x, t. split; [reflexivity|]. unfold neat in Hn. simpl in Hn.
  destruct (isWhiteSpace x); [|reflexivity]. rewrite andb_false_r in Hn. discriminate.
Qed.

Lemma contentLine_dropEnd : forall l, contentLine l -> dropEnd isWhiteSpace l = l.
Proof.
  intros l [Hne [Hn _]]. destruct l as [|x t]; [reflexivity|].
  apply (neatFrom_dropEnd _ true Hn).
Qed.

Lemma dropEnd_snoc :
  forall f s x, f x = false -> dropEnd f (s ++ [x]) = s ++ [x].
Proof.
  intros f s x Hx. induction s as [|c t IH]; simpl; [rewrite Hx; reflexivity|].
  rewrite IH. destruct (t ++ [x]) eqn:E; [destruct t; discriminate | reflexivity].
Qed.

Lemma dropEnd_app_fixed :
  forall f a R, R <> [] -> dropEnd f R = R -> dropEnd f (a ++ R) = a ++ R.
Proof.
  intros f a R Hne HR. induction a as [|c t IH]; [exact HR|].
  rewrite <- app_comm_cons, dropEnd_cons, IH.
  destruct (t ++ R) eqn:E; [|reflexivity].
  apply app_eq_nil in E. destruct E as [_ E]. congruence.
Qed.

Lemma stripFrame_framed :
  forall l, contentLine l -> stripFrame ([9474; SP] ++ l ++ [SP; 9474]) = l.
Proof.
  intros l Hl. rewrite stripFrame_eq.
  destruct (contentLine_head l Hl) as [c [t [El Hc]]].
  assert (E1 : cutLead ([9474; SP] ++ l ++ [SP; 9474]) = l ++ [SP; 9474]).
  { rewrite El. cbn [app cutLead]. change (oneOf leadChars 9474) with true. cbn iota.
    cbn [dropWhile]. change (isWhiteSpace SP) with true. cbn iota.
    rewrite Hc. reflexivity. }
  rewrite E1. unfold cutTrail.
  change (l ++ [SP; 9474]) with (l ++ [SP] ++ [9474]). rewrite app_assoc.
  rewrite last_last, removelast_last.
  change (oneOf trailChars 9474) with true. cbn iota.
  rewrite dropEnd_app_all by (repeat constructor).
  apply contentLine_dropEnd. exact Hl.
Qed.

Lemma keepLine_framed :
  forall l, keepLine ([9474; SP] ++ l ++ [SP; 9474]) = true.
Proof.
  intros l. unfold keepLine. rewrite test_boxOnly. cbn [app allBox forallb].
  change (isBoxChar SP) with false. rewrite andb_false_r. reflexivity.
Qed.

Lemma stripPipes_framed :
  forall l, contentLine l -> stripPipes ([PIPE; SP] ++ l ++ [SP; PIPE]) = l.
Proof.
  intros l Hl. rewrite stripPipes_eq.
  destruct (contentLine_head l Hl) as [c [t [El Hc]]].
  assert (E1 : cutLeadPipe ([PIPE; SP] ++ l ++ [SP; PIPE]) = l ++ [SP; PIPE]).
  { rewrite El. unfold cutLeadPipe. cbn [app dropWhile].
    change (isWhiteSpace PIPE) with false. cbn iota.
    change (PIPE =? PIPE) with true. cbn iota.
    cbn [dropWhile]. change (isWhiteSpace SP) with true. cbn iota.
    rewrite Hc. reflexivity. }
  rewrite E1. unfold cutTrailPipe.
  change (l ++ [SP; PIPE]) with (l ++ [SP] ++ [PIPE]). rewrite app_assoc.
  rewrite dropEnd_snoc by reflexivity.
  rewrite last_last, removelast_last.
  change (PIPE =? PIPE) with true. cbn iota.
  rewrite dropEnd_app_all by (repeat constructor).
  apply contentLine_dropEnd. exact Hl.
Qed.

Lemma map_framed :
  forall (g frame : jsstring -> jsstring) ls,
    (forall l, contentLine l -> g (frame l) = l) ->
    Forall contentLine ls -> map g (map frame ls) = ls.
Proof.
  intros g frame ls Hg H. induction H as [|l ls Hl _ IH]; simpl; [reflexivity|].
  rewrite (Hg l Hl), IH. reflexivity.
Qed.

Lemma framed_no_NL :
  forall (a b : jsstring) ls,
    Forall (fun c => c <> NL) a -> Forall (fun c => c <> NL) b ->
    Forall contentLine ls ->
    Forall (Forall (fun c => c <> NL)) (map (fun l => a ++ l ++ b) ls).
Proof.
  intros a b ls Ha Hb H. induction H as [|l ls Hl _ IH]; simpl; constructor; [|exact IH].
  apply Forall_app; split; [exact Ha|]. apply Forall_app; split; [|exact Hb].
  apply contentLine_no_NL. exact Hl.
Qed.

Lemma removeBoxDrawing_boxed :
  forall top bottom ls,
    top <> [] -> Forall (fun c => isBoxChar c = true) top ->
    bottom <> [] -> Forall (fun c => isBoxChar c = true) bottom ->
    Forall contentLine ls ->
    removeBoxDrawing (boxed top bottom ls) = join NL ls.
Proof.
  intros top bottom ls Ht Htop Hb Hbottom Hls. unfold boxed.
  rewrite removeBoxDrawing_lines.
  - assert (Kt : keepLine top = false).
    { unfold keepLine. rewrite (boxOnly_test_complete top Ht Htop). reflexivity. }
    assert (Kb : keepLine bottom = false).
    { unfold keepLine. rewrite (boxOnly_test_complete bottom Hb Hbottom). reflexivity. }
    rewrite !filter_app. cbn [filter]. rewrite Kt, Kb, app_nil_l, app_nil_r.
    rewrite filter_all.
    + f_equal. apply (map_framed stripFrame _ ls stripFrame_framed Hls).
    + apply Forall_forall. intros l Hl. apply in_map_iff in Hl.
      destruct Hl as [l0 [<- _]]. apply keepLine_framed.
  - apply Forall_app; split; [repeat constructor; apply box_no_NL; exact Htop|].
    apply Forall_app; split; [|repeat constructor; apply box_no_NL; exact Hbottom].
    apply (framed_no_NL [9474; SP] [SP; 9474]); [| |exact Hls]; repeat constructor; discriminate.
Qed.

Lemma removePipes_piped :
  forall ls, ls <> [] -> Forall contentLine ls -> removePipes (piped ls) = join NL ls.
Proof.
  intros ls Hne Hls. unfold removePipes, piped.
  rewrite split_join.
  - change (fun line => replace pipeTrailRe [] (replace pipeLeadRe [] line)) with stripPipes.
    f_equal. apply (map_framed stripPipes _ ls stripPipes_framed Hls).
  - destruct ls; [congruence | discriminate].
  - apply (framed_no_NL [PIPE; SP] [SP; PIPE]); [| |exact Hls]; repeat constructor; discriminate.
Qed.

Lemma calm_no_NL : forall l k, Forall (fun c => c <> NL) l -> calm k l = true.
Proof.
  intros l k H. revert k. induction H as [|x t Hx _ IH]; intros k; [reflexivity|].
  rewrite calm_cons. apply N.eqb_neq in Hx. rewrite Hx.
  destruct (isWhiteSpace x); apply IH.
Qed.

Lemma calm_line :
  forall t R, Forall (fun c => c <> NL) t -> calm O (t ++ NL :: R) = calm 1 R.
Proof.
  intros t R H. induction H as [|x t Hx _ IH]; [reflexivity|].
  rewrite <- app_comm_cons, calm_cons. apply N.eqb_neq in Hx. rewrite Hx.
  destruct (isWhiteSpace x); exact IH.
Qed.

Lemma calm_content :
  forall ls, Forall contentLine ls -> forall k, calm k (join NL ls) = true.
Proof.
  intros ls H. induction H as [|l ls Hl _ IH]; intros k; [reflexivity|].
  destruct ls as [|l' ls'].
  - apply calm_no_NL. apply contentLine_no_NL. exact Hl.
  - rewrite join_cons by discriminate.
    destruct (contentLine_head l Hl) as [c [t [El Hc]]].
    pose proof (contentLine_no_NL l Hl) as HN. rewrite El in HN |- *.
    inversion HN; subst.
    rewrite <- app_comm_cons, calm_cons. rewrite (not_ws_not_NL c Hc), Hc.
    rewrite calm_line by assumption. apply IH.
Qed.

Lemma trim_content :
  forall ls, Forall contentLine ls -> trim (join NL ls) = join NL ls.
Proof.
  intros ls H. unfold trim.
  assert (Hd : dropWhile isWhiteSpace (join NL ls) = join NL ls).
  { destruct H as [|l ls Hl _]; [reflexivity|].
    destruct (contentLine_head l Hl) as [c [t [El Hc]]].
    apply dropWhile_fixed. subst l.
    destruct ls; [|rewrite join_cons by discriminate]; simpl; exact Hc. }
  rewrite Hd. induction H as [|l ls Hl Hls IH]; [reflexivity|].
  destruct ls as [|l' ls'].
  - apply contentLine_dropEnd. exact Hl.
  - rewrite join_cons by discriminate.
    change (l ++ NL :: join NL (l' :: ls')) with (l ++ [NL] ++ join NL (l' :: ls')).
    rewrite app_assoc. apply dropEnd_app_fixed.
    + inversion Hls; subst. destruct H1 as [Hne _].
      destruct l'; [congruence|]. destruct ls'; [|rewrite join_cons by discriminate]; discriminate.
    + apply IH. inversion Hls; subst.
      destruct (contentLine_head l' H1) as [c [t [El Hc]]]. subst l'.
      apply dropWhile_fixed.
      destruct ls'; [|rewrite join_cons by discriminate]; simpl; exact Hc.
Qed.

Lemma quiet_content : forall ls, Forall contentLine ls -> Forall quiet (join NL ls).
Proof.
  intros ls H. apply join_Forall; [exact quiet_NL|].
  eapply Forall_impl; [|exact H]. intros l [_ [_ Hq]]. exact Hq.
Qed.

(** From the indentation rule on, content is left as it is. *)
Lemma content_unchanged :
  forall ls, ls <> [] -> Forall contentLine ls ->
    trim (collapseBlankLines (removeArtifacts (fixIndentation (join NL ls)))) = join NL ls.
Proof.
  intros ls Hne H.
  assert (Hf : fixIndentation (join NL ls) = join NL ls).
  { unfold fixIndentation. rewrite split_join.
    - rewrite map_fixed; [reflexivity|]. eapply Forall_impl; [|exact H].
      intros l [_ [Hn _]]. apply fixLine_neat. exact Hn.
    - exact Hne.
    - eapply Forall_impl; [|exact H]. exact contentLine_no_NL. }
  rewrite Hf, (removeArtifacts_quiet _ (quiet_content ls H)).
  rewrite (collapseBlankLines_calm _ (calm_content ls H O)).
  apply trim_content. exact H.
Qed.

Lemma join_nonempty :
  forall (m : jsstring) ms, m <> [] -> join NL (m :: ms) <> [].
Proof.
  intros m ms Hm. destruct ms as [|m' ms']; [exact Hm|].
  rewrite join_cons by discriminate. destruct m; [congruence | discriminate].
Qed.

(** ** Framed texts through the hook *)

(** X22. A box around lines of content is taken away whole: for a top and
    a bottom border made of box characters, and lines of content that
    each stand between two vertical bars with a space on either side, the
    hook returns the lines of content, joined by newlines. *)
Theorem clean_boxed :
  forall (J : JSON) (top bottom : jsstring) (ls : list jsstring),
    top <> [] -> Forall (fun c => isBoxChar c = true) top ->
    bottom <> [] -> Forall (fun c => isBoxChar c = true) bottom ->
    ls <> [] -> Forall contentLine ls ->
    clean J (boxed top bottom ls) = join NL ls.
Proof.
  intros J top bottom ls Ht Htop Hb Hbottom Hne Hls.
  assert (Hin : boxed top bottom ls <> []).
  { unfold boxed. cbn [app]. apply join_nonempty. exact Ht. }
  rewrite (clean_unfold J _ Hin).
  rewrite (removeBoxDrawing_boxed top bottom ls Ht Htop Hb Hbottom Hls).
  pose proof (quiet_content ls Hls) as Hq.
  rewrite cleanJsonArrays_no_bracket.
  2:{ apply (Forall_not_Exists _ quiet); [|exact Hq].
      intros c [_ [_ [_ [_ [_ Hc]]]]] E. contradiction. }
  rewrite removePipes_quiet
    by (eapply Forall_impl; [|exact Hq]; intros c Hc; apply Hc).
  apply content_unchanged; assumption.
Qed.

Lemma clean_boxed_witness :
  clean refJSON (boxed [9484; 9472; 9472; 9488] [9492; 9472; 9472; 9496]
                   [str "npm install"; str "added 3 packages"])
  = str "npm install" ++ [NL] ++ str "added 3 packages".
Proof.
  apply (clean_boxed refJSON [9484; 9472; 9472; 9488] [9492; 9472; 9472; 9496]
           [str "npm install"; str "added 3 packages"]).
  - discriminate.
  - repeat constructor.
  - discriminate.
  - repeat constructor.
  - discriminate.
  - repeat constructor; try discriminate; apply forallb_quiet; vm_compute; reflexivity.
Defined.

(** X23. The pipes around the rows of a table are taken away: for lines
    of content that each stand between two pipes with a space on either
    side, the hook returns the lines of content, joined by newlines. *)
Theorem clean_piped :
  forall (J : JSON) (ls : list jsstring),
    ls <> [] -> Forall contentLine ls -> clean J (piped ls) = join NL ls.
Proof.
  intros J ls Hne Hls.
  assert (HQ : Forall (fun c => isBoxChar c = false /\ c <> LBRACK) (piped ls)).
  { unfold piped. apply join_Forall; [split; [reflexivity | discriminate]|].
    apply Forall_forall. intros m Hm. apply in_map_iff in Hm. destruct Hm as [l [<- Hl]].
    rewrite Forall_forall in Hls. destruct (Hls l Hl) as [_ [_ Hq]].
    repeat (apply Forall_app; split); try (repeat constructor; discriminate).
    eapply Forall_impl; [|exact Hq]. intros c Hc.
    split; [apply Hc | apply Hc]. }
  assert (Hin : piped ls <> []).
  { unfold piped. destruct ls as [|l ls']; [congruence|]. cbn [map].
    apply join_nonempty. discriminate. }
  rewrite (clean_unfold J _ Hin).
  rewrite (removeBoxDrawing_quiet _ (plain_no_box _ HQ)).
  rewrite (cleanJsonArrays_no_bracket J _ (plain_no_bracket _ HQ)).
  rewrite (removePipes_piped ls Hne Hls).
  apply content_unchanged; assumption.
Qed.

Lemma clean_piped_witness :
  clean refJSON (piped [str "Name Size"; str "a.txt 12"])
  = str "Name Size" ++ [NL] ++ str "a.txt 12".
Proof.
  apply (clean_piped refJSON [str "Name Size"; str "a.txt 12"]).
  - discriminate.
  - repeat constructor; try discriminate; apply forallb_quiet; vm_compute; reflexivity.
Defined.

(** ** Enough fuel *)

(** The counter of [replace_from] only has to exceed the length of the
    text: beyond that it does not matter. *)
Lemma replace_from_fuel :
  forall re f f1 f2 before after,
    (length after < f1)%nat -> (length after < f2)%nat ->
    replace_from re f f1 before after = replace_from re f f2 before after.
Proof.
  intros re f f1. induction f1 as [|f1 IH]; intros f2 before after H1 H2; [lia|].
  destruct f2 as [|f2]; [lia|]. cbn [replace_from].
  assert (Hcopy : match after with
                  | [] => []
                  | c :: rest => c :: replace_from re f f1 (c :: before) rest
                  end
                  = match after with
                    | [] => []
                    | c :: rest => c :: replace_from re f f2 (c :: before) rest
                    end).
  { destruct after as [|c rest]; [reflexivity|]. simpl in H1, H2. f_equal. apply IH; lia. }
  destruct (match_here re before after) as [st'|]; [|exact Hcopy].
  destruct (negb (fl_global (reflags re))); [reflexivity|].
  destruct (progressed (start_state before after) st') eqn:Hp.
  - unfold progressed in Hp. cbn [start_state suf] in Hp. apply Nat.ltb_lt in Hp.
    f_equal. apply IH; lia.
  - f_equal. exact Hcopy.
Qed.

(** ** The prompt pattern *)

Lemma match_here_prompt :
  forall before after,
    match_here promptRe before after
    = match after with
      | c :: t =>
          if atLineStart before && isPromptChar c
          then Some {| pre := rev (takeWhile isWhiteSpace t) ++ c :: before;
                       suf := dropWhile isWhiteSpace t; caps := [] |}
          else None
      | [] => None
      end.
Proof.
  intros before after. unfold match_here, start_state.
  change (source promptRe)
    with (Seq Bol (Seq (Cls isPromptChar) (Star true (Cls isWhiteSpace)))).
  change (reflags promptRe) with flags_gm.
  rewrite rmatch_Seq. cbn [rmatch].
  change (at_bol flags_gm {| pre := before; suf := after; caps := [] |})
    with (atLineStart before).
  destruct (atLineStart before).
  - change (rmatch flags_gm (Cls isPromptChar)
              (rmatch flags_gm (Star true (Cls isWhiteSpace)) Some)
              {| pre := before; suf := after; caps := [] |}
            = match after with
              | c :: t =>
                  if true && isPromptChar c
                  then Some {| pre := rev (takeWhile isWhiteSpace t) ++ c :: before;
                               suf := dropWhile isWhiteSpace t; caps := [] |}
                  else None
              | [] => None
              end).
    destruct after as [|c t]; [reflexivity|].
    rewrite rmatch_Cls_cons. cbn [andb]. destruct (isPromptChar c); [|reflexivity].
    rewrite (takeWhile_dropWhile isWhiteSpace t) at 1.
    rewrite star_cls_greedy by (try apply takeWhile_Forall; apply dropWhile_stops).
    apply greedy_run_all. reflexivity.
  - destruct after; reflexivity.
Qed.

Lemma replace_prompt_copy :
  forall x rest fuel before, isPromptChar x = false ->
    replace_from promptRe (fun _ _ => []) (S fuel) before (x :: rest)
    = x :: replace_from promptRe (fun _ _ => []) fuel (x :: before) rest.
Proof.
  intros x rest fuel before Hx. cbn [replace_from]. rewrite match_here_prompt.
  rewrite Hx, andb_false_r. reflexivity.
Qed.

Lemma replace_prompt_word :
  forall l rest fuel before,
    Forall (fun c => isPromptChar c = false) l ->
    replace_from promptRe (fun _ _ => []) (length l + fuel) before (l ++ rest)
    = l ++ replace_from promptRe (fun _ _ => []) fuel (rev l ++ before) rest.
Proof.
  intros l rest fuel before H. revert before.
  induction H as [|x l Hx _ IH]; intros before; [reflexivity|].
  cbn [length Nat.add app]. rewrite replace_prompt_copy by exact Hx.
  rewrite IH. simpl rev. rewrite <- app_assoc. reflexivity.
Qed.

Lemma quiet_no_prompt :
  forall l, Forall quiet l -> Forall (fun c => isPromptChar c = false) l.
Proof. intros l H. eapply Forall_impl; [|exact H]. intros c Hc. apply Hc. Qed.

(** One prompted line: the prompt and the space go, the content stays. *)
Lemma replace_prompt_line :
  forall l rest fuel before,
    atLineStart before = true -> contentLine l ->
    replace_from promptRe (fun _ _ => []) (S (length l + fuel)) before
      ([36; SP] ++ l ++ rest)
    = l ++ replace_from promptRe (fun _ _ => []) fuel (rev l ++ SP :: 36 :: before) rest.
Proof.
  intros l rest fuel before Hb Hl.
  destruct (contentLine_head l Hl) as [c [t [El Hc]]].
  destruct Hl as [_ [_ Hq]].
  rewrite <- (replace_prompt_word l rest fuel (SP :: 36 :: before) (quiet_no_prompt l Hq)).
  cbn [replace_from]. rewrite match_here_prompt. cbn [app].
  rewrite Hb. change (isPromptChar 36) with true. cbn [andb].
  cbn [reflags promptRe fl_global flags_gm negb suf pre caps].
  subst l. cbn [dropWhile takeWhile app]. change (isWhiteSpace SP) with true. cbn iota.
  cbn [dropWhile takeWhile]. rewrite Hc.
  destruct (progressed _ _) eqn:Hp; [reflexivity|].
  exfalso. unfold progressed in Hp. apply Nat.ltb_ge in Hp. simpl in Hp. lia.
Qed.

Lemma atLineStart_NL : forall p, atLineStart (NL :: p) = true.
Proof. reflexivity. Qed.

Lemma prompted_single : forall l, prompted [l] = [36; SP] ++ l ++ [].
Proof. intros l. unfold prompted. cbn [map join]. rewrite app_nil_r. reflexivity. Qed.

Lemma prompted_cons :
  forall l l' ls',
    prompted (l :: l' :: ls') = [36; SP] ++ l ++ NL :: prompted (l' :: ls').
Proof.
  intros l l' ls'. unfold prompted. rewrite map_cons.
  rewrite join_cons by (cbn [map]; discriminate).
  rewrite <- app_assoc. reflexivity.
Qed.

Lemma replace_prompt_lines :
  forall ls before, atLineStart before = true -> Forall contentLine ls ->
    exists fuel0, forall fuel, (fuel0 <= fuel)%nat ->
      replace_from promptRe (fun _ _ => []) fuel before (prompted ls) = join NL ls.
Proof.
  intros ls before Hb H. revert before Hb.
  induction H as [|l ls Hl Hls IH]; intros before Hb.
  - exists 1%nat. intros fuel Hf. destruct fuel; [lia|].
    unfold prompted. cbn [map join replace_from]. rewrite match_here_prompt. reflexivity.
  - destruct ls as [|l' ls'].
    + exists (S (length l + 1)). intros fuel Hf.
      destruct fuel as [|fuel]; [lia|].
      replace fuel with (length l + (fuel - length l))%nat by lia.
      rewrite prompted_single.
      rewrite (replace_prompt_line l [] _ before Hb Hl).
      destruct (fuel - length l)%nat eqn:E; [lia|].
      cbn [replace_from]. rewrite match_here_prompt. apply app_nil_r.
    + destruct (IH (NL :: rev l ++ SP :: 36 :: before) (atLineStart_NL _)) as [f0 Hf0].
      exists (S (length l + S f0)). intros fuel Hf.
      destruct fuel as [|fuel]; [lia|].
      replace fuel with (length l + S (fuel - S (length l)))%nat by lia.
      rewrite prompted_cons.
      rewrite (replace_prompt_line l _ _ before Hb Hl).
      rewrite replace_prompt_copy by reflexivity.
      rewrite Hf0 by lia.
      symmetry. apply join_cons. discriminate.
Qed.

Lemma replace_prompt_prompted :
  forall ls, Forall contentLine ls -> replace promptRe [] (prompted ls) = join NL ls.
Proof.
  intros ls H. unfold replace, replace_with.
  destruct (replace_prompt_lines ls [] eq_refl H) as [f0 Hf0].
  rewrite (replace_from_fuel _ _ _ (S (length (prompted ls)) + f0)) by lia.
  apply Hf0. lia.
Qed.

(** ** Neat lines put together *)

Lemma neatFrom_nonws :
  forall w rest b, Forall (fun c => isWhiteSpace c = false) w -> w <> [] ->
    neatFrom b (w ++ rest) = neatFrom false rest.
Proof.
  intros w rest b H. revert b. induction H as [|x w Hx Hw IH]; intros b Hne; [congruence|].
  cbn [app neatFrom]. rewrite Hx. destruct w as [|y w']; [reflexivity|].
  apply IH. discriminate.
Qed.

Lemma neatFrom_app :
  forall l b w, neatFrom b l = true -> l <> [] ->
    neatFrom b (l ++ w) = neatFrom false w.
Proof.
  induction l as [|x t IH]; intros b w H Hne; [congruence|].
  cbn [app neatFrom] in H |- *. destruct (isWhiteSpace x).
  - apply andb_true_iff in H. destruct H as [H1 H2]. rewrite H1. cbn [andb].
    destruct t as [|y t']; [discriminate|]. apply IH; [exact H2 | discriminate].
  - destruct t as [|y t']; [reflexivity|]. apply IH; [exact H | discriminate].
Qed.

Lemma single_line :
  forall l, Forall (fun c => c <> NL) l -> split NL l = [l].
Proof.
  intros l H. apply (split_join NL [l]); [discriminate | repeat constructor; exact H].
Qed.

Lemma fixIndentation_line :
  forall l, l <> [] -> neatFrom true l = true -> fixIndentation l = l.
Proof.
  intros l Hne H. unfold fixIndentation.
  rewrite (single_line l (neatFrom_no_NL l true H)). cbn [map join].
  apply fixLine_neat. destruct l; [congruence | exact H].
Qed.

(** ** Prompted and coloured lines *)

Lemma tail_unchanged :
  forall ls, Forall contentLine ls ->
    trim (collapseBlankLines (join NL ls)) = join NL ls.
Proof.
  intros ls H. rewrite (collapseBlankLines_calm _ (calm_content ls H O)).
  apply trim_content. exact H.
Qed.

Lemma quiet_artifacts :
  forall s, Forall quiet s ->
    replace shellRe [] (replace promptRe [] s) = s.
Proof.
  intros s H.
  rewrite (replace_needs promptRe _ [] s prompt_Needs).
  2:{ apply (Forall_not_Exists _ quiet); [|exact H].
      intros c [_ [_ [_ [Hc _]]]] E. congruence. }
  apply (replace_needs shellRe _ [] s shell_Needs).
  apply (Forall_not_Exists _ quiet); [|exact H].
  intros c [_ [_ [_ [_ [Hc _]]]]] E. contradiction.
Qed.

Lemma replace_ansi_sgr :
  forall a params b, Forall (fun c => isSgrParam c = true) params ->
    replace ansiRe [] (a ++ sgr params ++ b) = replace ansiRe [] a ++ replace ansiRe [] b.
Proof.
  intros a params b Hp. rewrite !replace_ansi. apply stripSgr_before_sgr; [exact Hp | lia].
Qed.

Lemma replace_ansi_none : forall t, ~ In ESC t -> replace ansiRe [] t = t.
Proof.
  intros t Ht. apply (replace_needs ansiRe _ [] t ansi_Needs).
  apply Forall_no_Exists, no_In_Forall. exact Ht.
Qed.

Lemma quiet_no_ESC : forall s, Forall quiet s -> ~ In ESC s.
Proof.
  intros s H. apply Forall_no_In. eapply Forall_impl; [|exact H].
  intros c Hc. apply Hc.
Qed.

Lemma neat_prompted_line :
  forall l, contentLine l -> neat ([36; SP] ++ l) = true.
Proof.
  intros l [Hne [Hn _]]. destruct l as [|x t]; [congruence|].
  unfold neat in Hn. cbn [app neat neatFrom].
  change (isWhiteSpace 36) with false. change (isWhiteSpace SP) with true. cbn iota.
  change (SP =? SP) with true. cbn [andb negb]. exact Hn.
Qed.

Lemma prompted_Forall :
  forall (Q : char -> Prop) ls, Q 36 -> Q SP -> Q NL -> (forall c, quiet c -> Q c) ->
    Forall contentLine ls -> Forall Q (prompted ls).
Proof.
  intros Q ls H36 HSP HNL HQ Hls. unfold prompted. apply join_Forall; [exact HNL|].
  apply Forall_forall. intros m Hm. apply in_map_iff in Hm. destruct Hm as [l [<- Hl]].
  rewrite Forall_forall in Hls. destruct (Hls l Hl) as [_ [_ Hq]].
  apply Forall_app; split; [repeat constructor; assumption|].
  eapply Forall_impl; [|exact Hq]. exact HQ.
Qed.

Lemma fixIndentation_prompted :
  forall ls, ls <> [] -> Forall contentLine ls -> fixIndentation (prompted ls) = prompted ls.
Proof.
  intros ls Hne Hls. unfold fixIndentation, prompted. rewrite split_join.
  - rewrite map_fixed; [reflexivity|].
    apply Forall_forall. intros m Hm. apply in_map_iff in Hm. destruct Hm as [l [<- Hl]].
    rewrite Forall_forall in Hls. apply fixLine_neat. apply neat_prompted_line. apply Hls, Hl.
  - destruct ls; [congruence | discriminate].
  - apply Forall_forall. intros m Hm. apply in_map_iff in Hm. destruct Hm as [l [<- Hl]].
    apply Forall_app; split; [repeat constructor; discriminate|].
    apply contentLine_no_NL. rewrite Forall_forall in Hls. apply Hls, Hl.
Qed.

Lemma low_plain :
  forall c, 27 <= c <= 122 -> c <> SP ->
    isBoxChar c = false /\ isWhiteSpace c = false.
Proof.
  intros c Hc Hsp. split.
  - destruct (isBoxChar c) eqn:E; [|reflexivity]. unfold isBoxChar in E.
    oneOf_cases E; lia.
  - destruct (isWhiteSpace c) eqn:E; [|reflexivity]. unfold isWhiteSpace in E.
    apply orb_true_iff in E. destruct E as [E | E].
    + oneOf_cases E; try lia. exfalso. apply Hsp. reflexivity.
    + unfold inRange in E. apply andb_true_iff in E. destruct E as [E _].
      apply N.leb_le in E. lia.
Qed.

Lemma param_range : forall c, isSgrParam c = true -> 48 <= c <= 59.
Proof.
  intros c H. unfold isSgrParam, inRange in H. apply orb_true_iff in H.
  destruct H as [H | H].
  - apply andb_true_iff in H. destruct H as [H1 H2].
    apply N.leb_le in H1. apply N.leb_le in H2. lia.
  - apply N.eqb_eq in H. lia.
Qed.

Lemma sgr_chars :
  forall p, Forall (fun c => isSgrParam c = true) p ->
    Forall (fun c => 27 <= c <= 109 /\ c <> SP /\ c <> RBRACK) (sgr p).
Proof.
  intros p H. unfold sgr.
  constructor; [repeat split; try discriminate; unfold ESC; lia|].
  constructor; [repeat split; try discriminate; unfold LBRACK; lia|].
  apply Forall_app; split.
  - eapply Forall_impl; [|exact H]. intros c Hc. apply param_range in Hc.
    repeat split; try lia; intros E; subst c; unfold SP, RBRACK in Hc; lia.
  - repeat constructor; try discriminate; lia.
Qed.

Lemma sgr_Forall :
  forall (Q : char -> Prop) p,
    (forall c, 27 <= c <= 109 -> c <> SP -> c <> RBRACK -> Q c) ->
    Forall (fun c => isSgrParam c = true) p -> Forall Q (sgr p).
Proof.
  intros Q p HQ H. eapply Forall_impl; [|apply sgr_chars; exact H].
  intros c [H1 [H2 H3]]. apply HQ; assumption.
Qed.

Lemma neatFrom_head :
  forall c r b b', isWhiteSpace c = false -> neatFrom b (c :: r) = neatFrom b' (c :: r).
Proof. intros c r b b' H. cbn [neatFrom]. rewrite H. reflexivity. Qed.

Lemma coloured_Forall :
  forall (Q : char -> Prop) p q l,
    (forall c, 27 <= c <= 109 -> c <> SP -> c <> RBRACK -> Q c) ->
    Forall (fun c => isSgrParam c = true) p -> Forall (fun c => isSgrParam c = true) q ->
    Forall Q l -> Forall Q (sgr p ++ l ++ sgr q).
Proof.
  intros Q p q l HQ Hp Hq Hl.
  apply Forall_app; split; [apply sgr_Forall; assumption|].
  apply Forall_app; split; [exact Hl | apply sgr_Forall; assumption].
Qed.

Lemma neat_coloured :
  forall p q l,
    Forall (fun c => isSgrParam c = true) p -> Forall (fun c => isSgrParam c = true) q ->
    contentLine l -> neatFrom true (sgr p ++ l ++ sgr q) = true.
Proof.
  intros p q l Hp Hq Hl.
  assert (Hs : forall r, Forall (fun c => isSgrParam c = true) r ->
                         Forall (fun c => isWhiteSpace c = false) (sgr r)).
  { intros r Hr. apply sgr_Forall; [|exact Hr]. intros c H1 H2 _. apply low_plain; [lia | assumption]. }
  rewrite (neatFrom_nonws (sgr p) _ true (Hs p Hp)) by discriminate.
  destruct (contentLine_head l Hl) as [c [t [El Hc]]].
  destruct Hl as [Hne [Hn _]]. unfold neat in Hn. rewrite El in Hn |- *.
  rewrite <- app_comm_cons. rewrite (neatFrom_head c _ false true Hc).
  rewrite app_comm_cons. rewrite (neatFrom_app (c :: t) true _ Hn) by discriminate.
  rewrite <- (app_nil_r (sgr q)).
  rewrite (neatFrom_nonws (sgr q) [] false (Hs q Hq)) by discriminate. reflexivity.
Qed.

(** ** Prompted and coloured lines through the hook *)

(** X24. Dollar prompts are taken away line by line: for lines of content
    that each stand behind a dollar sign and a space, the hook returns the
    lines of content, joined by newlines. *)
Theorem clean_prompted :
  forall (J : JSON) (ls : list jsstring),
    ls <> [] -> Forall contentLine ls -> clean J (prompted ls) = join NL ls.
Proof.
  intros J ls Hne Hls.
  assert (Hin : prompted ls <> []).
  { unfold prompted. destruct ls as [|l ls']; [congruence|]. cbn [map].
    apply join_nonempty. discriminate. }
  rewrite (clean_unfold J _ Hin).
  rewrite removeBoxDrawing_quiet
    by (apply prompted_Forall; try reflexivity; [intros c Hc; apply Hc | exact Hls]).
  rewrite cleanJsonArrays_no_bracket
    by (apply Forall_no_Exists, prompted_Forall; try discriminate;
        [intros c Hc; apply Hc | exact Hls]).
  rewrite removePipes_quiet
    by (apply prompted_Forall; try discriminate; [intros c Hc; apply Hc | exact Hls]).
  rewrite (fixIndentation_prompted ls Hne Hls).
  unfold removeArtifacts.
  rewrite replace_ansi_none
    by (apply Forall_no_In, prompted_Forall; try discriminate;
        [intros c Hc; apply Hc | exact Hls]).
  rewrite (replace_prompt_prompted ls Hls).
  rewrite (replace_needs shellRe _ [] _ shell_Needs).
  2:{ apply (Forall_not_Exists _ quiet); [|apply quiet_content; exact Hls].
      intros c [_ [_ [_ [_ [Hc _]]]]] E. contradiction. }
  apply tail_unchanged. exact Hls.
Qed.

Lemma clean_prompted_witness :
  clean refJSON (prompted [str "git status"; str "git diff"])
  = str "git status" ++ [NL] ++ str "git diff".
Proof.
  apply (clean_prompted refJSON [str "git status"; str "git diff"]).
  - discriminate.
  - repeat constructor; try discriminate; apply forallb_quiet; vm_compute; reflexivity.
Defined.

(** X25. The colours of a line are taken away: for a line of content
    without a closing bracket, between two SGR sequences, the hook returns
    the line of content. *)
Theorem clean_coloured :
  forall (J : JSON) (p q l : jsstring),
    Forall (fun c => isSgrParam c = true) p ->
    Forall (fun c => isSgrParam c = true) q ->
    contentLine l -> ~ In RBRACK l ->
    clean J (sgr p ++ l ++ sgr q) = l.
Proof.
  intros J p q l Hp Hq Hl Hr.
  pose proof Hl as [Hne [Hn Hquiet]].
  assert (Hin : sgr p ++ l ++ sgr q <> []) by discriminate.
  rewrite (clean_unfold J _ Hin).
  rewrite removeBoxDrawing_quiet.
  2:{ apply coloured_Forall; try assumption.
      - intros c H1 H2 _. apply low_plain; [lia | assumption].
      - eapply Forall_impl; [|exact Hquiet]. intros c Hc. apply Hc. }
  rewrite cleanJsonArrays_no_close.
  2:{ apply Forall_no_Exists. apply coloured_Forall; try assumption.
      - intros c _ _ H3. exact H3.
      - apply no_In_Forall. exact Hr. }
  rewrite removePipes_quiet.
  2:{ apply coloured_Forall; try assumption.
      - intros c H1 _ _ E. subst c. unfold PIPE in H1. lia.
      - eapply Forall_impl; [|exact Hquiet]. intros c Hc. apply Hc. }
  rewrite (fixIndentation_line _ Hin (neat_coloured p q l Hp Hq Hl)).
  unfold removeArtifacts.
  rewrite <- (app_nil_l (sgr p ++ l ++ sgr q)).
  rewrite (replace_ansi_sgr [] p (l ++ sgr q) Hp).
  rewrite <- (app_nil_r (sgr q)).
  rewrite (replace_ansi_sgr l q [] Hq).
  rewrite (replace_ansi_none l (quiet_no_ESC l Hquiet)).
  change (replace ansiRe [] []) with (@nil char). rewrite app_nil_l, app_nil_r.
  rewrite (quiet_artifacts l Hquiet).
  assert (Hls : Forall contentLine [l]) by (repeat constructor; assumption).
  exact (tail_unchanged [l] Hls).
Qed.

Lemma clean_coloured_witness :
  clean refJSON (sgr (str "1;31") ++ str "build failed" ++ sgr (str "0"))
  = str "build failed".
Proof.
  apply (clean_coloured refJSON (str "1;31") (str "0") (str "build failed")).
  - repeat constructor.
  - repeat constructor.
  - repeat constructor; try discriminate; apply forallb_quiet; vm_compute; reflexivity.
  - apply Forall_no_In. repeat constructor; discriminate.
Defined.

(** ** The shell pattern *)

Lemma rmatch_Lit_same :
  forall fl s w k p rest cs,
    map (canonicalize fl) w = map (canonicalize fl) s ->
    rmatch fl (Lit s) k {| pre := p; suf := w ++ rest; caps := cs |}
    = k {| pre := rev w ++ p; suf := rest; caps := cs |}.
Proof.
  intros fl s. induction s as [|c s IH]; intros w k p rest cs H.
  - destruct w; [reflexivity | discriminate].
  - destruct w as [|x w]; [discriminate|]. inversion H as [[Hx Hw]].
    change (Lit (c :: s)) with (Seq (Chr c) (Lit s)).
    rewrite rmatch_Seq. rewrite <- app_comm_cons. rewrite rmatch_Chr_cons.
    rewrite Hx, N.eqb_refl. rewrite (IH w _ _ _ _ Hw).
    simpl rev. rewrite <- app_assoc. reflexivity.
Qed.

Lemma rmatch_Lit_first :
  forall fl c s x k p rest cs,
    canonicalize fl x <> canonicalize fl c ->
    rmatch fl (Lit (c :: s)) k {| pre := p; suf := x :: rest; caps := cs |} = None.
Proof.
  intros fl c s x k p rest cs H.
  change (Lit (c :: s)) with (Seq (Chr c) (Lit s)).
  rewrite rmatch_Seq, rmatch_Chr_cons.
  apply N.eqb_neq in H. rewrite H. reflexivity.
Qed.

Lemma rmatch_Alt :
  forall fl a b k st, rmatch fl (Alt a b) k st = orElse (rmatch fl a k st) (rmatch fl b k st).
Proof. reflexivity. Qed.

Lemma rmatch_Bol :
  forall fl k st, rmatch fl Bol k st = if at_bol fl st then k st else None.
Proof. reflexivity. Qed.

Lemma rmatch_Group :
  forall fl i a k st,
    rmatch fl (Group i a) k st = rmatch fl a (fun st' => k (set_cap i st st')) st.
Proof. reflexivity. Qed.

(** The alternation of the four labels reads a label in any case, and
    hands what follows to the continuation. *)
Lemma rmatch_Lit_other :
  forall fl c s x w' k p rest cs,
    canonicalize fl x <> canonicalize fl c ->
    rmatch fl (Lit (c :: s)) k {| pre := p; suf := (x :: w') ++ rest; caps := cs |} = None.
Proof. intros. rewrite <- app_comm_cons. apply rmatch_Lit_first. assumption. Qed.

Lemma shell_label :
  forall name w k rest,
    In name shellNames -> sameCase w name ->
    rmatch flags_gim
      (Alt (Lit (str "bash"))
         (Alt (Lit (str "sh")) (Alt (Lit (str "cmd")) (Lit (str "powershell")))))
      k {| pre := []; suf := w ++ rest; caps := [] |}
    = k {| pre := rev w ++ []; suf := rest; caps := [] |}.
Proof.
  intros name w k rest Hin Hw. unfold shellNames in Hin. cbn [In] in Hin.
  unfold sameCase in Hw.
  assert (Hhd : forall c s, name = c :: s ->
                  exists x w', w = x :: w'
                               /\ canonicalize flags_gim x = canonicalize flags_gim c).
  { intros c s E. rewrite E in Hw. destruct w as [|x w']; [discriminate|].
    inversion Hw. exists x, w'. auto. }
  rewrite !rmatch_Alt.
  change (str "bash") with [98; 97; 115; 104].
  change (str "sh") with [115; 104].
  change (str "cmd") with [99; 109; 100].
  change (str "powershell") with [112; 111; 119; 101; 114; 115; 104; 101; 108; 108].
  destruct Hin as [<- | [<- | [<- | [<- | []]]]];
    destruct (Hhd _ _ eq_refl) as [x [w' [E Hx]]].
  - rewrite (rmatch_Lit_same flags_gim [98; 97; 115; 104] w k [] rest [] Hw).
    rewrite E at 2 3 4.
    rewrite (rmatch_Lit_other flags_gim 115) by (rewrite Hx; discriminate).
    rewrite (rmatch_Lit_other flags_gim 99) by (rewrite Hx; discriminate).
    rewrite (rmatch_Lit_other flags_gim 112) by (rewrite Hx; discriminate).
    cbn [orElse]. apply orElse_None_r.
  - rewrite (rmatch_Lit_same flags_gim [115; 104] w k [] rest [] Hw).
    rewrite E at 1 3 4.
    rewrite (rmatch_Lit_other flags_gim 98) by (rewrite Hx; discriminate).
    rewrite (rmatch_Lit_other flags_gim 99) by (rewrite Hx; discriminate).
    rewrite (rmatch_Lit_other flags_gim 112) by (rewrite Hx; discriminate).
    cbn [orElse]. apply orElse_None_r.
  - rewrite (rmatch_Lit_same flags_gim [99; 109; 100] w k [] rest [] Hw).
    rewrite E at 1 2 4.
    rewrite (rmatch_Lit_other flags_gim 98) by (rewrite Hx; discriminate).
    rewrite (rmatch_Lit_other flags_gim 115) by (rewrite Hx; discriminate).
    rewrite (rmatch_Lit_other flags_gim 112) by (rewrite Hx; discriminate).
    cbn [orElse]. apply orElse_None_r.
  - rewrite (rmatch_Lit_same flags_gim [112; 111; 119; 101; 114; 115; 104; 101; 108; 108]
               w k [] rest [] Hw).
    rewrite E at 1 2 3.
    rewrite (rmatch_Lit_other flags_gim 98) by (rewrite Hx; discriminate).
    rewrite (rmatch_Lit_other flags_gim 115) by (rewrite Hx; discriminate).
    rewrite (rmatch_Lit_other flags_gim 99) by (rewrite Hx; discriminate).
    reflexivity.
Qed.

Lemma match_here_shell :
  forall name w l,
    In name shellNames -> sameCase w name -> contentLine l ->
    exists st', match_here shellRe [] (w ++ [58; SP] ++ l) = Some st' /\ suf st' = l.
Proof.
  intros name w l Hin Hw Hl.
  destruct (contentLine_head l Hl) as [c [t [El Hc]]].
  unfold match_here, start_state.
  change (source shellRe)
    with (Seq Bol
            (Seq (Group 1 (Alt (Lit (str "bash"))
                             (Alt (Lit (str "sh"))
                                (Alt (Lit (str "cmd")) (Lit (str "powershell"))))))
                 (Seq (Chr 58) (Star true (Cls isWhiteSpace))))).
  change (reflags shellRe) with flags_gim.
  rewrite rmatch_Seq, rmatch_Bol. cbn [at_bol pre].
  rewrite rmatch_Seq, rmatch_Group.
  rewrite (shell_label name w _ _ Hin Hw).
  unfold set_cap. cbn [pre suf caps app].
  rewrite rmatch_Seq, rmatch_Chr_cons, N.eqb_refl.
  change (SP :: l) with ([SP] ++ l).
  rewrite star_cls_greedy; [|repeat constructor | rewrite El; exact Hc].
  eexists. split; [apply greedy_run_all; reflexivity | reflexivity].
Qed.

Lemma quiet_no_colon : forall s, Forall quiet s -> ~ Exists (fun c => c = 58) s.
Proof.
  intros s H. apply (Forall_not_Exists _ quiet); [|exact H].
  intros c [_ [_ [_ [_ [Hc _]]]]] E. contradiction.
Qed.

Lemma replace_shell_label :
  forall name w l,
    In name shellNames -> sameCase w name -> contentLine l ->
    replace shellRe [] (w ++ [58; SP] ++ l) = l.
Proof.
  intros name w l Hin Hw Hl.
  destruct (match_here_shell name w l Hin Hw Hl) as [st' [Hm Hs]].
  unfold replace, replace_with. cbn [replace_from]. rewrite Hm.
  cbn [reflags shellRe fl_global flags_gim negb].
  destruct (progressed _ st') eqn:Hp.
  - rewrite Hs. cbn [app].
    apply (replace_from_needs shellRe _ _ shell_Needs).
    apply quiet_no_colon. apply Hl.
  - exfalso. unfold progressed in Hp. apply Nat.ltb_ge in Hp.
    rewrite Hs in Hp. cbn [start_state suf] in Hp. rewrite !length_app in Hp.
    cbn [length] in Hp. unfold char in Hp. lia.
Qed.

Lemma canon_letter :
  forall c d, canonicalize flags_gim c = canonicalize flags_gim d -> 97 <= d <= 122 ->
    65 <= c <= 90 \/ 97 <= c <= 122.
Proof.
  intros c d H Hd. unfold canonicalize in H. cbn [fl_ignoreCase flags_gim andb] in H.
  unfold inRange in H.
  replace ((97 <=? d) && (d <=? 122)) with true in H
    by (symmetry; apply andb_true_iff; split; apply N.leb_le; lia).
  destruct ((97 <=? c) && (c <=? 122)) eqn:E.
  - apply andb_true_iff in E. destruct E as [E1 E2].
    apply N.leb_le in E1. apply N.leb_le in E2. right. lia.
  - left. lia.
Qed.

Lemma sameCase_letters :
  forall name w, In name shellNames -> sameCase w name ->
    Forall (fun c => 65 <= c <= 90 \/ 97 <= c <= 122) w.
Proof.
  intros name w Hin Hw.
  assert (Hn : Forall (fun d => 97 <= d <= 122) name).
  { unfold shellNames in Hin. cbn [In] in Hin.
    destruct Hin as [<- | [<- | [<- | [<- | []]]]]; repeat constructor; vm_compute;
      discriminate. }
  clear Hin. unfold sameCase in Hw. revert w Hw.
  induction Hn as [|d name Hd _ IH]; intros w Hw.
  - destruct w; [constructor | discriminate].
  - destruct w as [|c w]; [discriminate|]. inversion Hw as [[Hc Hw']].
    constructor; [apply (canon_letter c d Hc Hd) | apply IH; exact Hw'].
Qed.

Lemma labelled_Forall :
  forall (Q : char -> Prop) name w l,
    (forall c, 65 <= c <= 90 \/ 97 <= c <= 122 -> Q c) -> Q 58 -> Q SP ->
    (forall c, quiet c -> Q c) ->
    In name shellNames -> sameCase w name -> contentLine l ->
    Forall Q (w ++ [58; SP] ++ l).
Proof.
  intros Q name w l HQ H58 HSP Hq Hin Hw Hl.
  apply Forall_app; split.
  - eapply Forall_impl; [|apply (sameCase_letters name w Hin Hw)]. exact HQ.
  - constructor; [exact H58|]. constructor; [exact HSP|].
    eapply Forall_impl; [|apply Hl]. exact Hq.
Qed.

Lemma neat_labelled :
  forall name w l,
    In name shellNames -> sameCase w name -> contentLine l ->
    w <> [] /\ neatFrom true (w ++ [58; SP] ++ l) = true.
Proof.
  intros name w l Hin Hw Hl.
  assert (Hne : w <> []).
  { intros E. subst w. unfold sameCase in Hw. unfold shellNames in Hin. cbn [In] in Hin.
    destruct Hin as [<- | [<- | [<- | [<- | []]]]]; discriminate. }
  split; [exact Hne|].
  rewrite (neatFrom_nonws w _ true); [| |exact Hne].
  - destruct Hl as [Hn0 [Hn _]]. destruct l as [|x t]; [congruence|].
    unfold neat in Hn. cbn [app neatFrom].
    change (isWhiteSpace 58) with false. change (isWhiteSpace SP) with true. cbn iota.
    change (SP =? SP) with true. cbn [andb negb]. exact Hn.
  - eapply Forall_impl; [|apply (sameCase_letters name w Hin Hw)].
    intros c Hc. cbv beta in Hc.
    apply low_plain; [lia|]. intros E. subst c. unfold SP in Hc. lia.
Qed.

(** X26. A shell label is taken away whatever the case of its letters:
    for one of the labels [bash], [sh], [cmd] and [powershell] in any mix of
    upper and lower case, a colon, a space and a line of content, the hook
    returns the line of content. *)
Theorem clean_shell_label :
  forall (J : JSON) (name w l : jsstring),
    In name shellNames -> sameCase w name -> contentLine l ->
    clean J (w ++ [58; SP] ++ l) = l.
Proof.
  intros J name w l Hin Hw Hl.
  destruct (neat_labelled name w l Hin Hw Hl) as [Hne Hneat].
  assert (Hin0 : w ++ [58; SP] ++ l <> []).
  { destruct w; [congruence | discriminate]. }
  rewrite (clean_unfold J _ Hin0).
  rewrite removeBoxDrawing_quiet.
  2:{ apply (labelled_Forall _ name); try assumption; try reflexivity.
      - intros c Hc. apply low_plain; [lia|]. intros E. subst c. unfold SP in Hc. lia.
      - intros c Hc. apply Hc. }
  rewrite cleanJsonArrays_no_bracket.
  2:{ apply Forall_no_Exists. apply (labelled_Forall _ name); try assumption;
        try discriminate.
      - intros c Hc E. subst c. unfold LBRACK in Hc. lia.
      - intros c Hc. apply Hc. }
  rewrite removePipes_quiet.
  2:{ apply (labelled_Forall _ name); try assumption; try discriminate.
      - intros c Hc E. subst c. unfold PIPE in Hc. lia.
      - intros c Hc. apply Hc. }
  rewrite (fixIndentation_line _ Hin0 Hneat).
  unfold removeArtifacts.
  rewrite replace_ansi_none.
  2:{ apply Forall_no_In. apply (labelled_Forall _ name); try assumption;
        try discriminate.
      - intros c Hc E. subst c. unfold ESC in Hc. lia.
      - intros c Hc. apply Hc. }
  rewrite (replace_needs promptRe _ [] _ prompt_Needs).
  2:{ apply (Forall_not_Exists _ (fun c => isPromptChar c = false));
        [intros c Hc E; congruence|].
      apply (labelled_Forall _ name); try assumption; try reflexivity.
      - intros c Hc. destruct (isPromptChar c) eqn:E; [|reflexivity].
        unfold isPromptChar in E. oneOf_cases E; lia.
      - intros c Hc. apply Hc. }
  rewrite (replace_shell_label name w l Hin Hw Hl).
  assert (Hls : Forall contentLine [l]) by (repeat constructor; apply Hl).
  exact (tail_unchanged [l] Hls).
Qed.

Lemma clean_shell_label_witness :
  clean refJSON (str "PowerShell: access denied") = str "access denied".
Proof.
  apply (clean_shell_label refJSON (str "powershell") (str "PowerShell") (str "access denied")).
  - unfold shellNames. cbn [In]. tauto.
  - reflexivity.
  - repeat constructor; try discriminate; apply forallb_quiet; vm_compute; reflexivity.
Defined.
